(** * The Messenger sales-agent pipeline: a shallow embedding

    The development follows the layout of the TypeScript sources:

    - [Js]           the string and array primitives the code relies on
                     ([String.prototype.trim], [startsWith], [split],
                     [Array.prototype.find]) and thrown errors;
    - [Aes], [Sha256] the two primitives of Node's [crypto] module that the
                     code selects by name (['aes-256-cbc'], ['sha256']),
                     after FIPS 197, FIPS 180-4 and RFC 2104;
    - [Encryption]   [src/lib/encryption.ts]: [encrypt] and [decrypt];
    - [Facebook]     [src/lib/facebook.ts]: [verifyWebhookSignature] and
                     [sendMessage];
    - [ChatbotUtils] [src/lib/chatbot-utils.ts]: [parseGeminiResponse];
    - [Webhook]      [src/app/api/webhook/messenger/route.ts]: [GET],
                     [POST] and [processMessagingEvent];
    - [Gemini]       [src/lib/gemini.ts]: [constructPrompt] and
                     [generateChatbotResponse];
    - [FacebookCallback] [src/app/api/facebook/callback/route.ts]: the
                     [GET] handler that stores a page connection;
    - [Wired]        the webhook route over the functions it imports.

    A JavaScript string is represented by the list of the bytes of its
    UTF-8 encoding (type [list ascii]); every literal of the sources is
    ASCII.  Searching, splitting and prefix tests on that representation
    agree with the ones on UTF-16 code units, since UTF-8 is
    self-synchronising.  A string with an unpaired surrogate has no
    UTF-8 encoding and is outside the model.  Console output and time
    stamps are left out. *)

From Stdlib Require Import String Ascii Bool Arith NArith ZArith Lia List.
From Stdlib Require Import DecimalString Btauto.
Import ListNotations.

(** ** JavaScript primitives *)

Module Js.

Definition str := list ascii.

(** A literal of the source. *)
Definition lit (s : string) : str := list_ascii_of_string s.

Definition byte_of (n : nat) : ascii := ascii_of_nat n.

Definition str_eqb (a b : str) : bool :=
  if list_eq_dec ascii_dec a b then true else false.

(** [s.startsWith(p)] *)
Fixpoint startsWith (s p : str) {struct p} : bool :=
  match p, s with
  | [], _ => true
  | _ :: _, [] => false
  | c :: p', d :: s' => if ascii_dec c d then startsWith s' p' else false
  end.

(** [!s] for a string: the empty string is falsy. *)
Definition falsy (s : str) : bool :=
  match s with [] => true | _ => false end.

(** [!v] for a value that may be [null] or [undefined]. *)
Definition falsy_opt (v : option str) : bool :=
  match v with None => true | Some s => falsy s end.

(** [s.split(sep)] for a non-empty separator: the pieces between the
    successive, non-overlapping occurrences of [sep], scanning from the
    left.  [skip] counts the characters of a separator occurrence that
    are still to be passed over, [cur] is the current piece, reversed. *)
Fixpoint split_go (sep : str) (skip : nat) (cur : str) (s : str)
  : list str :=
  match s with
  | [] => [rev cur]
  | c :: s' =>
      match skip with
      | S k => split_go sep k cur s'
      | O =>
          if startsWith s sep
          then rev cur :: split_go sep (length sep - 1) [] s'
          else split_go sep 0 (c :: cur) s'
      end
  end.

Definition split (sep s : str) : list str :=
  match sep with
  | [] => map (fun c => [c]) s
  | _ => split_go sep 0 [] s
  end.

(** White space in the sense of [trim] and of the regular-expression
    class [\s]: the ECMAScript WhiteSpace and LineTerminator code points,
    each given by its UTF-8 encoding. *)
Definition white_space : list str :=
  map (map byte_of)
    [ [9]; [10]; [11]; [12]; [13]; [32];
      [194; 160];                                   (* U+00A0 *)
      [225; 154; 128];                              (* U+1680 *)
      [226; 128; 128]; [226; 128; 129]; [226; 128; 130];
      [226; 128; 131]; [226; 128; 132]; [226; 128; 133];
      [226; 128; 134]; [226; 128; 135]; [226; 128; 136];
      [226; 128; 137]; [226; 128; 138];             (* U+2000 .. U+200A *)
      [226; 128; 168]; [226; 128; 169];             (* U+2028, U+2029 *)
      [226; 128; 175];                              (* U+202F *)
      [226; 129; 159];                              (* U+205F *)
      [227; 128; 128];                              (* U+3000 *)
      [239; 187; 191] ].                            (* U+FEFF *)

(** The line terminators, which the regular-expression atom [.] refuses. *)
Definition line_terminators : list str :=
  map (map byte_of) [ [10]; [13]; [226; 128; 168]; [226; 128; 169] ].

(** The rest of [s] after the first member of [encs] that begins it. *)
Fixpoint strip_one (encs : list str) (s : str) : option str :=
  match encs with
  | [] => None
  | e :: encs' =>
      if startsWith s e then Some (skipn (length e) s)
      else strip_one encs' s
  end.

Fixpoint strip_all (encs : list str) (fuel : nat) (s : str) : str :=
  match fuel with
  | O => s
  | S fuel' =>
      match strip_one encs s with
      | Some r => strip_all encs fuel' r
      | None => s
      end
  end.

Definition trimStart (s : str) : str :=
  strip_all white_space (length s) s.

Definition trimEnd (s : str) : str :=
  rev (strip_all (map (@rev ascii) white_space) (length s) (rev s)).

(** [s.trim()] *)
Definition trim (s : str) : str := trimEnd (trimStart s).

(** [xs.find(p)] *)
Definition find {A} (p : A -> bool) (xs : list A) : option A :=
  List.find p xs.

(** [s.length]: the number of UTF-16 code units of the text whose UTF-8
    bytes are [s] (continuation bytes do not count, the lead byte of a
    four-byte sequence counts twice). *)
Definition code_units (c : ascii) : nat :=
  let n := nat_of_ascii c in
  if (128 <=? n) && (n <? 192) then 0
  else if 240 <=? n then 2 else 1.

Definition js_length (s : str) : nat :=
  fold_right (fun c k => code_units c + k) 0 s.

Definition hex_digit (n : nat) : ascii :=
  nth n (lit "0123456789abcdef") "0"%char.

Definition hex_of_byte (b : ascii) : str :=
  let n := nat_of_ascii b in [hex_digit (n / 16); hex_digit (n mod 16)].

(** [buf.toString('hex')] and the ['hex'] output encoding of a cipher
    or of a digest *)
Definition toHex (bs : list ascii) : str := flat_map hex_of_byte bs.

Definition hex_value (c : ascii) : option nat :=
  let n := nat_of_ascii c in
  if (48 <=? n) && (n <=? 57) then Some (n - 48)
  else if (97 <=? n) && (n <=? 102) then Some (n - 87)
  else if (65 <=? n) && (n <=? 70) then Some (n - 55)
  else None.

Definition is_hex_digit (c : ascii) : bool :=
  match hex_value c with Some _ => true | None => false end.

(** A string that consists of hexadecimal digit pairs only. *)
Definition valid_hex (s : str) : bool :=
  forallb is_hex_digit s && Nat.even (length s).

(** The decoder behind [Buffer.from(s, 'hex')] and the ['hex'] input
    encoding of a decipher, on the bytes it is given: it stops, without
    an error, at the first pair that is not two hexadecimal digits, and
    a trailing single digit is dropped. *)
Fixpoint hex_pairs (s : list ascii) : list ascii :=
  match s with
  | h :: l :: r =>
      match hex_value h, hex_value l with
      | Some a, Some b => ascii_of_nat (16 * a + b) :: hex_pairs r
      | _, _ => []
      end
  | _ => []
  end.

(** What that decoder is given for a string: of every UTF-16 code unit
    the low byte only, so that a character outside ASCII is read as the
    character of its low byte (U+0131 as ["1"], U+0166 as ["f"]).
    [units_at b r] is the low byte of the code units of the character
    whose UTF-8 encoding begins with [b] and goes on in [r]: one unit
    for a sequence of up to three bytes, the two surrogates for one of
    four bytes, none for a continuation byte, which belongs to the
    character before it. *)
Definition continuation (i : nat) (r : str) : N :=
  (N_of_ascii (nth i r (byte_of 0)) mod 64)%N.

Definition units_at (b : ascii) (r : str) : list ascii :=
  let n := N_of_ascii b in
  let c0 := continuation 0 r in
  let c1 := continuation 1 r in
  let c2 := continuation 2 r in
  if (n <? 128)%N then [b]
  else if (n <? 192)%N then []
  else if (n <? 224)%N then [ascii_of_N ((n mod 4) * 64 + c0)%N]
  else if (n <? 240)%N then [ascii_of_N ((c0 mod 4) * 64 + c1)%N]
  else
    let v := ((n mod 8) * 262144 + c0 * 4096 + c1 * 64 + c2 - 65536)%N in
    [ascii_of_N ((v / 1024) mod 256)%N; ascii_of_N (v mod 256)%N].

Fixpoint low_bytes (s : str) : list ascii :=
  match s with
  | [] => []
  | b :: r => units_at b r ++ low_bytes r
  end.

(** [Buffer.from(s, 'hex')] *)
Definition fromHex (s : str) : list ascii := hex_pairs (low_bytes s).

Definition xor_ascii (a b : ascii) : ascii :=
  match a, b with
  | Ascii a0 a1 a2 a3 a4 a5 a6 a7, Ascii b0 b1 b2 b3 b4 b5 b6 b7 =>
      Ascii (xorb a0 b0) (xorb a1 b1) (xorb a2 b2) (xorb a3 b3)
            (xorb a4 b4) (xorb a5 b5) (xorb a6 b6) (xorb a7 b7)
  end.

Definition xor_block (a b : list ascii) : list ascii :=
  map (fun p => xor_ascii (fst p) (snd p)) (combine a b).

(** A thrown [Error]: its message and the [status] property that
    [sendMessage] attaches to some of them. *)
Record Error := mkError { message : str; status : option Z }.

Definition error (msg : string) : Error := mkError (lit msg) None.

(** A number inside a template literal. *)
Definition decimal (z : Z) : str :=
  lit (NilEmpty.string_of_int (Z.to_int z)).

(** The outcome of a computation that may throw. *)
Inductive result (A : Type) : Type :=
| Ok (a : A)
| Throw (e : Error).

Arguments Ok {A} a.
Arguments Throw {A} e.

Definition bind {A B} (r : result A) (k : A -> result B) : result B :=
  match r with
  | Ok a => k a
  | Throw e => Throw e
  end.

Definition throws {A} (r : result A) : Prop :=
  exists e, r = Throw e.

Definition is_ok {A} (r : result A) : bool :=
  match r with Ok _ => true | Throw _ => false end.

End Js.

Notation "x <- c ;; k" := (Js.bind c (fun x => k))
  (at level 61, c at next level, right associativity).

Import Js.


(** ** AES-256 (FIPS 197) *)

Module Aes.

Definition zero : ascii := byte_of 0.
Definition one : ascii := byte_of 1.

(** Multiplication by [x] in GF(2^8) modulo [x^8 + x^4 + x^3 + x + 1]. *)
Definition xtime (a : ascii) : ascii :=
  match a with
  | Ascii b0 b1 b2 b3 b4 b5 b6 b7 =>
      Ascii b7 (xorb b0 b7) b1 (xorb b2 b7) (xorb b3 b7) b4 b5 b6
  end.

Definition scale (b : bool) (a : ascii) : ascii := if b then a else zero.

Definition gf_mul (a b : ascii) : ascii :=
  match b with
  | Ascii b0 b1 b2 b3 b4 b5 b6 b7 =>
      let t1 := xtime a in let t2 := xtime t1 in let t3 := xtime t2 in
      let t4 := xtime t3 in let t5 := xtime t4 in let t6 := xtime t5 in
      let t7 := xtime t6 in
      fold_right xor_ascii zero
        [scale b0 a; scale b1 t1; scale b2 t2; scale b3 t3;
         scale b4 t4; scale b5 t5; scale b6 t6; scale b7 t7]
  end.

(** The inverse in GF(2^8) (and 0 for 0): the 254th power. *)
Definition gf_inv (a : ascii) : ascii :=
  let a2 := gf_mul a a in let a4 := gf_mul a2 a2 in
  let a8 := gf_mul a4 a4 in let a16 := gf_mul a8 a8 in
  let a32 := gf_mul a16 a16 in let a64 := gf_mul a32 a32 in
  let a128 := gf_mul a64 a64 in
  fold_right gf_mul one [a128; a64; a32; a16; a8; a4; a2].

Definition affine (a : ascii) : ascii :=
  match a with
  | Ascii b0 b1 b2 b3 b4 b5 b6 b7 =>
      Ascii (negb (xorb b0 (xorb b4 (xorb b5 (xorb b6 b7)))))
            (negb (xorb b1 (xorb b5 (xorb b6 (xorb b7 b0)))))
            (xorb b2 (xorb b6 (xorb b7 (xorb b0 b1))))
            (xorb b3 (xorb b7 (xorb b0 (xorb b1 b2))))
            (xorb b4 (xorb b0 (xorb b1 (xorb b2 b3))))
            (negb (xorb b5 (xorb b1 (xorb b2 (xorb b3 b4)))))
            (negb (xorb b6 (xorb b2 (xorb b3 (xorb b4 b5)))))
            (xorb b7 (xorb b3 (xorb b4 (xorb b5 b6))))
  end.

Definition inv_affine (a : ascii) : ascii :=
  match a with
  | Ascii b0 b1 b2 b3 b4 b5 b6 b7 =>
      Ascii (negb (xorb b2 (xorb b5 b7)))
            (xorb b3 (xorb b6 b0))
            (negb (xorb b4 (xorb b7 b1)))
            (xorb b5 (xorb b0 b2))
            (xorb b6 (xorb b1 b3))
            (xorb b7 (xorb b2 b4))
            (xorb b0 (xorb b3 b5))
            (xorb b1 (xorb b4 b6))
  end.

Definition all_bytes : list ascii := map ascii_of_nat (seq 0 256).

Definition sbox_table : list ascii :=
  Eval vm_compute in map (fun a => affine (gf_inv a)) all_bytes.

Definition inv_sbox_table : list ascii :=
  Eval vm_compute in map (fun a => gf_inv (inv_affine a)) all_bytes.

Definition sbox (a : ascii) : ascii := nth (nat_of_ascii a) sbox_table zero.
Definition inv_sbox (a : ascii) : ascii :=
  nth (nat_of_ascii a) inv_sbox_table zero.

Definition sub_bytes : list ascii -> list ascii := map sbox.
Definition inv_sub_bytes : list ascii -> list ascii := map inv_sbox.

(** The state is the block itself, column after column. *)
Definition shift_rows (s : list ascii) : list ascii :=
  match s with
  | [b0; b1; b2; b3; b4; b5; b6; b7; b8; b9; b10; b11; b12; b13; b14; b15] =>
      [b0; b5; b10; b15; b4; b9; b14; b3; b8; b13; b2; b7; b12; b1; b6; b11]
  | _ => s
  end.

Definition inv_shift_rows (s : list ascii) : list ascii :=
  match s with
  | [b0; b1; b2; b3; b4; b5; b6; b7; b8; b9; b10; b11; b12; b13; b14; b15] =>
      [b0; b13; b10; b7; b4; b1; b14; b11; b8; b5; b2; b15; b12; b9; b6; b3]
  | _ => s
  end.

Definition mul2 := xtime.
Definition mul3 (a : ascii) := xor_ascii (xtime a) a.
Definition mul4 (a : ascii) := xtime (xtime a).
Definition mul8 (a : ascii) := xtime (mul4 a).
Definition mul9 (a : ascii) := xor_ascii (mul8 a) a.
Definition mul11 (a : ascii) := xor_ascii (mul8 a) (xor_ascii (mul2 a) a).
Definition mul13 (a : ascii) := xor_ascii (mul8 a) (xor_ascii (mul4 a) a).
Definition mul14 (a : ascii) :=
  xor_ascii (mul8 a) (xor_ascii (mul4 a) (mul2 a)).

Definition xor4 (a b c d : ascii) : ascii :=
  xor_ascii a (xor_ascii b (xor_ascii c d)).

Definition mix_column (a0 a1 a2 a3 : ascii) : list ascii :=
  [ xor4 (mul2 a0) (mul3 a1) a2 a3;
    xor4 a0 (mul2 a1) (mul3 a2) a3;
    xor4 a0 a1 (mul2 a2) (mul3 a3);
    xor4 (mul3 a0) a1 a2 (mul2 a3) ].

Definition inv_mix_column (a0 a1 a2 a3 : ascii) : list ascii :=
  [ xor4 (mul14 a0) (mul11 a1) (mul13 a2) (mul9 a3);
    xor4 (mul9 a0) (mul14 a1) (mul11 a2) (mul13 a3);
    xor4 (mul13 a0) (mul9 a1) (mul14 a2) (mul11 a3);
    xor4 (mul11 a0) (mul13 a1) (mul9 a2) (mul14 a3) ].

Fixpoint columns (f : ascii -> ascii -> ascii -> ascii -> list ascii)
    (s : list ascii) : list ascii :=
  match s with
  | a0 :: a1 :: a2 :: a3 :: s' => f a0 a1 a2 a3 ++ columns f s'
  | _ => s
  end.

Definition mix_columns := columns mix_column.
Definition inv_mix_columns := columns inv_mix_column.

Definition add_round_key (s k : list ascii) : list ascii := xor_block s k.

(** Key expansion for a 256-bit key: 60 words of four bytes. *)
Definition sub_word : list ascii -> list ascii := map sbox.

Definition rot_word (w : list ascii) : list ascii :=
  match w with
  | a :: r => r ++ [a]
  | [] => []
  end.

Fixpoint chunks (count size : nat) (l : list ascii) : list (list ascii) :=
  match count with
  | O => []
  | S count' => firstn size l :: chunks count' size (skipn size l)
  end.

Fixpoint expand (count i : nat) (rcon : ascii) (ws : list (list ascii))
  : list (list ascii) :=
  match count with
  | O => ws
  | S count' =>
      let temp := last ws [] in
      let '(temp, rcon') :=
        if i mod 8 =? 0
        then (xor_block (sub_word (rot_word temp)) [rcon; zero; zero; zero],
              xtime rcon)
        else if i mod 8 =? 4 then (sub_word temp, rcon)
        else (temp, rcon) in
      expand count' (S i) rcon' (ws ++ [xor_block (nth (i - 8) ws []) temp])
  end.

Definition key_expansion (key : list ascii) : list (list ascii) :=
  expand 52 8 one (chunks 8 4 key).

Definition round_keys (key : list ascii) : list (list ascii) :=
  let w := key_expansion key in
  map (fun r => concat (firstn 4 (skipn (4 * r) w))) (seq 0 15).

Definition round (k s : list ascii) : list ascii :=
  add_round_key (mix_columns (shift_rows (sub_bytes s))) k.

Definition final_round (k s : list ascii) : list ascii :=
  add_round_key (shift_rows (sub_bytes s)) k.

Fixpoint rounds (ks : list (list ascii)) (s : list ascii) : list ascii :=
  match ks with
  | [] => s
  | [k] => final_round k s
  | k :: ks' => rounds ks' (round k s)
  end.

Definition inv_round (k s : list ascii) : list ascii :=
  inv_sub_bytes (inv_shift_rows (inv_mix_columns (add_round_key s k))).

Definition inv_final_round (k s : list ascii) : list ascii :=
  inv_sub_bytes (inv_shift_rows (add_round_key s k)).

Fixpoint inv_rounds (ks : list (list ascii)) (s : list ascii) : list ascii :=
  match ks with
  | [] => s
  | [k] => inv_final_round k s
  | k :: ks' => inv_round k (inv_rounds ks' s)
  end.

Definition encrypt_block (key b : list ascii) : list ascii :=
  match round_keys key with
  | k0 :: ks => rounds ks (add_round_key b k0)
  | [] => b
  end.

Definition decrypt_block (key c : list ascii) : list ascii :=
  match round_keys key with
  | k0 :: ks => add_round_key (inv_rounds ks c) k0
  | [] => c
  end.

End Aes.

(** ** SHA-256 (FIPS 180-4) and HMAC (RFC 2104) *)

Module Sha256.

Local Open Scope N_scope.

Definition word := N.

Definition wrap (x : N) : word := x mod 4294967296.
Definition add (x y : word) : word := wrap (x + y).
Definition rotr (n : N) (x : word) : word :=
  wrap (N.lor (N.shiftr x n) (N.shiftl x (32 - n))).
Definition shr (n : N) (x : word) : word := N.shiftr x n.
Definition complement (x : word) : word := N.lxor x 4294967295.

Definition Ch (x y z : word) : word :=
  N.lxor (N.land x y) (N.land (complement x) z).
Definition Maj (x y z : word) : word :=
  N.lxor (N.land x y) (N.lxor (N.land x z) (N.land y z)).
Definition Sigma0 (x : word) : word :=
  N.lxor (rotr 2 x) (N.lxor (rotr 13 x) (rotr 22 x)).
Definition Sigma1 (x : word) : word :=
  N.lxor (rotr 6 x) (N.lxor (rotr 11 x) (rotr 25 x)).
Definition sigma0 (x : word) : word :=
  N.lxor (rotr 7 x) (N.lxor (rotr 18 x) (shr 3 x)).
Definition sigma1 (x : word) : word :=
  N.lxor (rotr 17 x) (N.lxor (rotr 19 x) (shr 10 x)).

(** The constants are defined as the standard defines them: the first
    32 bits of the fractional parts of the cube roots (for [K]) and of
    the square roots (for [H0]) of the first primes. *)
Definition is_prime (n : nat) : bool :=
  (2 <=? n)%nat
  && forallb (fun d => negb (n mod d =? 0)%nat) (seq 2 (Nat.sqrt n - 1)).

Definition primes : list N :=
  Eval vm_compute in map N.of_nat (filter is_prime (seq 2 310)).

(** The integer part of the cube root of a number below [2^108]. *)
Definition cube_root (n : N) : N :=
  fold_left (fun r b => let r' := r + 2 ^ b in
                        if r' * r' * r' <=? n then r' else r)
            (rev (map N.of_nat (seq 0 36))) 0.

Definition K : list word :=
  Eval vm_compute in map (fun p => wrap (cube_root (p * 2 ^ 96))) primes.

Definition root_fraction (i : nat) : word :=
  wrap (N.sqrt (nth i primes 0 * 2 ^ 64)).

(** The eight working variables, and the hash value. *)
Record state := State {
  sa : word; sb : word; sc : word; sd : word;
  se : word; sf : word; sg : word; sh : word
}.

Definition H0 : state :=
  Eval vm_compute in
    State (root_fraction 0) (root_fraction 1) (root_fraction 2)
          (root_fraction 3) (root_fraction 4) (root_fraction 5)
          (root_fraction 6) (root_fraction 7).

Definition step (s : state) (kw : word * word) : state :=
  let T1 := add (sh s) (add (Sigma1 (se s))
              (add (Ch (se s) (sf s) (sg s)) (add (fst kw) (snd kw)))) in
  let T2 := add (Sigma0 (sa s)) (Maj (sa s) (sb s) (sc s)) in
  State (add T1 T2) (sa s) (sb s) (sc s) (add (sd s) T1) (se s) (sf s) (sg s).

(** The message schedule; [ws] holds the words so far, latest first. *)
Fixpoint schedule (count : nat) (ws : list word) : list word :=
  match count with
  | O => rev ws
  | S count' =>
      let w := add (add (sigma1 (nth 1 ws 0)) (nth 6 ws 0))
                   (add (sigma0 (nth 14 ws 0)) (nth 15 ws 0)) in
      schedule count' (w :: ws)
  end.

Fixpoint words_of_bytes (bs : list ascii) : list word :=
  match bs with
  | b0 :: b1 :: b2 :: b3 :: bs' =>
      (N_of_ascii b0 * 16777216 + N_of_ascii b1 * 65536
       + N_of_ascii b2 * 256 + N_of_ascii b3) :: words_of_bytes bs'
  | _ => []
  end.

Definition bytes_of_word (w : word) : list ascii :=
  [ ascii_of_N (w / 16777216); ascii_of_N ((w / 65536) mod 256);
    ascii_of_N ((w / 256) mod 256); ascii_of_N (w mod 256) ].

Definition compress (h : state) (block : list ascii) : state :=
  let w := schedule 48 (rev (words_of_bytes block)) in
  let s := fold_left step (combine K w) h in
  State (add (sa h) (sa s)) (add (sb h) (sb s)) (add (sc h) (sc s))
        (add (sd h) (sd s)) (add (se h) (se s)) (add (sf h) (sf s))
        (add (sg h) (sg s)) (add (sh h) (sh s)).

Definition zero : ascii := ascii_of_nat 0.

(** The message followed by the bit 1, zeros, and its length in bits on
    eight bytes, a whole number of 64-byte blocks in all. *)
Definition pad (m : list ascii) : list ascii :=
  let l := length m in
  let k := ((64 - (l + 9) mod 64) mod 64)%nat in
  let bits := N.of_nat l * 8 in
  m ++ ascii_of_nat 128 :: repeat zero k
    ++ bytes_of_word (wrap (bits / 4294967296)) ++ bytes_of_word (wrap bits).

Fixpoint blocks (count : nat) (h : state) (m : list ascii) : state :=
  match count with
  | O => h
  | S count' => blocks count' (compress h (firstn 64 m)) (skipn 64 m)
  end.

Definition digest (s : state) : list ascii :=
  bytes_of_word (sa s) ++ bytes_of_word (sb s) ++ bytes_of_word (sc s)
  ++ bytes_of_word (sd s) ++ bytes_of_word (se s) ++ bytes_of_word (sf s)
  ++ bytes_of_word (sg s) ++ bytes_of_word (sh s).

Definition sha256 (m : list ascii) : list ascii :=
  let p := pad m in
  digest (blocks (length p / 64)%nat H0 p).

(** HMAC (RFC 2104) with SHA-256. *)
Definition hmac (key m : list ascii) : list ascii :=
  let key := if (64 <? length key)%nat then sha256 key else key in
  let key := key ++ repeat zero (64 - length key)%nat in
  let ipad := map (xor_ascii (ascii_of_nat 54)) key in
  let opad := map (xor_ascii (ascii_of_nat 92)) key in
  sha256 (opad ++ sha256 (ipad ++ m)).

End Sha256.

(** ** [src/lib/encryption.ts] *)

Module Encryption.

(** *** What the code takes from Node's [crypto] *)

Definition block_size : nat := 16.
Definition key_size : nat := 32.

(** PKCS#7 padding, which the cipher applies by default: between one and
    sixteen bytes, each equal to their number. *)
Definition pkcs7_pad (m : list ascii) : list ascii :=
  let n := block_size - length m mod block_size in
  m ++ repeat (ascii_of_nat n) n.

Definition pkcs7_unpad (m : list ascii) : option (list ascii) :=
  match rev m with
  | [] => None
  | p :: _ =>
      let n := nat_of_ascii p in
      if (1 <=? n) && (n <=? block_size) && (n <=? length m)
         && forallb (fun c => if ascii_dec c p then true else false)
                    (skipn (length m - n) m)
      then Some (firstn (length m - n) m)
      else None
  end.

(** Cipher block chaining over [n] blocks, [prev] being the previous
    ciphertext block (the initialization vector at first). *)
Fixpoint cbc_encrypt (key : list ascii) (n : nat) (prev m : list ascii)
  : list ascii :=
  match n with
  | O => []
  | S n' =>
      let c := Aes.encrypt_block key (xor_block (firstn block_size m) prev) in
      c ++ cbc_encrypt key n' c (skipn block_size m)
  end.

Fixpoint cbc_decrypt (key : list ascii) (n : nat) (prev ct : list ascii)
  : list ascii :=
  match n with
  | O => []
  | S n' =>
      let c := firstn block_size ct in
      xor_block (Aes.decrypt_block key c) prev
        ++ cbc_decrypt key n' c (skipn block_size ct)
  end.

(** [crypto.createCipheriv('aes-256-cbc', key, iv)] and
    [crypto.createDecipheriv]: both refuse an initialization vector that
    is not 16 bytes and a key that is not 32 bytes. *)
Definition createCipheriv (key iv : list ascii) : result unit :=
  if negb (length iv =? block_size)
  then Throw (error "Invalid initialization vector")
  else if negb (length key =? key_size)
  then Throw (error "Invalid key length")
  else Ok tt.

(** [cipher.update(text, 'utf8', 'hex') + cipher.final('hex')] *)
Definition cipher_run (key iv : list ascii) (text : str) : str :=
  let m := pkcs7_pad text in
  toHex (cbc_encrypt key (length m / block_size) iv m).

(** [decipher.update(encrypted, 'hex', 'utf8') + decipher.final('utf8')]:
    [update] refuses a hexadecimal string of odd length and otherwise
    decodes it as [Buffer.from] does; [final] fails on an input that is
    empty or not a whole number of blocks, and on a wrong padding.  The
    decoded bytes are returned as they are (for bytes that are not UTF-8
    the library substitutes U+FFFD, which is not modelled). *)
Definition decipher_run (key iv : list ascii) (encrypted : str)
  : result str :=
  if Nat.odd (js_length encrypted)
  then Throw (mkError
                (lit "The argument 'encoding' is invalid for data of length "
                   ++ decimal (Z.of_nat (js_length encrypted))
                   ++ lit ". Received 'hex'")
                None)
  else
    let ct := fromHex encrypted in
    if (length ct =? 0) || negb (length ct mod block_size =? 0)
    then Throw (error "wrong final block length")
    else
      match pkcs7_unpad (cbc_decrypt key (length ct / block_size) iv ct) with
      | Some text => Ok text
      | None => Throw (error "bad decrypt")
      end.

(** *** The module itself *)

(** [getEncryptionKey], reading [process.env.ENCRYPTION_KEY] *)
Definition getEncryptionKey (ENCRYPTION_KEY : option str)
  : result (list ascii) :=
  match ENCRYPTION_KEY with
  | None => Throw (error "ENCRYPTION_KEY environment variable is required")
  | Some k =>
      if falsy k
      then Throw (error "ENCRYPTION_KEY environment variable is required")
      else if negb (js_length k =? 64)
      then Throw (error "ENCRYPTION_KEY must be 32 bytes (64 hex characters)")
      else Ok (fromHex k)
  end.

(** [encrypt(text)]; [iv] is the outcome of [crypto.randomBytes(16)]. *)
Definition encrypt (ENCRYPTION_KEY : option str) (iv : list ascii)
    (text : str) : result str :=
  key <- getEncryptionKey ENCRYPTION_KEY ;;
  _ <- createCipheriv key iv ;;
  Ok (toHex iv ++ lit ":" ++ cipher_run key iv text).

(** [decrypt(encryptedText)] *)
Definition decrypt (ENCRYPTION_KEY : option str) (encryptedText : str)
  : result str :=
  match split (lit ":") encryptedText with
  | [p0; p1] =>
      let iv := fromHex p0 in
      let encrypted := p1 in
      key <- getEncryptionKey ENCRYPTION_KEY ;;
      _ <- createCipheriv key iv ;;
      decipher_run key iv encrypted
  | _ => Throw (error "Invalid encrypted text format")
  end.

(** A 256-bit key is configured: 64 hexadecimal digits. *)
Definition valid_key (ENCRYPTION_KEY : option str) : bool :=
  match ENCRYPTION_KEY with
  | Some k => (length k =? 64) && forallb is_hex_digit k
  | None => false
  end.

End Encryption.

(** ** [src/lib/facebook.ts] *)

Module Facebook.

(** *** [verifyWebhookSignature] *)

(** [crypto.timingSafeEqual(a, b)]: throws when the lengths differ. *)
Definition timingSafeEqual (a b : list ascii) : result bool :=
  if negb (length a =? length b)
  then Throw (error "Input buffers must have the same byte length")
  else Ok (str_eqb a b).

(** [crypto.createHmac('sha256', secret).update(body).digest('hex')] *)
Definition hmac_sha256_hex (secret body : str) : str :=
  toHex (Sha256.hmac secret body).

Definition verifyWebhookSignature (signature : option str)
    (body appSecret : str) : bool :=
  match signature with
  | None => false
  | Some signature =>
      if falsy signature then false
      else
        (* Extract hash from "sha256=<hash>" format *)
        match nth_error (split (lit "sha256=") signature) 1 with
        | None => false
        | Some signatureHash =>
            if falsy signatureHash then false
            else
              let expectedHash := hmac_sha256_hex appSecret body in
              match timingSafeEqual signatureHash expectedHash with
              | Ok b => b
              | Throw _ => false
              end
        end
  end.

(** *** [sendMessage] *)

(** What [response.json()] gives for a body that parses: [null], or a
    value whose properties can be read. *)
Inductive ResponseData := JsonNull | JsonValue.

(** A response of the Send API: its status, the text that
    [response.text()] gives, which the code reads when the response is
    not [ok], and the outcome of [response.json()], which it reads when
    it is. *)
Record Response := {
  status : Z;
  body : str;
  json : result ResponseData
}.

(** [response.ok] *)
Definition ok (r : Response) : bool :=
  (200 <=? status r)%Z && (status r <=? 299)%Z.

(** The outcome of the call of [fetch] of one attempt.  [Rejected]
    stands for a failure below the level of HTTP ([fetch] rejects, or
    the text of an error response cannot be read): the error that the
    [try] block throws then has no [status]. *)
Inductive FetchResult :=
| Fulfilled (r : Response)
| Rejected (reason : str).

(** What a run of [sendMessage] does to the outside. *)
Inductive NetEvent :=
| Fetch (attempt : nat) (pageAccessToken recipientId messageText : str)
| Sleep (ms : Z).

Definition api_error (r : Response) : Error :=
  mkError (lit "Facebook Send API error (" ++ decimal (status r)
             ++ lit "): " ++ body r)
          (Some (status r)).

(** The [try] block of one attempt: after a response that is [ok] the
    body is parsed and two properties of the result are read for the
    console, which throws when the body does not parse or is [null]. *)
Definition attempt_once (f : FetchResult) : result unit :=
  match f with
  | Rejected reason => Throw (mkError reason None)
  | Fulfilled response =>
      if negb (ok response) then Throw (api_error response)
      else
        responseData <- json response ;;
        match responseData with
        | JsonNull => Throw (error "Cannot read properties of null")
        | JsonValue => Ok tt
        end
  end.

(** [(error as any).status >= 400 && (error as any).status < 500] *)
Definition is_client_error (e : Error) : bool :=
  match Js.status e with
  | Some s => (400 <=? s)%Z && (s <? 500)%Z
  | None => false
  end.

Section Send.

(** The outcome of the [n]-th call of [fetch] (counted from 0). *)
Variable fetch : nat -> FetchResult.
Variables pageAccessToken recipientId messageText : str.

(** The iterations of [for (attempt = ...; attempt <= maxRetries;
    attempt++)] that are still to run, [remaining] in number, followed by
    the final [throw]. *)
Fixpoint send_loop (maxRetries remaining attempt : nat)
    (lastError : option Error) : list NetEvent * result unit :=
  match remaining with
  | O =>
      ([], Throw (match lastError with
                  | Some e => e
                  | None => error "Failed to send message after all retries"
                  end))
  | S remaining' =>
      let call := Fetch attempt pageAccessToken recipientId messageText in
      match attempt_once (fetch attempt) with
      | Ok _ => ([call], Ok tt)
      | Throw e =>
          if is_client_error e then ([call], Throw e)
          else
            let backoff :=
              if attempt <? maxRetries
              then [Sleep (2 ^ Z.of_nat attempt * 1000)]
              else [] in
            let (evs, r) :=
              send_loop maxRetries remaining' (S attempt) (Some e) in
            (call :: backoff ++ evs, r)
      end
  end.

Definition maxRetries : nat := 1.

Definition sendMessage : list NetEvent * result unit :=
  send_loop maxRetries (maxRetries + 1) 0 None.

End Send.

(** The number of calls of [fetch] in a run. *)
Definition calls (evs : list NetEvent) : nat :=
  length (filter (fun e => match e with Fetch _ _ _ _ => true
                                       | Sleep _ => false end) evs).

Definition sleeps (evs : list NetEvent) : list Z :=
  flat_map (fun e => match e with Sleep ms => [ms] | _ => [] end) evs.

End Facebook.

(** ** [src/lib/chatbot-utils.ts] *)

Module ChatbotUtils.

Record ProductContext := { name : str; price : str }.

Inductive ResponseType := normal | out_of_scope | alternative.

Record ParsedResponse := {
  type : ResponseType;
  text : str;
  suggestedProduct : option str
}.

Definition getOutOfScopeMessage : str :=
  lit "I can only answer questions about our products. "
  ++ lit "For other inquiries, please contact the shop owner directly.".

Definition getAlternativeSuggestionMessage (product : ProductContext) : str :=
  lit "I don't have that exact item, but we have " ++ name product
    ++ lit " for " ++ price product ++ lit ". Would that work for you?".

Definition OUT_OF_SCOPE : str := lit "OUT_OF_SCOPE".
Definition ALTERNATIVE : str := lit "ALTERNATIVE:".

(** The atom [(.+)]: the longest run of characters up to a line
    terminator, which has to be non-empty. *)
Fixpoint dot_run (s : str) : str :=
  match s with
  | [] => []
  | c :: s' =>
      match strip_one line_terminators s with
      | Some _ => []
      | None => c :: dot_run s'
      end
  end.

Definition dot_plus (s : str) : option str :=
  match dot_run s with
  | [] => None
  | g => Some g
  end.

(** [\s*(.+)] on [s]: the white-space run is greedy and gives characters
    back when the group cannot match after it. *)
Fixpoint ws_star_group (fuel : nat) (s : str) : option str :=
  match fuel with
  | O => dot_plus s
  | S fuel' =>
      match strip_one white_space s with
      | Some r =>
          match ws_star_group fuel' r with
          | Some g => Some g
          | None => dot_plus s
          end
      | None => dot_plus s
      end
  end.

(** Group 1 of [s.match(/^ALTERNATIVE:\s*(.+)/)], if the expression
    matches. *)
Definition match_alternative (s : str) : option str :=
  if startsWith s ALTERNATIVE
  then let r := skipn (length ALTERNATIVE) s in ws_star_group (length r) r
  else None.

Definition name_is (n : str) (p : ProductContext) : bool :=
  str_eqb (name p) n.

Definition parseGeminiResponse (aiResponse : str)
    (products : list ProductContext) : result ParsedResponse :=
  if falsy aiResponse || (length (trim aiResponse) =? 0)
  then Throw (error "AI response cannot be empty")
  else
    let trimmedResponse := trim aiResponse in
    if startsWith trimmedResponse OUT_OF_SCOPE
    then Ok {| type := out_of_scope;
               text := getOutOfScopeMessage;
               suggestedProduct := None |}
    else
      let normal_response :=
        Ok {| type := normal;
              text := trimmedResponse;
              suggestedProduct := None |} in
      if startsWith trimmedResponse ALTERNATIVE
      then
        match match_alternative trimmedResponse with
        | Some group =>
            if falsy group then normal_response
            else
              let suggestedProductName := trim group in
              match find (name_is suggestedProductName) products with
              | Some product =>
                  Ok {| type := alternative;
                        text := getAlternativeSuggestionMessage product;
                        suggestedProduct := Some suggestedProductName |}
              | None => normal_response
              end
        | None => normal_response
        end
      else normal_response.

End ChatbotUtils.

(** ** [src/app/api/webhook/messenger/route.ts] *)

Module Webhook.

Import ChatbotUtils.

(** The payload as [JSON.parse] delivers it.  A property that the code
    dereferences or iterates is optional here: reading through a missing
    one throws a [TypeError]. *)
Record Message := { text : option str }.

Record MessengerEvent := {
  sender : option str;            (* [event.sender.id] *)
  message : option Message
}.

Record MessengerWebhookEntry := {
  id : str;
  messaging : option (list MessengerEvent)
}.

Record MessengerWebhookPayload := {
  object : option str;
  entry : option (list MessengerWebhookEntry)
}.

Record PageConnection := { user_id : str; page_access_token : str }.

(** An entry of [messageLog] (the time stamp is left out). *)
Record LoggedMessage := {
  userId : str;
  pageId : str;
  senderId : str;
  messageText : str
}.

Record NextRequest := {
  request_text : result str;             (* [request.text()] *)
  x_hub_signature_256 : option str       (* [request.headers.get(...)] *)
}.

(** [NextResponse.json({ status: ... }, { status })] *)
Record NextResponse := { status : Z; json_status : str }.

(** The surroundings of the route: configuration, the JSON parser, the
    database client, and the outcomes of the two imported functions
    that reach out to the network (the route tests replace the same
    two).  Each answers a given call in one way during a request. *)
Record Env := {
  FACEBOOK_APP_SECRET : option str;
  ENCRYPTION_KEY : option str;
  JSON_parse : str -> result MessengerWebhookPayload;
  findUnique : str -> result (option PageConnection);
  findMany : str -> result (list ProductContext);
  generateChatbotResponse : list ProductContext -> str -> result str;
  sendMessage : str -> str -> str -> result unit
}.

(** What a run of the handler does, in order. *)
Inductive Effect :=
| Verify (valid : bool)
| Parse
| FindUnique (pageId : str)
| LogPush (m : LoggedMessage)
| FindMany (userId : str)
| Generate (products : list ProductContext) (messageText : str)
| Decrypt (page_access_token : str)
| Send (token recipientId text : str).

(** Computations that leave a trace of effects and may throw. *)
Definition io (A : Type) : Type := list Effect * result A.

Definition ret {A} (a : A) : io A := ([], Ok a).

Definition io_bind {A B} (m : io A) (k : A -> io B) : io B :=
  match m with
  | (t, Ok a) => let (t', r) := k a in (t ++ t', r)
  | (t, Throw e) => (t, Throw e)
  end.

Definition perform {A} (ev : Effect) (r : result A) : io A := ([ev], r).

Definition emit (ev : Effect) : io unit := ([ev], Ok tt).

Definition lift {A} (r : result A) : io A := ([], r).

(** [try { m } catch (e) { handler e }] *)
Definition try_catch {A} (m : io A) (handler : Error -> io A) : io A :=
  match m with
  | (t, Ok a) => (t, Ok a)
  | (t, Throw e) => let (t', r) := handler e in (t ++ t', r)
  end.

Declare Scope io_scope.
Delimit Scope io_scope with io.
Notation "x <~ c ;; k" := (io_bind c (fun x => k))
  (at level 61, c at next level, right associativity) : io_scope.

(** Reading a property of a value that may be [undefined]. *)
Definition deref {A} (v : option A) : result A :=
  match v with
  | Some a => Ok a
  | None => Throw (error "Cannot read properties of undefined")
  end.

(** [NextResponse.json({ status: 'ok' }, { status: 200 })] *)
Definition ack : NextResponse := {| status := 200; json_status := lit "ok" |}.

Section Route.

Variable env : Env.

Local Open Scope io_scope.

(** The [try] block of [processMessagingEvent]. *)
Definition chatbot (pageConnection : PageConnection)
    (senderId messageText : str) : io unit :=
  let userId := user_id pageConnection in
  products <~ perform (FindMany userId) (findMany env userId) ;;
  let productContext :=
    map (fun p => {| name := name p; price := price p |}) products in
  aiResponse <~ perform (Generate productContext messageText)
                  (generateChatbotResponse env productContext messageText) ;;
  decryptedToken <~ perform (Decrypt (page_access_token pageConnection))
                      (Encryption.decrypt (ENCRYPTION_KEY env)
                         (page_access_token pageConnection)) ;;
  perform (Send decryptedToken senderId aiResponse)
          (sendMessage env decryptedToken senderId aiResponse).

Definition processMessagingEvent (event : MessengerEvent) (pageId : str)
  : io unit :=
  match message event with
  | None => ret tt
  | Some m =>
      if falsy_opt (text m) then ret tt
      else
        senderId <~ lift (deref (sender event)) ;;
        messageText <~ lift (deref (text m)) ;;
        pageConnection <~ perform (FindUnique pageId) (findUnique env pageId) ;;
        match pageConnection with
        | None => ret tt
        | Some pageConnection =>
            let userId := user_id pageConnection in
            _ <~ emit (LogPush {| userId := userId; pageId := pageId;
                                  senderId := senderId;
                                  messageText := messageText |}) ;;
            try_catch (chatbot pageConnection senderId messageText)
                      (fun _ => ret tt)
        end
  end.

(** [for (const event of entry.messaging)] *)
Fixpoint for_events (events : list MessengerEvent) (pageId : str)
  : io unit :=
  match events with
  | [] => ret tt
  | event :: events' =>
      _ <~ processMessagingEvent event pageId ;;
      for_events events' pageId
  end.

(** [for (const entry of payload.entry)] *)
Fixpoint for_entries (entries : list MessengerWebhookEntry) : io unit :=
  match entries with
  | [] => ret tt
  | e :: entries' =>
      let pageId := id e in
      events <~ lift (deref (messaging e)) ;;
      _ <~ for_events events pageId ;;
      for_entries entries'
  end.

(** The [try] block of [POST]. *)
Definition POST_try (request : NextRequest) : io NextResponse :=
  body <~ lift (request_text request) ;;
  let signature := x_hub_signature_256 request in
  match FACEBOOK_APP_SECRET env with
  | None => ret ack
  | Some appSecret =>
      if falsy appSecret then ret ack
      else
        let valid :=
          Facebook.verifyWebhookSignature signature body appSecret in
        _ <~ emit (Verify valid) ;;
        if negb valid then ret ack
        else
          payload <~ perform Parse (JSON_parse env body) ;;
          if match object payload with
             | Some o => negb (str_eqb o (lit "page"))
             | None => true
             end
          then ret ack
          else
            entries <~ lift (deref (entry payload)) ;;
            _ <~ for_entries entries ;;
            ret ack
  end.

Definition POST (request : NextRequest) : io NextResponse :=
  try_catch (POST_try request) (fun _ => ret ack).

End Route.

(** [new NextResponse(body, { status })] *)
Record TextResponse := { http_status : Z; body_text : str }.

(** [GET], the verification request of the platform: the three query
    parameters as [searchParams.get] gives them ([null] when absent) and
    [process.env.WEBHOOK_VERIFY_TOKEN]. *)
Definition GET (WEBHOOK_VERIFY_TOKEN : option str)
    (hub_mode hub_verify_token hub_challenge : option str) : TextResponse :=
  match hub_mode, hub_verify_token, hub_challenge with
  | Some mode, Some token, Some challenge =>
      if falsy mode || falsy token || falsy challenge
      then {| http_status := 403; body_text := lit "Missing parameters" |}
      else if negb (str_eqb mode (lit "subscribe"))
      then {| http_status := 403; body_text := lit "Invalid mode" |}
      else
        match WEBHOOK_VERIFY_TOKEN with
        | Some expectedToken =>
            if falsy expectedToken
            then {| http_status := 500;
                    body_text := lit "Server configuration error" |}
            else if negb (str_eqb token expectedToken)
            then {| http_status := 403;
                    body_text := lit "Invalid verify token" |}
            else {| http_status := 200; body_text := challenge |}
        | None =>
            {| http_status := 500;
               body_text := lit "Server configuration error" |}
        end
  | _, _, _ =>
      {| http_status := 403; body_text := lit "Missing parameters" |}
  end.

(** The stages of the pipeline that an effect belongs to. *)
Inductive Stage :=
| StVerify | StParse | StLookup | StLog | StCatalog | StGenerate
| StClassify | StDecrypt | StDeliver.

Definition stage (ev : Effect) : Stage :=
  match ev with
  | Verify _ => StVerify
  | Parse => StParse
  | FindUnique _ => StLookup
  | LogPush _ => StLog
  | FindMany _ => StCatalog
  | Generate _ _ => StGenerate
  | Decrypt _ => StDecrypt
  | Send _ _ _ => StDeliver
  end.

Definition trace {A} (m : io A) : list Effect := fst m.
Definition outcome {A} (m : io A) : result A := snd m.

End Webhook.


(** ** [src/lib/gemini.ts] *)

Module Gemini.

Import ChatbotUtils.

Definition GEMINI_TIMEOUT_MS : Z := 5000.

Definition newline : str := [byte_of 10].

(** *** [constructPrompt] *)

Definition system_role : str :=
  lit "You are a helpful sales assistant for a small business. "
  ++ lit "Answer customer questions based ONLY on the following product "
  ++ lit "catalog. If asked about products not in the catalog, politely "
  ++ lit "state they are not available."
  ++ newline ++ newline ++ lit "Product Catalog:" ++ newline.

(** The line that [products.forEach] adds for one product. *)
Definition product_line (product : ProductContext) : str :=
  lit "- Product Name: " ++ name product ++ lit ", Price: " ++ price product
  ++ newline.

Definition instructions : str :=
  lit "Instructions:" ++ newline
  ++ lit "- Answer concisely and helpfully" ++ newline
  ++ lit "- Only reference products from the catalog above" ++ newline
  ++ lit "- **FALLBACK RULE 1**: If the question is completely unrelated to "
  ++ lit "products (e.g., business hours, shipping, returns, location), "
  ++ lit "respond EXACTLY with the word: OUT_OF_SCOPE" ++ newline
  ++ lit "- **FALLBACK RULE 2**: If the customer asks about a product "
  ++ lit "variant not in the catalog (e.g., different color/size), start "
  ++ lit "your response with: ALTERNATIVE: [Product Name] (where [Product "
  ++ lit "Name] is the closest match from the catalog)" ++ newline
  ++ lit "- For normal product questions, answer naturally without special "
  ++ lit "signals" ++ newline.

Definition constructPrompt (products : list ProductContext)
    (customerMessage : str) : str :=
  let prompt := system_role in
  let prompt :=
    if length products =? 0
    then prompt ++ lit "(No products available at this time)"
                ++ newline ++ newline
    else prompt ++ flat_map product_line products ++ newline in
  prompt ++ lit "Customer Question:" ++ newline ++ customerMessage
         ++ newline ++ newline ++ instructions.

(** *** [generateChatbotResponse] *)

(** The answer of the API as [response.json()] delivers it.  What the
    code reads through [?.] or tests before use may be missing; [parts]
    is indexed as it is, so that a content without it throws a
    [TypeError]. *)
Record Part := { text : option str }.

Record Content := { parts : option (list (option Part)) }.

Record Candidate := { content : option Content }.

Record GeminiResponse := { candidates : option (list (option Candidate)) }.

(** A response whose body can be read as text or as JSON; either may
    fail. *)
Record Response := {
  status : Z;
  response_text : result str;
  response_json : result GeminiResponse
}.

(** [response.ok] *)
Definition ok (r : Response) : bool :=
  (200 <=? status r)%Z && (status r <=? 299)%Z.

(** The outcome of [fetch]: a response, the [AbortError] that the timer
    of [GEMINI_TIMEOUT_MS] causes, another [Error], or a thrown value
    that is not an [Error]. *)
Inductive FetchResult :=
| Fulfilled (r : Response)
| Aborted
| Rejected (e : Error)
| RejectedOther.

(** The request: the [x-goog-api-key] header and the one text part of
    the body. *)
Record Request := { x_goog_api_key : str; prompt : str }.

(** [data.candidates[0]?.content?.parts[0]?.text] for a first candidate
    [c]; a chain that stops early gives [undefined]. *)
Definition first_text (c : option Candidate) : result (option str) :=
  match c with
  | None => Ok None
  | Some c =>
      match content c with
      | None => Ok None
      | Some ct =>
          ps <- match parts ct with
                | Some ps => Ok ps
                | None => Throw (error "Cannot read properties of undefined")
                end ;;
          match ps with
          | Some p :: _ => Ok (text p)
          | _ => Ok None
          end
      end
  end.

(** The lines between the error check and [return responseText]. *)
Definition extract (data : GeminiResponse) : result str :=
  match candidates data with
  | Some (c :: _) =>
      responseText <- first_text c ;;
      if falsy_opt responseText
      then Throw (error "No text content in Gemini API response")
      else match responseText with
           | Some t => Ok t
           | None => Throw (error "No text content in Gemini API response")
           end
  | _ => Throw (error "No candidates returned from Gemini API")
  end.

(** The function, with the requests that it sends.  The [catch] block
    rethrows every [Error] but the [AbortError], which it replaces. *)
Definition generateChatbotResponse (GEMINI_API_KEY : option str)
    (fetch : Request -> FetchResult)
    (products : list ProductContext) (customerMessage : str)
  : list Request * result str :=
  match GEMINI_API_KEY with
  | None =>
      ([], Throw (error "GEMINI_API_KEY environment variable is required"))
  | Some apiKey =>
      if falsy apiKey
      then ([], Throw (error "GEMINI_API_KEY environment variable is required"))
      else if falsy customerMessage || (length (trim customerMessage) =? 0)
      then ([], Throw (error "Customer message cannot be empty"))
      else
        let prompt := constructPrompt products customerMessage in
        let request := {| x_goog_api_key := apiKey; prompt := prompt |} in
        ([request],
         match fetch request with
         | Fulfilled response =>
             if negb (ok response)
             then errorText <- response_text response ;;
                  Throw (mkError (lit "Gemini API error ("
                                    ++ decimal (status response)
                                    ++ lit "): " ++ errorText) None)
             else data <- response_json response ;; extract data
         | Aborted =>
             Throw (mkError (lit "Gemini API request timed out after "
                               ++ decimal GEMINI_TIMEOUT_MS ++ lit "ms") None)
         | Rejected e => Throw e
         | RejectedOther => Throw (error "Unknown error calling Gemini API")
         end)
  end.

End Gemini.

(** ** [src/app/api/facebook/callback/route.ts] *)

Module FacebookCallback.

(** [FacebookPage] of [src/lib/types.ts] *)
Record FacebookPage := { id : str; name : str; access_token : str }.

(** What [prisma.facebookPageConnection.upsert] is asked to store: the
    key [user_id] and the three columns that its [update] and [create]
    branches both write (the time stamp is left out). *)
Record Connection := {
  user_id : str;
  facebook_page_id : str;
  page_access_token : str;
  page_name : str
}.

(** The request: the query parameters as [searchParams.get] gives them
    and the value of the [facebook_oauth_state] cookie. *)
Record Request := {
  code : option str;
  state : option str;
  error_param : option str;
  facebook_oauth_state : option str
}.

(** [NextResponse.redirect(url)] *)
Inductive Response := Redirect (location : str).

(** The surroundings of the route: configuration, the sixteen bytes that
    [crypto.randomBytes] hands to [encrypt], the URL parser behind
    [NextResponse.redirect] (which gives the serialized URL, or nothing
    for a text that is not an absolute URL), the session, the two calls
    of the Graph API and the database client. *)
Record Env := {
  NEXTAUTH_URL : option str;
  ENCRYPTION_KEY : option str;
  randomBytes : list ascii;
  new_URL : str -> option str;
  auth : result (option str);              (* [session?.user?.id] *)
  exchangeCodeForToken : str -> str -> result str;
  getUserPages : str -> result (list FacebookPage);
  upsert : Connection -> result unit
}.

Inductive Effect :=
| Auth
| DeleteCookie
| ExchangeCode (code redirectUri : str)
| GetPages (userAccessToken : str)
| Upsert (c : Connection).

Definition io (A : Type) : Type := list Effect * result A.

Definition ret {A} (a : A) : io A := ([], Ok a).

Definition io_bind {A B} (m : io A) (k : A -> io B) : io B :=
  match m with
  | (t, Ok a) => let (t', r) := k a in (t ++ t', r)
  | (t, Throw e) => (t, Throw e)
  end.

Definition perform {A} (ev : Effect) (r : result A) : io A := ([ev], r).

Definition lift {A} (r : result A) : io A := ([], r).

Definition try_catch {A} (m : io A) (handler : Error -> io A) : io A :=
  match m with
  | (t, Ok a) => (t, Ok a)
  | (t, Throw e) => let (t', r) := handler e in (t ++ t', r)
  end.

Declare Scope callback_scope.
Delimit Scope callback_scope with callback.
Notation "x <~ c ;; k" := (io_bind c (fun x => k))
  (at level 61, c at next level, right associativity) : callback_scope.

(** A value inside a template literal: [undefined] is spelled out. *)
Definition template (v : option str) : str :=
  match v with
  | Some s => s
  | None => lit "undefined"
  end.

(** The value of [v] when [!v] is false. *)
Definition truthy (v : option str) : option str :=
  match v with
  | Some s => if falsy s then None else Some s
  | None => None
  end.

Section Route.

Variable env : Env.

Local Open Scope callback_scope.

(** [NextResponse.redirect] throws on a malformed URL. *)
Definition redirect (url : str) : io Response :=
  match new_URL env url with
  | Some location => ret (Redirect location)
  | None => lift (Throw (error "URL is malformed"))
  end.

(** The redirections to the dashboard, apart by their query. *)
Definition dashboard (query : string) : io Response :=
  redirect (template (NEXTAUTH_URL env) ++ lit "/dashboard/chatbot?"
              ++ lit query).

(** The [try] block of [GET]. *)
Definition GET_try (request : Request) : io Response :=
  session <~ perform Auth (auth env) ;;
  match truthy session with
  | None => dashboard "error=unauthorized"
  | Some userId =>
      if match error_param request with
         | Some e => str_eqb e (lit "access_denied")
         | None => false
         end
      then dashboard "error=user_denied"
      else
        match truthy (state request),
              truthy (facebook_oauth_state request) with
        | Some state, Some savedState =>
            if negb (str_eqb state savedState)
            then dashboard "error=invalid_state"
            else
              _ <~ perform DeleteCookie (Ok tt) ;;
              match truthy (code request) with
              | None => dashboard "error=no_code"
              | Some code =>
                  let redirectUri :=
                    template (NEXTAUTH_URL env)
                      ++ lit "/api/facebook/callback" in
                  userAccessToken <~
                    perform (ExchangeCode code redirectUri)
                      (exchangeCodeForToken env code redirectUri) ;;
                  pages <~ perform (GetPages userAccessToken)
                             (getUserPages env userAccessToken) ;;
                  match pages with
                  | [] => dashboard "error=no_pages"
                  | selectedPage :: _ =>
                      let pageAccessToken := access_token selectedPage in
                      encryptedToken <~
                        lift (Encryption.encrypt (ENCRYPTION_KEY env)
                                (randomBytes env) pageAccessToken) ;;
                      let record :=
                        {| user_id := userId;
                           facebook_page_id := id selectedPage;
                           page_access_token := encryptedToken;
                           page_name := name selectedPage |} in
                      _ <~ perform (Upsert record) (upsert env record) ;;
                      dashboard "success=true"
                  end
              end
        | _, _ => dashboard "error=invalid_state"
        end
  end.

Definition GET (request : Request) : io Response :=
  try_catch (GET_try request) (fun _ => dashboard "error=oauth_failed").

End Route.

Definition trace {A} (m : io A) : list Effect := fst m.
Definition outcome {A} (m : io A) : result A := snd m.

End FacebookCallback.

(** ** The route with the functions it imports *)

Module Wired.

(** The surroundings of the webhook route in which
    [generateChatbotResponse] and [sendMessage] are the functions of
    [gemini.ts] and [facebook.ts], each over its own [fetch]. *)
Definition env (FACEBOOK_APP_SECRET ENCRYPTION_KEY GEMINI_API_KEY : option str)
    (JSON_parse : str -> result Webhook.MessengerWebhookPayload)
    (findUnique : str -> result (option Webhook.PageConnection))
    (findMany : str -> result (list ChatbotUtils.ProductContext))
    (gemini : Gemini.Request -> Gemini.FetchResult)
    (graph : nat -> Facebook.FetchResult) : Webhook.Env :=
  {| Webhook.FACEBOOK_APP_SECRET := FACEBOOK_APP_SECRET;
     Webhook.ENCRYPTION_KEY := ENCRYPTION_KEY;
     Webhook.JSON_parse := JSON_parse;
     Webhook.findUnique := findUnique;
     Webhook.findMany := findMany;
     Webhook.generateChatbotResponse := fun products customerMessage =>
       snd (Gemini.generateChatbotResponse GEMINI_API_KEY gemini
              products customerMessage);
     Webhook.sendMessage := fun pageAccessToken recipientId messageText =>
       snd (Facebook.sendMessage graph pageAccessToken recipientId
              messageText) |}.

End Wired.

(** ** Sample data and the vocabulary of the statements *)

Module Samples.

(** The key of the test suite, and an initialization vector. *)
Definition test_key : option str :=
  Some (lit "0123456789abcdef0123456789abcdef0123456789abcdef0123456789abcdef").

Definition test_iv : list ascii := map byte_of (seq 0 16).

Definition other_iv : list ascii := map byte_of (seq 16 16).

(** [encrypt("hello")] under [test_key] and [test_iv]. *)
Definition stored_hello : str :=
  lit "000102030405060708090a0b0c0d0e0f:d79ea4d17367a2f43619ee888791bb18".

(** The same with two characters that are not hexadecimal digits at the
    end of the first segment. *)
Definition tampered_hello : str :=
  lit "000102030405060708090a0b0c0d0e0fzz:d79ea4d17367a2f43619ee888791bb18".

(** A key of 64 characters the last of which is not a hexadecimal
    digit. *)
Definition non_hex_key : str :=
  lit "0123456789abcdef0123456789abcdef0123456789abcdef0123456789abcdeg".

(** The key of the test suite with U+0166 in the place of its last
    character, and [stored_hello] with U+0131 and U+0138 in the place of
    its last two. *)
Definition low_byte_key : str :=
  lit "0123456789abcdef0123456789abcdef0123456789abcdef0123456789abcde"
  ++ map byte_of [197; 166].

Definition low_byte_hello : str :=
  lit "000102030405060708090a0b0c0d0e0f:d79ea4d17367a2f43619ee888791bb"
  ++ map byte_of [196; 177; 196; 184].

(** An answer with the alternative prefix that goes on after the line
    of the name. *)
Definition two_line_answer : str :=
  lit "ALTERNATIVE: Red Mug" ++ [byte_of 10] ++ lit "It is in stock.".

(** A page access token of more than one block. *)
Definition sample_token : str := lit "EAAB-page-access-token-1234567890".

(** The application secret of the route tests and a request body, the
    JSON text of an object whose [object] property is ["page"]. *)
Definition test_secret : str := lit "test_app_secret_12345".

Definition quoted (s : string) : str := byte_of 34 :: lit s ++ [byte_of 34].

Definition test_body : str :=
  lit "{" ++ quoted "object" ++ lit ":" ++ quoted "page" ++ lit "}".

Definition test_token : str := lit "test-page-access-token".
Definition test_recipient : str := lit "123456789".
Definition test_message : str := lit "Hello, this is a test message".

(** What [response.json()] makes of a sample body: a value when the
    text opens with a brace, a syntax error otherwise. *)
Definition json_of (body : string) : result Facebook.ResponseData :=
  if startsWith (lit body) (lit "{") then Ok Facebook.JsonValue
  else Throw (error "Unexpected token in JSON").

(** Outcomes of [fetch]: the same response at every attempt, and a
    failure followed by a success. *)
Definition always (status : Z) (body : string) : nat -> Facebook.FetchResult :=
  fun _ => Facebook.Fulfilled {| Facebook.status := status;
                                 Facebook.body := lit body;
                                 Facebook.json := json_of body |}.

Definition first_then (first : Facebook.FetchResult) (status : Z)
    (body : string) : nat -> Facebook.FetchResult :=
  fun n => match n with
           | O => first
           | S _ => Facebook.Fulfilled {| Facebook.status := status;
                                          Facebook.body := lit body;
                                          Facebook.json := json_of body |}
           end.

(** The catalog of the classifier tests. *)
Definition product (name price : string) : ChatbotUtils.ProductContext :=
  {| ChatbotUtils.name := lit name; ChatbotUtils.price := lit price |}.

Definition mockProducts : list ChatbotUtils.ProductContext :=
  [ product "Red Mug" "$15.00"; product "Blue Mug" "$12.00";
    product "Green Plate" "$20.00" ].

(** A line feed. *)
Definition LF : str := [byte_of 10].

(** A page connection whose stored token is [stored_hello], and a
    payload with one text message for that page. *)
Definition test_page : str := lit "test_page_id_123".
Definition test_sender : str := lit "test_sender_psid".
Definition test_user : str := lit "user_123".

Definition test_connection : Webhook.PageConnection :=
  {| Webhook.user_id := test_user;
     Webhook.page_access_token := stored_hello |}.

Definition text_message (sender text : string) : Webhook.MessengerEvent :=
  {| Webhook.sender := Some (lit sender);
     Webhook.message := Some {| Webhook.text := Some (lit text) |} |}.

Definition payload_of (entries : list Webhook.MessengerWebhookEntry)
  : Webhook.MessengerWebhookPayload :=
  {| Webhook.object := Some (lit "page"); Webhook.entry := Some entries |}.

Definition one_message : Webhook.MessengerWebhookPayload :=
  payload_of
    [ {| Webhook.id := test_page;
         Webhook.messaging :=
           Some [text_message "test_sender_psid"
                              "What are your business hours?"] |} ].

(** Two messages, the first for a page whose lookup throws. *)
Definition broken_page : str := lit "broken_page".

Definition two_messages : Webhook.MessengerWebhookPayload :=
  payload_of
    [ {| Webhook.id := broken_page;
         Webhook.messaging := Some [text_message "psid_1" "first"] |};
      {| Webhook.id := test_page;
         Webhook.messaging := Some [text_message "psid_2" "second"] |} ].

Definition test_digest : str :=
  lit "be00bdebf7acb0b8459d380c579a4290884efcfc35d5041cc4ee0dc28d43ae83".

Definition test_signature : str := lit "sha256=" ++ test_digest.

Definition unsigned_request : Webhook.NextRequest :=
  {| Webhook.request_text := Ok test_body;
     Webhook.x_hub_signature_256 := None |}.

(** The JSON text of a payload, as [JSON.stringify] writes the
    properties that the route reads; a missing property is left out.
    The texts of the samples hold no control character. *)
Definition json_char (c : ascii) : str :=
  if ascii_dec c (byte_of 34) then [byte_of 92; byte_of 34]
  else if ascii_dec c (byte_of 92) then [byte_of 92; byte_of 92]
  else [c].

Definition json_string (s : str) : str :=
  byte_of 34 :: flat_map json_char s ++ [byte_of 34].

Definition json_member (key : string) (value : str) : str :=
  quoted key ++ lit ":" ++ value.

Fixpoint join (sep : str) (l : list str) : str :=
  match l with
  | [] => []
  | [x] => x
  | x :: l' => x ++ sep ++ join sep l'
  end.

Definition json_object (members : list str) : str :=
  lit "{" ++ join (lit ",") members ++ lit "}".

Definition json_array (items : list str) : str :=
  lit "[" ++ join (lit ",") items ++ lit "]".

Definition optional {A} (key : string) (write : A -> str) (v : option A)
  : list str :=
  match v with
  | Some a => [json_member key (write a)]
  | None => []
  end.

Definition json_message (m : Webhook.Message) : str :=
  json_object (optional "text" json_string (Webhook.text m)).

Definition json_sender (senderId : str) : str :=
  json_object [json_member "id" (json_string senderId)].

Definition json_event (e : Webhook.MessengerEvent) : str :=
  json_object (optional "sender" json_sender (Webhook.sender e)
               ++ optional "message" json_message (Webhook.message e)).

Definition json_entry (e : Webhook.MessengerWebhookEntry) : str :=
  json_object (json_member "id" (json_string (Webhook.id e))
               :: optional "messaging"
                    (fun events => json_array (map json_event events))
                    (Webhook.messaging e)).

Definition stringify (payload : Webhook.MessengerWebhookPayload) : str :=
  json_object (optional "object" json_string (Webhook.object payload)
               ++ optional "entry"
                    (fun entries => json_array (map json_entry entries))
                    (Webhook.entry payload)).

(** The request that carries a payload: its JSON text, signed with the
    application secret. *)
Definition signed_request (payload : Webhook.MessengerWebhookPayload)
  : Webhook.NextRequest :=
  {| Webhook.request_text := Ok (stringify payload);
     Webhook.x_hub_signature_256 :=
       Some (lit "sha256="
               ++ Facebook.hmac_sha256_hex test_secret (stringify payload)) |}.

(** Surroundings in which every stage succeeds and the generator
    answers with the out-of-scope token; [JSON.parse] reads the text of
    [payload] and nothing else. *)
Definition test_env (payload : Webhook.MessengerWebhookPayload)
  : Webhook.Env :=
  {| Webhook.FACEBOOK_APP_SECRET := Some test_secret;
     Webhook.ENCRYPTION_KEY := test_key;
     Webhook.JSON_parse := fun body =>
       if str_eqb body (stringify payload) then Ok payload
       else Throw (error "Unexpected token in JSON");
     Webhook.findUnique := fun pageId =>
       if str_eqb pageId test_page then Ok (Some test_connection)
       else if str_eqb pageId broken_page
       then Throw (error "Can't reach database server")
       else Ok None;
     Webhook.findMany := fun _ => Ok mockProducts;
     Webhook.generateChatbotResponse := fun _ _ => Ok (lit "OUT_OF_SCOPE");
     Webhook.sendMessage := fun _ _ _ => Ok tt |}.


Definition send (fetch : nat -> Facebook.FetchResult)
  : list Facebook.NetEvent * result unit :=
  Facebook.sendMessage fetch test_token test_recipient test_message.

Definition rate_limited : Facebook.Response :=
  {| Facebook.status := 429; Facebook.body := lit "Rate limit exceeded";
     Facebook.json := json_of "Rate limit exceeded" |}.

Definition server_error : Facebook.Response :=
  {| Facebook.status := 500; Facebook.body := lit "Internal server error";
     Facebook.json := json_of "Internal server error" |}.

(** A response with a status in 200..299 whose body is not JSON. *)
Definition plain_ok : Facebook.Response :=
  {| Facebook.status := 200; Facebook.body := lit "OK";
     Facebook.json := json_of "OK" |}.

Definition first_message : Webhook.MessengerEvent :=
  text_message "test_sender_psid" "What are your business hours?".

Definition broken_message : Webhook.MessengerEvent :=
  text_message "psid_1" "first".

Definition second_message : Webhook.MessengerEvent :=
  text_message "psid_2" "second".

(** The callback of a signed-in user whose state matches the cookie and
    who manages one page, and the connection that it stores. *)
Definition test_facebook_page : FacebookCallback.FacebookPage :=
  {| FacebookCallback.id := test_page;
     FacebookCallback.name := lit "Test Page";
     FacebookCallback.access_token := lit "hello" |}.

Definition callback_env : FacebookCallback.Env :=
  {| FacebookCallback.NEXTAUTH_URL := Some (lit "http://localhost:3000");
     FacebookCallback.ENCRYPTION_KEY := test_key;
     FacebookCallback.randomBytes := test_iv;
     FacebookCallback.new_URL := fun url => Some url;
     FacebookCallback.auth := Ok (Some test_user);
     FacebookCallback.exchangeCodeForToken := fun _ _ =>
       Ok (lit "user-access-token");
     FacebookCallback.getUserPages := fun _ => Ok [test_facebook_page];
     FacebookCallback.upsert := fun _ => Ok tt |}.

Definition callback_request : FacebookCallback.Request :=
  {| FacebookCallback.code := Some (lit "auth-code");
     FacebookCallback.state := Some (lit "state-123");
     FacebookCallback.error_param := None;
     FacebookCallback.facebook_oauth_state := Some (lit "state-123") |}.

Definition stored_connection : FacebookCallback.Connection :=
  {| FacebookCallback.user_id := test_user;
     FacebookCallback.facebook_page_id := test_page;
     FacebookCallback.page_access_token := stored_hello;
     FacebookCallback.page_name := lit "Test Page" |}.

(** A key for the generator, an API that answers every request with
    one candidate of one part, and the route wired to it. *)
Definition gemini_key : option str := Some (lit "test-gemini-key").

Definition gemini_answers (t : string)
  : Gemini.Request -> Gemini.FetchResult :=
  fun _ =>
    Gemini.Fulfilled
      {| Gemini.status := 200;
         Gemini.response_text := Ok [];
         Gemini.response_json :=
           Ok {| Gemini.candidates :=
                   Some [Some {| Gemini.content :=
                                   Some {| Gemini.parts :=
                                             Some [Some {| Gemini.text :=
                                                             Some (lit t) |}]
                                        |} |}] |} |}.

Definition wired_env (t : string) : Webhook.Env :=
  Wired.env (Some test_secret) test_key gemini_key
    (Webhook.JSON_parse (test_env one_message))
    (Webhook.findUnique (test_env one_message))
    (Webhook.findMany (test_env one_message))
    (gemini_answers t) (always 200 "{}").

Definition blank_message : Webhook.MessengerEvent :=
  text_message "test_sender_psid" "   ".

End Samples.

Module Statements.

Import Encryption.

(** A hexadecimal digit as [toHex] writes it: a digit, one code unit, and
    not the separator of the stored format. *)
Definition plain_hex (c : ascii) : bool :=
  is_hex_digit c && (code_units c =? 1)
    && (if ascii_dec c ":"%char then false else true).

(** Every member of [l] has [n] bytes. *)
Definition sized (n : nat) (l : list (list ascii)) : Prop :=
  Forall (fun x => length x = n) l.


(** The inputs that [decrypt] refuses under a given key configuration:
    no split into exactly two segments at [":"]; a first segment that
    does not decode to sixteen bytes; a second segment of odd length, or
    one that decodes to nothing or to a broken number of blocks; a wrong
    padding after decryption. *)
Definition malformed (ENCRYPTION_KEY : option str) (c : str) : Prop :=
  match split (lit ":") c with
  | [p0; p1] =>
      let ct := fromHex p1 in
      length (fromHex p0) <> block_size
      \/ Nat.odd (js_length p1) = true
      \/ length ct = 0
      \/ length ct mod block_size <> 0
      \/ (exists key,
            getEncryptionKey ENCRYPTION_KEY = Ok key /\
            pkcs7_unpad
              (cbc_decrypt key (length ct / block_size) (fromHex p0) ct)
            = None)
  | _ => True
  end.

(** The three buckets of one attempt of [sendMessage], read off the
    code: it returns, it throws an error with a status in 400..499, or
    it throws any other error. *)
Definition succeeds (f : Facebook.FetchResult) : Prop :=
  Facebook.attempt_once f = Ok tt.

Definition permanent (f : Facebook.FetchResult) (e : Error) : Prop :=
  Facebook.attempt_once f = Throw e /\ Facebook.is_client_error e = true.

Definition transient (f : Facebook.FetchResult) (e : Error) : Prop :=
  Facebook.attempt_once f = Throw e /\ Facebook.is_client_error e = false.

(** The three shapes of a classified response. *)
Definition out_of_scope_response : ChatbotUtils.ParsedResponse :=
  {| ChatbotUtils.type := ChatbotUtils.out_of_scope;
     ChatbotUtils.text := ChatbotUtils.getOutOfScopeMessage;
     ChatbotUtils.suggestedProduct := None |}.

Definition alternative_response (p : ChatbotUtils.ProductContext)
  : ChatbotUtils.ParsedResponse :=
  {| ChatbotUtils.type := ChatbotUtils.alternative;
     ChatbotUtils.text := ChatbotUtils.getAlternativeSuggestionMessage p;
     ChatbotUtils.suggestedProduct := Some (ChatbotUtils.name p) |}.

Definition normal_response (t : str) : ChatbotUtils.ParsedResponse :=
  {| ChatbotUtils.type := ChatbotUtils.normal;
     ChatbotUtils.text := t;
     ChatbotUtils.suggestedProduct := None |}.

(** No line terminator occurs in [s]. *)
Fixpoint single_line (s : str) : bool :=
  match s with
  | [] => true
  | _ :: s' =>
      match strip_one line_terminators s with
      | Some _ => false
      | None => single_line s'
      end
  end.

(** The extracted name as the specification words it: the substring
    after the prefix, trimmed. *)
Definition claimed_name (t : str) : str :=
  trim (skipn (length ChatbotUtils.ALTERNATIVE) t).

(** [line] is the first line of [s]: the part of [s] before its first
    line terminator, all of [s] when it has none. *)
Definition first_line_of (s line : str) : Prop :=
  exists tail,
    s = line ++ tail /\
    (forall k, k < length line ->
               strip_one line_terminators (skipn k s) = None) /\
    (tail = [] \/ strip_one line_terminators tail <> None).

(** The request passes the signature check of [POST]. *)
Definition signature_ok (env : Webhook.Env) (request : Webhook.NextRequest)
  : bool :=
  match Webhook.request_text request, Webhook.FACEBOOK_APP_SECRET env with
  | Ok body, Some appSecret =>
      negb (falsy appSecret)
      && Facebook.verifyWebhookSignature
           (Webhook.x_hub_signature_256 request) body appSecret
  | _, _ => false
  end.

(** The request passes the signature check, its body parses, and the
    payload is of type ["page"] with the entries [entries]. *)
Definition accepted (env : Webhook.Env) (request : Webhook.NextRequest)
    (entries : list Webhook.MessengerWebhookEntry) : Prop :=
  signature_ok env request = true /\
  exists body payload,
    Webhook.request_text request = Ok body /\
    Webhook.JSON_parse env body = Ok payload /\
    Webhook.object payload = Some (lit "page") /\
    Webhook.entry payload = Some entries.

(** A text message event: a sender and a non-empty text. *)
Definition text_event (e : Webhook.MessengerEvent)
    (senderId messageText : str) : Prop :=
  Webhook.sender e = Some senderId /\
  Webhook.message e = Some {| Webhook.text := Some messageText |} /\
  messageText <> [].


Definition event_stages : list Webhook.Stage :=
  [ Webhook.StLookup; Webhook.StLog; Webhook.StCatalog;
    Webhook.StGenerate; Webhook.StDecrypt; Webhook.StDeliver ].







End Statements.

(** * Properties *)

(** ** Strings *)

Section JsFacts.

Lemma str_eqb_eq (a b : str) : str_eqb a b = true <-> a = b.
Proof.
  unfold str_eqb. destruct (list_eq_dec ascii_dec a b); split; congruence.
Qed.

Lemma str_eqb_refl (a : str) : str_eqb a a = true.
Proof. apply str_eqb_eq. reflexivity. Qed.

Lemma str_eqb_neq (a b : str) : a <> b -> str_eqb a b = false.
Proof.
  intros H. destruct (str_eqb a b) eqn:E; [|reflexivity].
  apply str_eqb_eq in E. contradiction.
Qed.

Lemma startsWith_app (p r : str) : startsWith (p ++ r) p = true.
Proof.
  induction p as [|c p IH]; simpl; [reflexivity|].
  destruct (ascii_dec c c); [assumption | congruence].
Qed.

Lemma startsWith_inv (s p : str) :
  startsWith s p = true -> exists r, s = p ++ r.
Proof.
  revert s. induction p as [|c p IH]; intros s H.
  - exists s. reflexivity.
  - destruct s as [|d s]; simpl in H; [discriminate|].
    destruct (ascii_dec c d) as [->|]; [|discriminate].
    destruct (IH _ H) as [r ->]. exists r. reflexivity.
Qed.

Lemma startsWith_head (c d : ascii) (s p : str) :
  c <> d -> startsWith (d :: s) (c :: p) = false.
Proof.
  intros H. simpl. destruct (ascii_dec c d); [contradiction | reflexivity].
Qed.

(** A string without the first character of the separator is one piece. *)
Lemma split_go_absent (c : ascii) (sep cur h : str) :
  ~ In c h ->
  split_go (c :: sep) 0 cur h = [rev cur ++ h].
Proof.
  revert cur. induction h as [|d h IH]; intros cur Hc.
  - simpl. rewrite app_nil_r. reflexivity.
  - cbn [split_go]. rewrite startsWith_head.
    + rewrite IH.
      * simpl. rewrite <- app_assoc. reflexivity.
      * intros Hin. apply Hc. right. assumption.
    + intros ->. apply Hc. left. reflexivity.
Qed.

(** Splitting at a one-character separator that occurs once. *)
Lemma split_char_once (c : ascii) (a b : str) :
  ~ In c a -> ~ In c b ->
  split [c] (a ++ c :: b) = [a; b].
Proof.
  intros Ha Hb. unfold split.
  assert (G : forall cur,
             split_go [c] 0 cur (a ++ c :: b) = [rev cur ++ a; b]).
  { induction a as [|d a IH]; intros cur.
    - cbn [app split_go startsWith].
      destruct (ascii_dec c c); [|congruence].
      cbn [length Nat.sub]. rewrite app_nil_r.
      rewrite (split_go_absent c [] [] b Hb). reflexivity.
    - cbn [app split_go]. rewrite startsWith_head.
      + rewrite IH.
        * simpl. rewrite <- app_assoc. reflexivity.
        * intros Hin. apply Ha. right. assumption.
      + intros ->. apply Ha. left. reflexivity. }
  apply (G []).
Qed.

Lemma strip_one_skipn (encs : list str) (s r : str) :
  strip_one encs s = Some r -> exists k, r = skipn k s.
Proof.
  induction encs as [|e encs IH]; [discriminate|]. cbn [strip_one].
  destruct (startsWith s e); [|exact IH].
  intros H. injection H as <-. eexists. reflexivity.
Qed.

Lemma strip_one_shorter (encs : list str) (s r : str) :
  Forall (fun e => e <> []) encs ->
  strip_one encs s = Some r -> length r < length s.
Proof.
  induction 1 as [|e encs He _ IH]; [discriminate|]. cbn [strip_one].
  destruct (startsWith s e) eqn:E; [|exact IH].
  intros H. injection H as <-.
  apply startsWith_inv in E. destruct E as [r ->].
  rewrite skipn_app, skipn_all, Nat.sub_diag.
  destruct e; [congruence|]. cbn [app skipn length].
  rewrite length_app. lia.
Qed.

(** With as much fuel as the string is long, [strip_all] leaves nothing
    to strip. *)
Lemma strip_all_stripped (encs : list str) (fuel : nat) (s : str) :
  Forall (fun e => e <> []) encs ->
  length s <= fuel ->
  strip_one encs (strip_all encs fuel s) = None.
Proof.
  intros Hne. revert s. induction fuel as [|fuel IH]; intros s H.
  - destruct s; [|simpl in H; lia].
    clear H. induction Hne as [|e encs He _ IHe]; [reflexivity|].
    cbn [strip_all strip_one] in *. destruct e; [congruence | exact IHe].
  - cbn [strip_all]. destruct (strip_one encs s) as [r|] eqn:E;
      [|exact E].
    apply IH. pose proof (strip_one_shorter _ _ _ Hne E). lia.
Qed.

Lemma strip_all_fixed (encs : list str) (fuel : nat) (s : str) :
  strip_one encs s = None -> strip_all encs fuel s = s.
Proof.
  intros H. destruct fuel; cbn [strip_all]; [|rewrite H]; reflexivity.
Qed.

Lemma white_space_nonempty : Forall (fun e => e <> []) white_space.
Proof. repeat constructor; discriminate. Qed.

Lemma white_space_rev_nonempty :
  Forall (fun e => e <> []) (map (@rev ascii) white_space).
Proof. repeat constructor; discriminate. Qed.

(** A trimmed string neither begins nor ends with white space. *)
Lemma trimStart_stripped (s : str) :
  strip_one white_space (trimStart s) = None.
Proof.
  apply strip_all_stripped; [apply white_space_nonempty | reflexivity].
Qed.

Lemma trimEnd_stripped (s : str) :
  strip_one (map (@rev ascii) white_space) (rev (trimEnd s)) = None.
Proof.
  unfold trimEnd. rewrite rev_involutive.
  apply strip_all_stripped; [apply white_space_rev_nonempty|].
  rewrite length_rev. reflexivity.
Qed.

Lemma trimStart_idempotent (s : str) : trimStart (trimStart s) = trimStart s.
Proof. apply strip_all_fixed, trimStart_stripped. Qed.

End JsFacts.

(** ** Hexadecimal encoding *)

Section HexFacts.

Import Statements.

Lemma hex_of_byte_plain (b : ascii) :
  forallb plain_hex (hex_of_byte b) = true.
Proof.
  destruct b as [[] [] [] [] [] [] [] []]; reflexivity.
Qed.

(** The decoder sees a hexadecimal digit as it is. *)
Lemma units_at_hex (c : ascii) (r : str) :
  is_hex_digit c = true -> units_at c r = [c].
Proof.
  destruct c as [[] [] [] [] [] [] [] []]; intros H;
    first [reflexivity | discriminate H].
Qed.

Lemma low_bytes_hex (s : str) :
  forallb is_hex_digit s = true -> low_bytes s = s.
Proof.
  induction s as [|c s IH]; [reflexivity|]. cbn [forallb low_bytes].
  intros H. apply andb_prop in H. destruct H as [Hc Hs].
  rewrite (units_at_hex c s Hc), (IH Hs). reflexivity.
Qed.

(** It sees as many bytes as the string has code units. *)
Lemma length_units_at (c : ascii) (r : str) :
  length (units_at c r) = code_units c.
Proof. destruct c as [[] [] [] [] [] [] [] []]; reflexivity. Qed.

Lemma length_low_bytes (s : str) : length (low_bytes s) = js_length s.
Proof.
  induction s as [|c s IH]; [reflexivity|].
  cbn [low_bytes js_length fold_right]. fold (js_length s).
  rewrite length_app, length_units_at, IH. reflexivity.
Qed.

Lemma fromHex_hex_of_byte (b : ascii) (r : str) :
  fromHex (hex_of_byte b ++ r) = b :: fromHex r.
Proof.
  destruct b as [[] [] [] [] [] [] [] []]; reflexivity.
Qed.

Lemma fromHex_toHex_app (bs : list ascii) (r : str) :
  fromHex (toHex bs ++ r) = bs ++ fromHex r.
Proof.
  unfold toHex. induction bs as [|b bs IH]; [reflexivity|].
  cbn [flat_map]. rewrite <- app_assoc, fromHex_hex_of_byte, IH.
  reflexivity.
Qed.

Lemma fromHex_toHex (bs : list ascii) : fromHex (toHex bs) = bs.
Proof.
  rewrite <- (app_nil_r (toHex bs)), fromHex_toHex_app.
  apply app_nil_r.
Qed.

Lemma toHex_plain (bs : list ascii) : forallb plain_hex (toHex bs) = true.
Proof.
  unfold toHex. induction bs as [|b bs IH]; [reflexivity|].
  cbn [flat_map]. rewrite forallb_app, hex_of_byte_plain. exact IH.
Qed.

Lemma length_toHex (bs : list ascii) : length (toHex bs) = 2 * length bs.
Proof.
  unfold toHex. induction bs as [|b bs IH]; [reflexivity|].
  cbn [flat_map]. rewrite length_app, IH. simpl. lia.
Qed.

Lemma plain_no_colon (s : str) :
  forallb plain_hex s = true -> ~ In ":"%char s.
Proof.
  intros H Hin. rewrite forallb_forall in H. specialize (H _ Hin).
  unfold plain_hex in H. destruct (ascii_dec ":" ":"); [|congruence].
  rewrite andb_false_r in H. discriminate.
Qed.

Lemma plain_js_length (s : str) :
  forallb plain_hex s = true -> js_length s = length s.
Proof.
  induction s as [|c s IH]; [reflexivity|].
  cbn [forallb js_length fold_right length]. intros H.
  apply andb_prop in H. destruct H as [Hc Hs].
  fold (js_length s). rewrite (IH Hs).
  unfold plain_hex in Hc. apply andb_prop in Hc. destruct Hc as [Hc _].
  apply andb_prop in Hc. destruct Hc as [_ Hc].
  apply Nat.eqb_eq in Hc. rewrite Hc. reflexivity.
Qed.

Lemma plain_valid_hex (s : str) :
  forallb plain_hex s = true -> forallb is_hex_digit s = true.
Proof.
  intros H. rewrite forallb_forall in *. intros c Hc.
  specialize (H c Hc). unfold plain_hex in H.
  apply andb_prop in H. destruct H as [H _].
  apply andb_prop in H. tauto.
Qed.

(** [toHex] is one-to-one. *)
Lemma toHex_inj (a b : list ascii) : toHex a = toHex b -> a = b.
Proof.
  intros H. rewrite <- (fromHex_toHex a), <- (fromHex_toHex b), H.
  reflexivity.
Qed.

End HexFacts.

(** ** The block cipher: decryption inverts encryption *)

Section AesFacts.

Import Aes Statements.

(** The example vector of FIPS 197, appendix C.3. *)
Example aes256_fips197 :
  encrypt_block (map byte_of (seq 0 32))
    (fromHex (lit "00112233445566778899aabbccddeeff"))
  = fromHex (lit "8ea2b7ca516745bfeafc49904b496089").
Proof. vm_compute. reflexivity. Qed.

Lemma inv_sbox_sbox (a : ascii) : inv_sbox (sbox a) = a.
Proof.
  destruct a as [[] [] [] [] [] [] [] []]; reflexivity.
Qed.

Lemma inv_sub_bytes_sub_bytes (s : list ascii) :
  inv_sub_bytes (sub_bytes s) = s.
Proof.
  unfold inv_sub_bytes, sub_bytes. rewrite map_map.
  rewrite <- (map_id s) at 2. apply map_ext. exact inv_sbox_sbox.
Qed.

Ltac ascii_bits :=
  repeat match goal with a : ascii |- _ => destruct a end.

Lemma inv_mix_column_mix_column (a0 a1 a2 a3 : ascii) (s : list ascii) :
  columns inv_mix_column (mix_column a0 a1 a2 a3 ++ s)
  = a0 :: a1 :: a2 :: a3 :: columns inv_mix_column s.
Proof.
  unfold mix_column. cbn [app columns]. unfold inv_mix_column. cbn [app].
  repeat f_equal; ascii_bits;
    unfold xor4, mul14, mul13, mul11, mul9, mul8, mul4, mul3, mul2,
      xtime, xor_ascii;
    f_equal; btauto.
Qed.

Lemma xor_ascii_cancel (a b : ascii) : xor_ascii (xor_ascii a b) b = a.
Proof.
  destruct a, b. unfold xor_ascii. f_equal; btauto.
Qed.

Lemma length_xor_block (a b : list ascii) :
  length a = length b -> length (xor_block a b) = length a.
Proof.
  intros H. unfold xor_block. rewrite length_map, length_combine. lia.
Qed.

Lemma xor_block_cancel (a b : list ascii) :
  length a = length b -> xor_block (xor_block a b) b = a.
Proof.
  revert b. induction a as [|x a IH]; intros [|y b] H;
    try discriminate; [reflexivity|].
  injection H as H. unfold xor_block in *. cbn [combine map fst snd].
  rewrite xor_ascii_cancel. f_equal. apply IH. assumption.
Qed.

(** A list of sixteen bytes, spelled out. *)
Ltac sixteen s H :=
  do 16 (destruct s as [|? s]; [discriminate H|]);
  destruct s; [clear H | discriminate H].

Lemma inv_shift_rows_shift_rows (s : list ascii) :
  length s = 16 -> inv_shift_rows (shift_rows s) = s.
Proof. intros H. sixteen s H. reflexivity. Qed.

Lemma length_shift_rows (s : list ascii) :
  length s = 16 -> length (shift_rows s) = 16.
Proof. intros H. sixteen s H. reflexivity. Qed.

Lemma length_mix_columns (s : list ascii) :
  length s = 16 -> length (mix_columns s) = 16.
Proof. intros H. sixteen s H. reflexivity. Qed.

Lemma inv_mix_columns_mix_columns (s : list ascii) :
  length s = 16 -> inv_mix_columns (mix_columns s) = s.
Proof.
  intros H. sixteen s H. unfold mix_columns, inv_mix_columns.
  cbn [columns]. rewrite !inv_mix_column_mix_column. reflexivity.
Qed.

Lemma length_sub_bytes (s : list ascii) : length (sub_bytes s) = length s.
Proof. apply length_map. Qed.

Lemma length_round (k s : list ascii) :
  length k = 16 -> length s = 16 -> length (round k s) = 16.
Proof.
  intros Hk Hs. unfold round, add_round_key.
  assert (length (mix_columns (shift_rows (sub_bytes s))) = 16)
    by (apply length_mix_columns, length_shift_rows;
        rewrite length_sub_bytes; assumption).
  rewrite length_xor_block; lia.
Qed.

Lemma length_final_round (k s : list ascii) :
  length k = 16 -> length s = 16 -> length (final_round k s) = 16.
Proof.
  intros Hk Hs. unfold final_round, add_round_key.
  assert (length (shift_rows (sub_bytes s)) = 16)
    by (apply length_shift_rows; rewrite length_sub_bytes; assumption).
  rewrite length_xor_block; lia.
Qed.

Lemma inv_round_round (k s : list ascii) :
  length k = 16 -> length s = 16 -> inv_round k (round k s) = s.
Proof.
  intros Hk Hs. unfold inv_round, round, add_round_key.
  assert (H1 : length (shift_rows (sub_bytes s)) = 16)
    by (apply length_shift_rows; rewrite length_sub_bytes; assumption).
  rewrite xor_block_cancel
    by (rewrite length_mix_columns; [lia | assumption]).
  rewrite inv_mix_columns_mix_columns by assumption.
  rewrite inv_shift_rows_shift_rows
    by (rewrite length_sub_bytes; assumption).
  apply inv_sub_bytes_sub_bytes.
Qed.

Lemma inv_final_round_final_round (k s : list ascii) :
  length k = 16 -> length s = 16 ->
  inv_final_round k (final_round k s) = s.
Proof.
  intros Hk Hs. unfold inv_final_round, final_round, add_round_key.
  rewrite xor_block_cancel
    by (rewrite length_shift_rows;
        [lia | rewrite length_sub_bytes; assumption]).
  rewrite inv_shift_rows_shift_rows
    by (rewrite length_sub_bytes; assumption).
  apply inv_sub_bytes_sub_bytes.
Qed.

Lemma length_rounds (ks : list (list ascii)) :
  sized 16 ks -> forall s, length s = 16 -> length (rounds ks s) = 16.
Proof.
  induction 1 as [|k ks Hk Hks IH]; intros s Hs; [assumption|].
  destruct ks as [|k' ks'].
  - apply length_final_round; assumption.
  - change (length (rounds (k' :: ks') (round k s)) = 16).
    apply IH, length_round; assumption.
Qed.

Lemma inv_rounds_rounds (ks : list (list ascii)) :
  sized 16 ks -> forall s, length s = 16 -> inv_rounds ks (rounds ks s) = s.
Proof.
  induction 1 as [|k ks Hk Hks IH]; intros s Hs; [reflexivity|].
  destruct ks as [|k' ks'].
  - apply inv_final_round_final_round; assumption.
  - change (inv_round k (inv_rounds (k' :: ks')
                           (rounds (k' :: ks') (round k s))) = s).
    rewrite IH by (apply length_round; assumption).
    apply inv_round_round; assumption.
Qed.

(** The key schedule of a 32-byte key: sixty words of four bytes. *)
Lemma sized_chunks (count size : nat) (l : list ascii) :
  count * size <= length l -> sized size (chunks count size l).
Proof.
  revert l. induction count as [|count IH]; intros l H; [constructor|].
  cbn [chunks]. constructor.
  - apply firstn_length_le. simpl in H. lia.
  - apply IH. rewrite length_skipn. simpl in H. lia.
Qed.

Lemma length_chunks (count size : nat) (l : list ascii) :
  length (chunks count size l) = count.
Proof.
  revert l. induction count as [|count IH]; intros l; [reflexivity|].
  cbn [chunks length]. rewrite IH. reflexivity.
Qed.

Lemma sized_last (n : nat) (ws : list (list ascii)) :
  sized n ws -> ws <> [] -> length (last ws []) = n.
Proof.
  intros H Hne. destruct (exists_last Hne) as (ws' & w & ->).
  rewrite last_last. apply Forall_app in H. destruct H as [_ H].
  inversion H. assumption.
Qed.

Lemma sized_nth (n i : nat) (ws : list (list ascii)) :
  sized n ws -> i < length ws -> length (nth i ws []) = n.
Proof.
  intros H Hi. unfold sized in H. rewrite Forall_forall in H.
  apply H, nth_In. assumption.
Qed.

Lemma length_rot_word (w : list ascii) : length (rot_word w) = length w.
Proof.
  destruct w; [reflexivity|]. simpl. rewrite length_app. simpl. lia.
Qed.

Lemma expand_sized (count : nat) :
  forall i rcon ws,
    sized 4 ws -> 8 <= length ws -> i = length ws ->
    sized 4 (expand count i rcon ws)
    /\ length (expand count i rcon ws) = length ws + count.
Proof.
  induction count as [|count IH]; intros i rcon ws Hs Hl Hi.
  - cbn [expand]. split; [assumption | lia].
  - cbn [expand].
    assert (Ht : length (last ws []) = 4)
      by (apply sized_last;
          [assumption | destruct ws; [simpl in Hl; lia | discriminate]]).
    assert (Hp : length (nth (i - 8) ws []) = 4)
      by (apply sized_nth; [assumption | lia]).
    set (temp := last ws []) in *.
    assert (Hgen : forall t rc, length t = 4 ->
              sized 4 (expand count (S i) rc
                         (ws ++ [xor_block (nth (i - 8) ws []) t]))
              /\ length (expand count (S i) rc
                           (ws ++ [xor_block (nth (i - 8) ws []) t]))
                 = length ws + S count).
    { intros t rc Hlt.
      destruct (IH (S i) rc (ws ++ [xor_block (nth (i - 8) ws []) t]))
        as [H1 H2].
      - apply Forall_app. split; [assumption|].
        constructor; [|constructor]. rewrite length_xor_block; lia.
      - rewrite length_app. simpl. lia.
      - rewrite length_app. simpl. lia.
      - split; [assumption|]. rewrite H2, length_app. simpl. lia. }
    destruct (i mod 8 =? 0).
    + apply Hgen. rewrite length_xor_block.
      * unfold sub_word. rewrite length_map, length_rot_word. assumption.
      * unfold sub_word. rewrite length_map, length_rot_word. assumption.
    + destruct (i mod 8 =? 4).
      * apply Hgen. unfold sub_word. rewrite length_map. assumption.
      * apply Hgen. assumption.
Qed.

Lemma length_concat_sized (n : nat) (l : list (list ascii)) :
  sized n l -> length (concat l) = n * length l.
Proof.
  induction 1 as [|x l Hx Hl IH]; [simpl; lia|].
  cbn [concat length]. rewrite length_app, IH, Hx. lia.
Qed.

Lemma sized_firstn (n k : nat) (l : list (list ascii)) :
  sized n l -> sized n (firstn k l).
Proof.
  intros H. revert k. induction H as [|x l Hx Hl IH]; intros [|k];
    cbn [firstn]; constructor; [assumption | apply IH].
Qed.

Lemma sized_skipn (n k : nat) (l : list (list ascii)) :
  sized n l -> sized n (skipn k l).
Proof.
  intros H. revert k. induction H as [|x l Hx Hl IH]; intros [|k];
    cbn [skipn]; [constructor | constructor | | apply IH].
  constructor; assumption.
Qed.

Lemma round_keys_sized (key : list ascii) :
  length key = 32 -> sized 16 (round_keys key).
Proof.
  intros Hk. unfold round_keys, key_expansion.
  destruct (expand_sized 52 8 one (chunks 8 4 key)) as [Hs Hl].
  - apply sized_chunks. lia.
  - rewrite length_chunks. lia.
  - rewrite length_chunks. reflexivity.
  - rewrite length_chunks in Hl.
    set (w := expand 52 8 one (chunks 8 4 key)) in *.
    unfold sized. rewrite Forall_map, Forall_forall. intros r Hr.
    apply in_seq in Hr.
    rewrite (length_concat_sized 4).
    + rewrite length_firstn, length_skipn. lia.
    + apply sized_firstn, sized_skipn. assumption.
Qed.

Lemma encrypt_block_length (key b : list ascii) :
  length key = 32 -> length b = 16 -> length (encrypt_block key b) = 16.
Proof.
  intros Hk Hb. unfold encrypt_block.
  pose proof (round_keys_sized key Hk) as Hs.
  destruct (round_keys key) as [|k0 ks]; [assumption|].
  inversion Hs; subst.
  apply length_rounds; [assumption|].
  unfold add_round_key. rewrite length_xor_block; lia.
Qed.

Lemma decrypt_block_encrypt_block (key b : list ascii) :
  length key = 32 -> length b = 16 ->
  decrypt_block key (encrypt_block key b) = b.
Proof.
  intros Hk Hb. unfold decrypt_block, encrypt_block.
  pose proof (round_keys_sized key Hk) as Hs.
  destruct (round_keys key) as [|k0 ks]; [reflexivity|].
  inversion Hs; subst.
  rewrite inv_rounds_rounds.
  - unfold add_round_key. apply xor_block_cancel. lia.
  - assumption.
  - unfold add_round_key. rewrite length_xor_block; lia.
Qed.

End AesFacts.

(** ** The credential cipher *)

Section BlockFacts.

Import Encryption.

Lemma pad_amount (n : nat) :
  let k := block_size - n mod block_size in 1 <= k <= block_size.
Proof.
  unfold block_size. pose proof (Nat.mod_upper_bound n 16). lia.
Qed.

Lemma length_pkcs7_pad (m : list ascii) :
  length (pkcs7_pad m) = block_size * (length m / block_size + 1).
Proof.
  unfold pkcs7_pad. rewrite length_app, repeat_length.
  unfold block_size.
  pose proof (Nat.div_mod_eq (length m) 16).
  pose proof (Nat.mod_upper_bound (length m) 16). lia.
Qed.

Lemma forallb_repeat_same (c : ascii) (n : nat) :
  forallb (fun d => if ascii_dec d c then true else false) (repeat c n)
  = true.
Proof.
  induction n as [|n IH]; [reflexivity|]. simpl.
  destruct (ascii_dec c c); [exact IH | congruence].
Qed.

Lemma pkcs7_unpad_pad (m : list ascii) : pkcs7_unpad (pkcs7_pad m) = Some m.
Proof.
  unfold pkcs7_unpad, pkcs7_pad.
  pose proof (pad_amount (length m)) as Hk. cbv zeta in Hk.
  set (k := block_size - length m mod block_size) in *.
  rewrite rev_app_distr, rev_repeat.
  destruct k as [|k'] eqn:Ek; [lia|].
  cbn [repeat app].
  change (ascii_of_nat (S k') :: repeat (ascii_of_nat (S k')) k')
    with (repeat (ascii_of_nat (S k')) (S k')).
  rewrite nat_ascii_embedding by (unfold block_size in Hk; lia).
  rewrite length_app, repeat_length.
  replace (length m + S k' - S k') with (length m) by lia.
  rewrite skipn_app, Nat.sub_diag, skipn_all, firstn_app, Nat.sub_diag,
    firstn_all.
  cbn [skipn firstn app]. rewrite app_nil_r, forallb_repeat_same.
  replace (1 <=? S k') with true by (symmetry; apply Nat.leb_le; lia).
  replace (S k' <=? block_size) with true
    by (symmetry; apply Nat.leb_le; lia).
  replace (S k' <=? length m + S k') with true
    by (symmetry; apply Nat.leb_le; lia).
  reflexivity.
Qed.

End BlockFacts.

Section KeyFacts.

Import Encryption.

Lemma hex_digit_code_unit (c : ascii) :
  is_hex_digit c = true -> code_units c = 1.
Proof.
  destruct c as [[] [] [] [] [] [] [] []]; intros H;
    first [reflexivity | discriminate H].
Qed.

Lemma hex_js_length (s : str) :
  forallb is_hex_digit s = true -> js_length s = length s.
Proof.
  induction s as [|c s IH]; [reflexivity|].
  cbn [forallb js_length fold_right length]. intros H.
  apply andb_prop in H. destruct H as [Hc Hs].
  fold (js_length s). rewrite (IH Hs), (hex_digit_code_unit c Hc).
  reflexivity.
Qed.

Lemma length_fromHex (n : nat) (s : str) :
  length s = 2 * n -> forallb is_hex_digit s = true ->
  length (fromHex s) = n.
Proof.
  revert s. induction n as [|n IH]; intros s Hl Hs.
  - destruct s; [reflexivity | discriminate].
  - destruct s as [|h [|l r]]; try (simpl in Hl; lia).
    cbn [forallb] in Hs.
    apply andb_prop in Hs. destruct Hs as [Hh Hs].
    apply andb_prop in Hs. destruct Hs as [Hl' Hr].
    unfold fromHex. rewrite low_bytes_hex
      by (cbn [forallb]; rewrite Hh, Hl', Hr; reflexivity).
    specialize (IH r). unfold fromHex in IH.
    rewrite (low_bytes_hex r Hr) in IH.
    cbn [hex_pairs]. unfold is_hex_digit in Hh, Hl'.
    destruct (hex_value h); [|discriminate].
    destruct (hex_value l); [|discriminate].
    cbn [length]. f_equal. apply IH; [simpl in Hl; lia | assumption].
Qed.

(** A configured 256-bit key is read as 32 bytes. *)
Lemma getEncryptionKey_valid (ENCRYPTION_KEY : option str) :
  valid_key ENCRYPTION_KEY = true ->
  exists key, getEncryptionKey ENCRYPTION_KEY = Ok key
              /\ length key = key_size.
Proof.
  destruct ENCRYPTION_KEY as [k|]; [|discriminate].
  unfold valid_key. intros H. apply andb_prop in H. destruct H as [Hl Hh].
  apply Nat.eqb_eq in Hl.
  exists (fromHex k). split.
  - unfold getEncryptionKey. destruct k; [discriminate|].
    cbn [falsy]. rewrite (hex_js_length _ Hh), Hl. reflexivity.
  - apply length_fromHex; [rewrite Hl; reflexivity | assumption].
Qed.

End KeyFacts.

Section CipherFacts.

Import Encryption Statements.

Lemma length_cbc_encrypt (key : list ascii) (n : nat) :
  length key = key_size ->
  forall prev m,
    length prev = block_size -> length m = block_size * n ->
    length (cbc_encrypt key n prev m) = block_size * n.
Proof.
  intros Hk. induction n as [|n IH]; intros prev m Hp Hm; [reflexivity|].
  cbn [cbc_encrypt]. rewrite length_app.
  assert (Hf : length (firstn block_size m) = block_size)
    by (apply firstn_length_le; lia).
  assert (Hx : length (xor_block (firstn block_size m) prev) = block_size)
    by (rewrite length_xor_block; lia).
  pose proof (encrypt_block_length key _ Hk Hx) as Hc.
  rewrite Hc, IH.
  - unfold block_size. lia.
  - exact Hc.
  - rewrite length_skipn. lia.
Qed.

Lemma cbc_decrypt_encrypt (key : list ascii) (n : nat) :
  length key = key_size ->
  forall prev m,
    length prev = block_size -> length m = block_size * n ->
    cbc_decrypt key n prev (cbc_encrypt key n prev m)
    = m.
Proof.
  intros Hk. induction n as [|n IH]; intros prev m Hp Hm.
  - destruct m; [reflexivity | simpl in Hm; lia].
  - cbn [cbc_encrypt cbc_decrypt].
    assert (Hf : length (firstn block_size m) = block_size)
      by (apply firstn_length_le; lia).
    assert (Hx : length (xor_block (firstn block_size m) prev) = block_size)
      by (rewrite length_xor_block; lia).
    set (c := Aes.encrypt_block key (xor_block (firstn block_size m) prev)).
    assert (Hc : length c = block_size)
      by (apply encrypt_block_length; assumption).
    rewrite firstn_app, skipn_app, Hc, Nat.sub_diag.
    rewrite (@firstn_all2 _ block_size c), (@skipn_all2 _ block_size c)
      by lia.
    cbn [firstn skipn app]. rewrite app_nil_r.
    unfold c at 1. rewrite decrypt_block_encrypt_block by assumption.
    rewrite xor_block_cancel by lia.
    rewrite IH.
    + apply firstn_skipn.
    + assumption.
    + rewrite length_skipn. lia.
Qed.

(** The cipher text of [text] deciphers to [text]. *)
Lemma decipher_cipher (key iv : list ascii) (text : str) :
  length key = key_size -> length iv = block_size ->
  decipher_run key iv (cipher_run key iv text)
  = Ok text.
Proof.
  intros Hk Hiv. unfold decipher_run, cipher_run.
  pose proof (length_pkcs7_pad text) as Hpad.
  set (m := pkcs7_pad text) in *.
  set (n := length text / block_size + 1) in *.
  assert (Hn : length m / block_size = n).
  { rewrite Hpad, Nat.mul_comm. apply Nat.div_mul. discriminate. }
  rewrite Hn.
  pose proof (length_cbc_encrypt key n Hk iv m Hiv Hpad) as Hct.
  set (ct := cbc_encrypt key n iv m) in *.
  rewrite (plain_js_length _ (toHex_plain ct)), length_toHex.
  replace (Nat.odd (2 * length ct)) with false
    by (rewrite <- Nat.negb_even, Nat.even_even; reflexivity).
  rewrite fromHex_toHex, Hct.
  replace (block_size * n =? 0) with false
    by (symmetry; apply Nat.eqb_neq; unfold block_size, n; lia).
  replace ((block_size * n) mod block_size) with 0
    by (rewrite Nat.mul_comm, Nat.Div0.mod_mul; reflexivity).
  rewrite Nat.mul_comm, Nat.div_mul by discriminate.
  cbn [Nat.eqb negb orb]. unfold ct.
  rewrite (cbc_decrypt_encrypt key n Hk iv m Hiv Hpad).
  unfold m. rewrite pkcs7_unpad_pad. reflexivity.
Qed.

(** The stored form splits at its colon into the two hexadecimal parts. *)
Lemma split_stored_form (a b : list ascii) :
  split (lit ":") (toHex a ++ lit ":" ++ toHex b) = [toHex a; toHex b].
Proof.
  apply (split_char_once ":"%char);
    apply plain_no_colon, toHex_plain.
Qed.

(** With a valid key and a 16-byte initialization vector [encrypt]
    returns the stored form. *)
Lemma encrypt_returns (ENCRYPTION_KEY : option str) (iv : list ascii)
    (text : str) :
  valid_key ENCRYPTION_KEY = true -> length iv = block_size ->
  exists key,
    getEncryptionKey ENCRYPTION_KEY = Ok key /\ length key = key_size /\
    encrypt ENCRYPTION_KEY iv text
    = Ok (toHex iv ++ lit ":" ++ cipher_run key iv text).
Proof.
  intros Hkey Hiv.
  destruct (getEncryptionKey_valid _ Hkey) as (key & Hget & Hlen).
  exists key. repeat split; try assumption.
  unfold encrypt. rewrite Hget. cbn [Js.bind].
  unfold createCipheriv. rewrite Hiv, Hlen. reflexivity.
Qed.

(** C5. For every plaintext, the empty one included, every valid 256-bit
    key and every 16-byte initialization vector, [encrypt] returns a
    cipher text and [decrypt] of that cipher text under the same key
    returns the plaintext. *)
Theorem encryption_round_trip (ENCRYPTION_KEY : option str) (iv : list ascii)
    (x : str) :
  valid_key ENCRYPTION_KEY = true -> length iv = block_size ->
  exists c,
    encrypt ENCRYPTION_KEY iv x = Ok c /\
    decrypt ENCRYPTION_KEY c = Ok x.
Proof.
  intros Hkey Hiv.
  destruct (encrypt_returns ENCRYPTION_KEY iv x Hkey Hiv)
    as (key & Hget & Hlen & Henc).
  eexists. split; [exact Henc|].
  unfold decrypt, cipher_run. rewrite split_stored_form.
  rewrite fromHex_toHex, Hget. cbn [Js.bind].
  unfold createCipheriv. rewrite Hiv, Hlen. cbn [Nat.eqb negb Js.bind].
  change (Nat.eqb block_size block_size) with true.
  change (Nat.eqb key_size key_size) with true. cbn [negb].
  apply decipher_cipher; assumption.
Qed.

End CipherFacts.

Section CipherClaims.

Import Encryption Samples Statements.

Lemma encryption_round_trip_witness :
  valid_key test_key = true /\ length test_iv = block_size /\
  exists c,
    encrypt test_key test_iv (lit "hello") = Ok c /\
    decrypt test_key c = Ok (lit "hello").
Proof.
  split; [reflexivity|]. split; [reflexivity|].
  apply encryption_round_trip; reflexivity.
Defined.

Example encrypt_hello :
  encrypt test_key test_iv (lit "hello") = Ok stored_hello.
Proof. vm_compute. reflexivity. Qed.

Example decrypt_hello : decrypt test_key stored_hello = Ok (lit "hello").
Proof. vm_compute. reflexivity. Qed.

Example encrypt_empty_round_trip :
  (c <- encrypt test_key test_iv [] ;; decrypt test_key c) = Ok [].
Proof. vm_compute. reflexivity. Qed.

Lemma app_eq_length_inv (a b x y : str) :
  a ++ x = b ++ y -> length a = length b -> a = b.
Proof.
  revert b. induction a as [|c a IH]; intros [|d b] H Hl;
    try discriminate; [reflexivity|].
  injection H as -> H. injection Hl as Hl. f_equal. eauto.
Qed.

(** C9. For every plaintext and every valid key, two runs of [encrypt]
    whose freshly drawn 16-byte initialization vectors differ both
    return, and return different cipher texts. *)
Theorem encrypt_fresh_iv_differs (ENCRYPTION_KEY : option str)
    (iv1 iv2 : list ascii) (p : str) :
  valid_key ENCRYPTION_KEY = true ->
  length iv1 = block_size -> length iv2 = block_size ->
  iv1 <> iv2 ->
  exists c1 c2,
    encrypt ENCRYPTION_KEY iv1 p = Ok c1 /\
    encrypt ENCRYPTION_KEY iv2 p = Ok c2 /\
    c1 <> c2.
Proof.
  intros Hkey H1 H2 Hne.
  destruct (encrypt_returns ENCRYPTION_KEY iv1 p Hkey H1)
    as (k1 & _ & _ & E1).
  destruct (encrypt_returns ENCRYPTION_KEY iv2 p Hkey H2)
    as (k2 & _ & _ & E2).
  do 2 eexists. split; [exact E1|]. split; [exact E2|].
  intros Heq. apply Hne, toHex_inj.
  apply (app_eq_length_inv _ _ _ _ Heq).
  rewrite !length_toHex. congruence.
Qed.

Lemma encrypt_fresh_iv_differs_witness :
  valid_key test_key = true /\
  length test_iv = block_size /\ length other_iv = block_size /\
  test_iv <> other_iv /\
  exists c1 c2,
    encrypt test_key test_iv (lit "hello") = Ok c1 /\
    encrypt test_key other_iv (lit "hello") = Ok c2 /\
    c1 <> c2.
Proof.
  assert (Hne : test_iv <> other_iv) by discriminate.
  repeat (split; [first [reflexivity | exact Hne]|]).
  apply encrypt_fresh_iv_differs; first [reflexivity | exact Hne].
Defined.

(** The claim C6 as the specification words it fails on
    [tampered_hello]: its first segment is not valid hexadecimal, yet
    [decrypt] returns the plaintext, because [Buffer.from(..., 'hex')]
    stops at the first pair that is not two digits instead of failing. *)
Lemma decrypt_accepts_tampered_segment :
  forallb valid_hex (split (lit ":") tampered_hello) = false /\
  decrypt test_key tampered_hello = Ok (lit "hello") /\
  ~ throws (decrypt test_key tampered_hello).
Proof.
  assert (E : decrypt test_key tampered_hello = Ok (lit "hello"))
    by (vm_compute; reflexivity).
  split; [vm_compute; reflexivity|]. split; [exact E|].
  intros [e He]. rewrite E in He. discriminate.
Qed.

(** The acceptance is general: whatever follows the thirty-two digits of
    the first segment, here ["zz"], is ignored. *)
Lemma decrypt_ignores_tail_of_iv_segment (ENCRYPTION_KEY : option str)
    (iv : list ascii) (x : str) :
  valid_key ENCRYPTION_KEY = true -> length iv = block_size ->
  exists key,
    getEncryptionKey ENCRYPTION_KEY = Ok key /\
    decrypt ENCRYPTION_KEY
      ((toHex iv ++ lit "zz") ++ lit ":" ++ cipher_run key iv x)
    = Ok x.
Proof.
  intros Hkey Hiv.
  destruct (getEncryptionKey_valid _ Hkey) as (key & Hget & Hlen).
  exists key. split; [assumption|].
  assert (Hs : split (lit ":")
                 ((toHex iv ++ lit "zz") ++ lit ":" ++ cipher_run key iv x)
               = [toHex iv ++ lit "zz"; cipher_run key iv x]).
  { apply (split_char_once ":"%char).
    - intros Hin. apply in_app_or in Hin. destruct Hin as [Hin|Hin].
      + exact (plain_no_colon _ (toHex_plain iv) Hin).
      + simpl in Hin. intuition discriminate.
    - apply plain_no_colon, toHex_plain. }
  unfold decrypt. rewrite Hs, fromHex_toHex_app.
  change (fromHex (lit "zz")) with (@nil ascii).
  rewrite app_nil_r, Hget. cbn [Js.bind].
  unfold createCipheriv. rewrite Hiv, Hlen.
  change (Nat.eqb block_size block_size) with true.
  change (Nat.eqb key_size key_size) with true. cbn [negb Js.bind].
  apply decipher_cipher; assumption.
Qed.

Ltac thrown := eexists; reflexivity.

(** C6, amended. [decrypt] fails on every malformed input: one that does
    not split at [":"] into exactly two segments, one whose first
    segment does not decode to sixteen bytes, one whose second segment
    has odd length or decodes to no or to a broken number of blocks, and
    one whose padding is wrong after decryption; under a valid key it
    fails on no other input.  A segment is decoded as the platform does
    it: pair by pair, reading the low byte of every UTF-16 code unit, up
    to the first pair that is not two hexadecimal digits, so that a
    segment is not refused for holding other characters.  In particular
    [decrypt("invalid-format")] and [decrypt("abc:def")] fail. *)
Theorem decrypt_rejects_malformed :
  (forall ENCRYPTION_KEY c,
      malformed ENCRYPTION_KEY c -> throws (decrypt ENCRYPTION_KEY c)) /\
  (forall ENCRYPTION_KEY c,
      valid_key ENCRYPTION_KEY = true ->
      throws (decrypt ENCRYPTION_KEY c) -> malformed ENCRYPTION_KEY c) /\
  (forall ENCRYPTION_KEY,
      throws (decrypt ENCRYPTION_KEY (lit "invalid-format")) /\
      throws (decrypt ENCRYPTION_KEY (lit "abc:def"))).
Proof.
  split; [|split].
  - intros K c H. unfold malformed in H. unfold decrypt.
    destruct (split (lit ":") c) as [|p0 [|p1 [|p2 l]]]; try thrown.
    destruct (getEncryptionKey K) as [key|e] eqn:Hget; [|thrown].
    cbn [Js.bind]. unfold createCipheriv.
    destruct (length (fromHex p0) =? block_size) eqn:E0; [|thrown].
    destruct (length key =? key_size); [|thrown].
    cbn [negb Js.bind]. unfold decipher_run.
    destruct (Nat.odd (js_length p1)) eqn:E1; [thrown|].
    destruct (length (fromHex p1) =? 0) eqn:E2; [thrown|].
    destruct (length (fromHex p1) mod block_size =? 0) eqn:E3; [|thrown].
    cbn [negb orb].
    destruct (pkcs7_unpad _) eqn:E4; [|thrown].
    exfalso. apply Nat.eqb_eq in E0, E3. apply Nat.eqb_neq in E2.
    destruct H as [H|[H|[H|[H|(key' & Hk & H)]]]]; congruence.
  - intros K c Hkey [e He]. unfold malformed. unfold decrypt in He.
    destruct (getEncryptionKey_valid _ Hkey) as (key & Hget & Hlen).
    destruct (split (lit ":") c) as [|p0 [|p1 [|p2 l]]]; try exact I.
    rewrite Hget in He. cbn [Js.bind] in He. unfold createCipheriv in He.
    destruct (Nat.eq_dec (length (fromHex p0)) block_size) as [E0|E0];
      [|left; exact E0].
    right. rewrite E0, Hlen in He.
    change (Nat.eqb block_size block_size) with true in He.
    change (Nat.eqb key_size key_size) with true in He.
    cbn [negb Js.bind] in He. unfold decipher_run in He.
    destruct (Nat.odd (js_length p1)) eqn:E1; [left; reflexivity|].
    right.
    destruct (length (fromHex p1) =? 0) eqn:E2;
      [left; apply Nat.eqb_eq; exact E2|].
    right.
    destruct (length (fromHex p1) mod block_size =? 0) eqn:E3;
      [|left; apply Nat.eqb_neq; exact E3].
    right. cbn [negb orb] in He. exists key. split; [assumption|].
    destruct (pkcs7_unpad _); [discriminate He | reflexivity].
  - intros K. split; [thrown|].
    unfold decrypt.
    replace (split (lit ":") (lit "abc:def")) with [lit "abc"; lit "def"]
      by reflexivity.
    destruct (getEncryptionKey K); thrown.
Qed.

Lemma decrypt_rejects_malformed_witness :
  malformed test_key (lit "abc:def") /\
  throws (decrypt test_key (lit "abc:def")).
Proof.
  assert (H : malformed test_key (lit "abc:def"))
    by (left; vm_compute; discriminate).
  split; [exact H|].
  exact (proj1 decrypt_rejects_malformed test_key (lit "abc:def") H).
Defined.

End CipherClaims.

(** ** The signature verifier *)

Section SignatureFacts.

Import Facebook Samples Statements.

Lemma hex_digit_not_s (h : str) :
  forallb plain_hex h = true -> ~ In "s"%char h.
Proof.
  intros H Hin. apply plain_valid_hex in H.
  rewrite forallb_forall in H. specialize (H _ Hin). discriminate.
Qed.

Lemma digest_nonempty (s : Sha256.state) : Sha256.digest s <> [].
Proof. unfold Sha256.digest, Sha256.bytes_of_word. discriminate. Qed.

(** The expected signature: hexadecimal digits, at least one. *)
Lemma hmac_sha256_hex_plain (secret body : str) :
  forallb plain_hex (hmac_sha256_hex secret body) = true.
Proof. apply toHex_plain. Qed.

Lemma hmac_sha256_hex_nonempty (secret body : str) :
  falsy (hmac_sha256_hex secret body) = false.
Proof.
  unfold hmac_sha256_hex, Sha256.hmac, Sha256.sha256.
  match goal with
  | |- falsy (toHex (Sha256.digest ?s)) = false =>
      pose proof (digest_nonempty s) as H;
      destruct (Sha256.digest s); [contradiction | reflexivity]
  end.
Qed.

Lemma timingSafeEqual_same (h : str) : timingSafeEqual h h = Ok true.
Proof.
  unfold timingSafeEqual. rewrite Nat.eqb_refl, str_eqb_refl. reflexivity.
Qed.

Lemma timingSafeEqual_true (a b : str) :
  match timingSafeEqual a b with Ok r => r | Throw _ => false end = true
  <-> a = b.
Proof.
  unfold timingSafeEqual. split.
  - destruct (length a =? length b); cbn [negb]; [|discriminate].
    apply str_eqb_eq.
  - intros ->. rewrite Nat.eqb_refl, str_eqb_refl. reflexivity.
Qed.

(** The pieces of a header made of [prefix], ["sha256="] and a string
    without the letter [s], when [prefix] has no [s] either. *)
Lemma split_signature (prefix h : str) :
  ~ In "s"%char prefix -> ~ In "s"%char h ->
  split (lit "sha256=") (prefix ++ lit "sha256=" ++ h) = [prefix; h].
Proof.
  intros Hp Hh. unfold split. cbn [lit list_ascii_of_string].
  assert (G : forall cur,
             split_go (lit "sha256=") 0 cur (prefix ++ lit "sha256=" ++ h)
             = [rev cur ++ prefix; h]).
  { induction prefix as [|d prefix IH]; intros cur.
    - cbn [app lit list_ascii_of_string split_go startsWith length Nat.sub].
      repeat (match goal with
              | |- context [ascii_dec ?a ?a] =>
                  destruct (ascii_dec a a); [|congruence]
              end).
      rewrite app_nil_r.
      rewrite (split_go_absent "s"%char _ [] h Hh). reflexivity.
    - cbn [app lit list_ascii_of_string split_go].
      rewrite startsWith_head.
      + rewrite IH.
        * simpl. rewrite <- app_assoc. reflexivity.
        * intros Hin. apply Hp. right. assumption.
      + intros E. apply Hp. left. symmetry. exact E. }
  apply (G []).
Qed.

(** A header of the exact form [sha256=<hex>] verifies exactly when
    [<hex>] is the expected signature; a digest of another length is a
    mismatch like any other. *)
Lemma verify_exact_form (h body secret : str) :
  ~ In "s"%char h ->
  verifyWebhookSignature (Some (lit "sha256=" ++ h)) body secret = true
  <-> h = hmac_sha256_hex secret body.
Proof.
  intros Hh. unfold verifyWebhookSignature.
  assert (F : falsy (lit "sha256=" ++ h) = false) by reflexivity.
  pose proof (split_signature [] h (fun x => x) Hh) as Hs.
  cbn [app] in Hs. rewrite F, Hs. cbn [nth_error].
  split.
  - destruct (falsy h); [discriminate|]. apply timingSafeEqual_true.
  - intros ->. rewrite hmac_sha256_hex_nonempty.
    apply timingSafeEqual_true. reflexivity.
Qed.

(** The header that the platform sends is accepted. *)
Lemma verify_correct_signature (body secret : str) :
  verifyWebhookSignature
    (Some (lit "sha256=" ++ hmac_sha256_hex secret body)) body secret
  = true.
Proof.
  apply verify_exact_form; [|reflexivity].
  apply hex_digit_not_s, hmac_sha256_hex_plain.
Qed.

Lemma verify_missing (body secret : str) :
  verifyWebhookSignature None body secret = false /\
  verifyWebhookSignature (Some []) body secret = false.
Proof. split; reflexivity. Qed.

(** A header in which ["sha256="] does not occur is refused. *)
Lemma verify_wrong_prefix (sig body secret : str) :
  ~ In "s"%char sig ->
  verifyWebhookSignature (Some sig) body secret = false.
Proof.
  intros H. unfold verifyWebhookSignature.
  destruct (falsy sig); [reflexivity|].
  unfold split. cbn [lit list_ascii_of_string].
  rewrite (split_go_absent "s"%char _ [] sig H). reflexivity.
Qed.

(** C3, at the failing input.  The header [Xsha256=<hex>], with a
    character before the prefix, is accepted for every body and secret
    when [<hex>] is the expected signature: [split('sha256=')[1]] takes
    what follows the first occurrence of the prefix, wherever it is. *)
Theorem verify_accepts_leading_character (body secret : str) :
  verifyWebhookSignature
    (Some (lit "X" ++ lit "sha256=" ++ hmac_sha256_hex secret body))
    body secret
  = true.
Proof.
  unfold verifyWebhookSignature.
  assert (F : forall s, falsy (lit "X" ++ s) = false) by reflexivity.
  rewrite F, (split_signature (lit "X")).
  - cbn [nth_error]. rewrite hmac_sha256_hex_nonempty.
    rewrite timingSafeEqual_same. reflexivity.
  - simpl. intuition discriminate.
  - apply hex_digit_not_s, hmac_sha256_hex_plain.
Qed.

(** The second test case of RFC 4231. *)
Example hmac_sha256_rfc4231 :
  hmac_sha256_hex (lit "Jefe") (lit "what do ya want for nothing?")
  = lit "5bdcc146bf60754e6a042426089575c75a003f089d2739839dec58b964ec3843".
Proof. vm_compute. reflexivity. Qed.

Example verify_test_request :
  hmac_sha256_hex test_secret test_body = test_digest /\
  verifyWebhookSignature (Some (lit "sha256=" ++ test_digest))
    test_body test_secret = true /\
  verifyWebhookSignature (Some (lit "Xsha256=" ++ test_digest))
    test_body test_secret = true /\
  verifyWebhookSignature
    (Some (lit "sha256=" ++ test_digest ++ lit "sha256=tail"))
    test_body test_secret = true /\
  verifyWebhookSignature (Some (lit "sha256=" ++ test_digest))
    (lit "{}") test_secret = false /\
  verifyWebhookSignature (Some (lit "sha256=invalid_signature_hash"))
    test_body test_secret = false /\
  verifyWebhookSignature (Some (lit "invalid_format_signature"))
    test_body test_secret = false.
Proof. vm_compute. repeat split. Qed.

End SignatureFacts.

(** ** The delivery client *)

Section SendFacts.

Import Facebook Samples Statements.

Variable fetch : nat -> FetchResult.
Variables pageAccessToken recipientId messageText : str.

Local Notation "'CALL' n" :=
  (Fetch n pageAccessToken recipientId messageText)
  (at level 10, n at level 9, only parsing).

Local Notation "'RUN'" :=
  (sendMessage fetch pageAccessToken recipientId messageText)
  (only parsing).

(** The status of a response decides its bucket. *)
Lemma response_ok_succeeds (r : Response) :
  ok r = true -> json r = Ok JsonValue -> succeeds (Fulfilled r).
Proof.
  intros H J. unfold succeeds, attempt_once. rewrite H, J. reflexivity.
Qed.

(** A response that is [ok] whose body does not parse is a failure
    without a status. *)
Lemma response_unparseable (r : Response) (e : Error) :
  ok r = true -> json r = Throw e -> attempt_once (Fulfilled r) = Throw e.
Proof.
  intros H J. unfold attempt_once. rewrite H, J. reflexivity.
Qed.

(** An attempt succeeds on a parsed body of a response that is [ok],
    and on nothing else. *)
Lemma succeeds_inv (f : FetchResult) :
  attempt_once f = Ok tt ->
  exists r, f = Fulfilled r /\ ok r = true /\ json r = Ok JsonValue.
Proof.
  destruct f as [r|reason]; [|discriminate]. unfold attempt_once.
  destruct (ok r) eqn:Hok; cbn [negb]; [|discriminate].
  destruct (json r) as [[]|] eqn:Hj; try discriminate.
  intros _. exists r. auto.
Qed.

Lemma response_4xx_permanent (r : Response) :
  (400 <= status r < 500)%Z -> permanent (Fulfilled r) (api_error r).
Proof.
  intros H. unfold permanent, attempt_once, ok, is_client_error.
  cbn [api_error Js.status].
  replace (status r <=? 299)%Z with false by (symmetry; apply Z.leb_gt; lia).
  rewrite andb_false_r. cbn [negb]. split; [reflexivity|].
  apply andb_true_intro. split; [apply Z.leb_le | apply Z.ltb_lt]; lia.
Qed.

Lemma response_other_transient (r : Response) :
  ok r = false -> ~ (400 <= status r < 500)%Z ->
  transient (Fulfilled r) (api_error r).
Proof.
  intros Hok H. unfold transient, attempt_once, is_client_error.
  rewrite Hok. cbn [negb api_error Js.status]. split; [reflexivity|].
  destruct (400 <=? status r)%Z eqn:E1; [|reflexivity].
  destruct (status r <? 500)%Z eqn:E2; [|reflexivity].
  apply Z.leb_le in E1. apply Z.ltb_lt in E2. lia.
Qed.

Lemma rejected_transient (reason : str) :
  transient (Rejected reason) (mkError reason None).
Proof. split; reflexivity. Qed.

(** One attempt that succeeds or fails for good ends the run. *)
Lemma send_first_succeeds :
  succeeds (fetch 0) -> RUN = ([CALL 0], Ok tt).
Proof.
  unfold succeeds, sendMessage. cbn [send_loop maxRetries Nat.add].
  intros ->. reflexivity.
Qed.

Lemma send_first_permanent (e : Error) :
  permanent (fetch 0) e -> RUN = ([CALL 0], Throw e).
Proof.
  unfold permanent, sendMessage. cbn [send_loop maxRetries Nat.add].
  intros [-> ->]. reflexivity.
Qed.

(** After a transient failure of the first attempt the run waits
    [2^0 * 1000] ms and goes on with the second, and last, attempt. *)
Lemma send_first_transient (e : Error) :
  transient (fetch 0) e ->
  RUN = (CALL 0 :: Sleep 1000 :: CALL 1 :: [],
         match attempt_once (fetch 1) with
         | Ok _ => Ok tt
         | Throw e1 => Throw e1
         end).
Proof.
  unfold transient, sendMessage. cbn [send_loop maxRetries Nat.add].
  intros [-> ->]. cbn [Nat.ltb Nat.leb app].
  destruct (attempt_once (fetch 1)) as [[]|e1]; [reflexivity|].
  destruct (is_client_error e1); reflexivity.
Qed.

(** At whatever attempt it comes, a permanent failure is rethrown at
    once: no pause, no further call. *)
Lemma send_loop_permanent (remaining attempt : nat)
    (lastError : option Error) (e : Error) :
  permanent (fetch attempt) e ->
  send_loop fetch pageAccessToken recipientId messageText
    maxRetries (S remaining) attempt lastError
  = ([CALL attempt], Throw e).
Proof. unfold permanent. cbn [send_loop]. intros [-> ->]. reflexivity. Qed.

(** C2, amended.  A response whose status lies in 400..499, be it 401,
    403 or 429, ends the run at once, at whatever attempt it comes,
    without a retry and with an error that carries the status; a first
    attempt that fails in any other way (another status outside
    200..299, or a rejected [fetch]) is followed by a second attempt. *)
Theorem send_classification :
  (forall remaining attempt lastError r,
     fetch attempt = Fulfilled r -> (400 <= status r < 500)%Z ->
     send_loop fetch pageAccessToken recipientId messageText
       maxRetries (S remaining) attempt lastError
     = ([CALL attempt], Throw (api_error r))) /\
  (forall r, fetch 0 = Fulfilled r -> (400 <= status r < 500)%Z ->
     RUN = ([CALL 0], Throw (api_error r))
     /\ Js.status (api_error r) = Some (status r)
     /\ calls (fst RUN) = 1 /\ sleeps (fst RUN) = []) /\
  (forall e, transient (fetch 0) e ->
     exists r, RUN = ([CALL 0; Sleep 1000; CALL 1], r)
               /\ calls (fst RUN) = 2) /\
  (forall r, fetch 0 = Fulfilled r -> ok r = false ->
     ~ (400 <= status r < 500)%Z -> transient (fetch 0) (api_error r)) /\
  (forall reason, fetch 0 = Rejected reason ->
     transient (fetch 0) (mkError reason None)).
Proof.
  split; [|split; [|split; [|split]]].
  - intros remaining attempt lastError r Hr Hs.
    apply send_loop_permanent. rewrite Hr.
    apply response_4xx_permanent. assumption.
  - intros r Hr Hs.
    assert (E : RUN = ([CALL 0], Throw (api_error r))).
    { apply send_first_permanent. rewrite Hr.
      apply response_4xx_permanent. assumption. }
    rewrite E. repeat split.
  - intros e He. eexists. rewrite (send_first_transient e He).
    split; reflexivity.
  - intros r Hr Hok Hs. rewrite Hr.
    apply response_other_transient; assumption.
  - intros reason Hr. rewrite Hr. apply rejected_transient.
Qed.

(** C7, amended.  When the first attempt fails transiently there are
    exactly two calls of [fetch], with one pause of 1000 ms
    ([2^0 * 1000]) between them and none after; the run then fails with
    the error of the second attempt if that one fails, whatever the
    failure, and it succeeds exactly when the second attempt returns a
    2xx response whose body parses as JSON, to a value other than
    [null]: a 2xx response whose body does not parse is a failure of the
    attempt like a rejected [fetch]. *)
Theorem send_retry_budget (e0 : Error) :
  transient (fetch 0) e0 ->
  fst RUN = [CALL 0; Sleep (2 ^ 0 * 1000); CALL 1]
  /\ calls (fst RUN) = 2 /\ sleeps (fst RUN) = [1000%Z]
  /\ (forall e1, attempt_once (fetch 1) = Throw e1 -> snd RUN = Throw e1)
  /\ (forall r, fetch 1 = Fulfilled r -> ok r = true ->
                json r = Ok JsonValue -> snd RUN = Ok tt)
  /\ (forall r e1, fetch 1 = Fulfilled r -> ok r = true ->
                   json r = Throw e1 -> snd RUN = Throw e1)
  /\ (snd RUN = Ok tt ->
      exists r, fetch 1 = Fulfilled r /\ ok r = true
                /\ json r = Ok JsonValue).
Proof.
  intros H0. rewrite (send_first_transient e0 H0). cbn [fst snd].
  split; [reflexivity|]. split; [reflexivity|]. split; [reflexivity|].
  split; [|split; [|split]].
  - intros e1 ->. reflexivity.
  - intros r Hr Hok Hj. rewrite Hr.
    rewrite (response_ok_succeeds r Hok Hj). reflexivity.
  - intros r e1 Hr Hok Hj. rewrite Hr.
    rewrite (response_unparseable r e1 Hok Hj). reflexivity.
  - intros H. apply succeeds_inv.
    destruct (attempt_once (fetch 1)) as [[]|]; [reflexivity|discriminate].
Qed.

(** No run makes more than two calls. *)
Lemma send_at_most_two_calls : calls (fst RUN) <= 2.
Proof.
  unfold sendMessage. cbn [send_loop maxRetries Nat.add].
  destruct (attempt_once (fetch 0)) as [[]|e0]; [cbn; lia|].
  destruct (is_client_error e0); [cbn; lia|].
  cbn [Nat.ltb Nat.leb app].
  destruct (attempt_once (fetch 1)) as [[]|e1]; [cbn; lia|].
  destruct (is_client_error e1); cbn; lia.
Qed.

End SendFacts.

Section SendExamples.

Import Facebook Samples Statements.


(** The claim C2 as the specification words it fails on a response 429:
    the run makes one call, does not wait, and throws the error that
    carries 429. *)
Lemma rate_limit_is_not_retried :
  calls (fst (send (always 429 "Rate limit exceeded"))) = 1 /\
  sleeps (fst (send (always 429 "Rate limit exceeded"))) = [] /\
  snd (send (always 429 "Rate limit exceeded"))
  = Throw (mkError
             (lit "Facebook Send API error (429): Rate limit exceeded")
             (Some 429%Z)).
Proof. vm_compute. repeat split. Qed.

Lemma send_classification_witness :
  (400 <= status rate_limited < 500)%Z /\
  send (always 429 "Rate limit exceeded")
  = ([Fetch 0 test_token test_recipient test_message],
     Throw (api_error rate_limited)).
Proof.
  assert (H : (400 <= status rate_limited < 500)%Z) by (cbn; lia).
  split; [exact H|].
  exact (proj1 (proj1 (proj2 (send_classification
                                (always 429 "Rate limit exceeded")
                                test_token test_recipient test_message))
                  rate_limited eq_refl H)).
Defined.

Lemma send_retry_budget_witness :
  transient (always 500 "Internal server error" 0)
            (api_error server_error) /\
  calls (fst (send (always 500 "Internal server error"))) = 2 /\
  snd (send (always 500 "Internal server error"))
  = Throw (api_error server_error).
Proof.
  assert (H : transient (always 500 "Internal server error" 0)
                        (api_error server_error))
    by (split; reflexivity).
  split; [exact H|].
  pose proof (send_retry_budget (always 500 "Internal server error")
                test_token test_recipient test_message
                (api_error server_error) H) as (_ & Hc & _ & Hf & _).
  split; [exact Hc|]. apply Hf. reflexivity.
Defined.

(** The claim C7 as the specification words it fails on a second
    attempt that returns 200 with a body that is not JSON: the two calls
    are made, and the run throws the error of [response.json()]. *)
Lemma unparseable_2xx_is_not_a_success :
  transient (first_then (Fulfilled server_error) 200 "OK" 0)
            (api_error server_error) /\
  first_then (Fulfilled server_error) 200 "OK" 1 = Fulfilled plain_ok /\
  ok plain_ok = true /\
  send (first_then (Fulfilled server_error) 200 "OK")
  = ([Fetch 0 test_token test_recipient test_message; Sleep 1000;
      Fetch 1 test_token test_recipient test_message],
     Throw (error "Unexpected token in JSON")).
Proof. vm_compute. repeat split. Qed.

(** The scenarios of the test suite. *)
Example send_500_then_200 :
  send (first_then (Fulfilled server_error) 200 "{}")
  = ([Fetch 0 test_token test_recipient test_message; Sleep 1000;
      Fetch 1 test_token test_recipient test_message], Ok tt).
Proof. vm_compute. reflexivity. Qed.

Example send_401_403 :
  calls (fst (send (always 401 "Invalid OAuth access token"))) = 1 /\
  calls (fst (send (always 403 "Permission denied"))) = 1.
Proof. vm_compute. split; reflexivity. Qed.

Example send_network_error_then_200 :
  send (first_then (Rejected (lit "fetch failed")) 200 "{}")
  = ([Fetch 0 test_token test_recipient test_message; Sleep 1000;
      Fetch 1 test_token test_recipient test_message], Ok tt).
Proof. vm_compute. reflexivity. Qed.

End SendExamples.

(** ** The response classifier *)

Section ClassifierFacts.

Import ChatbotUtils Samples Statements.

Lemma trim_nonempty_not_falsy (s : str) : trim s <> [] -> falsy s = false.
Proof. destruct s; [intros H; exfalso; apply H|]; reflexivity. Qed.

Lemma length_eqb_0 (s : str) : s <> [] -> (length s =? 0) = false.
Proof. destruct s; [congruence | reflexivity]. Qed.

Lemma find_name_is (n : str) (catalog : list ProductContext)
    (p : ProductContext) :
  find (name_is n) catalog = Some p -> name p = n /\ In p catalog.
Proof.
  intros H. apply find_some in H. destruct H as [Hin Hn].
  split; [apply str_eqb_eq; exact Hn | exact Hin].
Qed.

Lemma find_name_is_none (n : str) (catalog : list ProductContext) :
  (forall p, In p catalog -> name p <> n) ->
  find (name_is n) catalog = None.
Proof.
  intros H. destruct (find (name_is n) catalog) as [p|] eqn:E;
    [|reflexivity].
  apply find_name_is in E. destruct E as [E Hin].
  exfalso. exact (H p Hin E).
Qed.

(** *** What the regular expression extracts *)

Lemma single_line_skipn (k : nat) (s : str) :
  single_line s = true -> single_line (skipn k s) = true.
Proof.
  revert s. induction k as [|k IH]; intros s H; [exact H|].
  destruct s as [|c s]; [reflexivity|]. cbn [skipn]. apply IH.
  cbn [single_line] in H.
  destruct (strip_one line_terminators (c :: s)); [discriminate | exact H].
Qed.

Lemma single_line_dot_run (s : str) : single_line s = true -> dot_run s = s.
Proof.
  induction s as [|c s IH]; [reflexivity|]. cbn [single_line dot_run].
  destruct (strip_one line_terminators (c :: s)); [discriminate|].
  intros H. rewrite (IH H). reflexivity.
Qed.

(** A line terminator is white space. *)
Lemma strip_one_in (encs : list str) (e s : str) :
  In e encs -> startsWith s e = true -> strip_one encs s <> None.
Proof.
  induction encs as [|e' encs IH]; [intros []|].
  intros [->|Hin] Hs; cbn [strip_one].
  - rewrite Hs. discriminate.
  - destruct (startsWith s e'); [discriminate | exact (IH Hin Hs)].
Qed.

Lemma strip_one_some (encs : list str) (s r : str) :
  strip_one encs s = Some r -> exists e, In e encs /\ s = e ++ r.
Proof.
  induction encs as [|e' encs IH]; [discriminate|]. cbn [strip_one].
  destruct (startsWith s e') eqn:E.
  - intros [= <-]. exists e'. split; [left; reflexivity|].
    destruct (startsWith_inv _ _ E) as [r ->].
    rewrite skipn_app, skipn_all, Nat.sub_diag. reflexivity.
  - intros H. destruct (IH H) as (e & Hin & ->). exists e.
    split; [right; assumption | reflexivity].
Qed.

Lemma line_terminator_is_white_space (s : str) :
  strip_one white_space s = None -> strip_one line_terminators s = None.
Proof.
  intros H. destruct (strip_one line_terminators s) as [r|] eqn:E;
    [|reflexivity].
  destruct (strip_one_some _ _ _ E) as (e & Hin & ->).
  exfalso.
  apply (strip_one_in white_space e (e ++ r));
    [|apply startsWith_app|exact H].
  destruct Hin as [<-|[<-|[<-|[<-|[]]]]];
    repeat (first [left; reflexivity | right]).
Qed.

(** The group is the part of the string before its first line
    terminator. *)
Lemma dot_run_first_line (s line : str) :
  first_line_of s line -> dot_run s = line.
Proof.
  intros (tail & -> & Hin & Ht). induction line as [|c line IH].
  - destruct tail as [|c tail]; [reflexivity|]. cbn [app dot_run].
    destruct Ht as [Ht|Ht]; [discriminate|].
    destruct (strip_one line_terminators (c :: tail));
      [reflexivity | contradiction].
  - pose proof (Hin 0 ltac:(cbn; lia)) as H0. cbn [skipn app] in H0.
    cbn [app dot_run]. rewrite H0. f_equal. apply IH.
    intros k Hk. apply (Hin (S k)). cbn. lia.
Qed.

Lemma first_line_exists (s : str) : exists line, first_line_of s line.
Proof.
  induction s as [|c s (line & tail & Hs & Hin & Ht)].
  - exists [], []. split; [reflexivity|]. split; [|left; reflexivity].
    intros k Hk. inversion Hk.
  - destruct (strip_one line_terminators (c :: s)) eqn:E.
    + exists [], (c :: s). split; [reflexivity|].
      split; [intros k Hk; inversion Hk|]. right. rewrite E. discriminate.
    + exists (c :: line), tail. split; [rewrite Hs; reflexivity|].
      split; [|exact Ht].
      intros [|k] Hk; [exact E|]. cbn [skipn]. apply Hin. cbn in Hk. lia.
Qed.

Lemma strip_all_skipn (encs : list str) (fuel : nat) (s : str) :
  exists k, strip_all encs fuel s = skipn k s.
Proof.
  revert s. induction fuel as [|fuel IH]; intros s; cbn [strip_all].
  - exists 0. reflexivity.
  - destruct (strip_one encs s) as [r|] eqn:E; [|exists 0; reflexivity].
    destruct (strip_one_skipn _ _ _ E) as [k ->].
    destruct (IH (skipn k s)) as [k' ->].
    exists (k + k'). rewrite skipn_skipn. f_equal. lia.
Qed.

(** A string of one line is its own first line. *)
Lemma single_line_first_line (s : str) :
  single_line s = true -> first_line_of s s.
Proof.
  intros H. exists []. split; [symmetry; apply app_nil_r|].
  split; [|left; reflexivity].
  intros k Hk. pose proof (single_line_skipn k s H) as Hs.
  destruct (skipn k s) as [|c r] eqn:E.
  - apply (f_equal (@length ascii)) in E. rewrite length_skipn in E.
    cbn in E. lia.
  - cbn [single_line] in Hs.
    destruct (strip_one line_terminators (c :: r)); [discriminate|].
    reflexivity.
Qed.

(** The white-space run takes all the white space, and the group the
    rest of that line, whenever something is left. *)
Lemma ws_star_group_skips (fuel : nat) (r : str) :
  length r <= fuel ->
  strip_all white_space fuel r <> [] ->
  ws_star_group fuel r = Some (dot_run (strip_all white_space fuel r)).
Proof.
  revert r. induction fuel as [|fuel IH]; intros r Hl Hne.
  - destruct r; [contradiction | cbn in Hl; lia].
  - cbn [strip_all ws_star_group] in *.
    destruct (strip_one white_space r) as [r'|] eqn:E.
    + pose proof (strip_one_shorter _ _ _ white_space_nonempty E) as Hs.
      rewrite IH; [reflexivity | lia | exact Hne].
    + unfold dot_plus. destruct r as [|c r]; [contradiction|].
      cbn [dot_run]. rewrite (line_terminator_is_white_space _ E).
      reflexivity.
Qed.

(** White space that is stripped down to nothing ends the string. *)
Lemma strip_all_nil (encs : list str) (fuel : nat) (s : str) :
  strip_all encs fuel s = [] -> s <> [] ->
  exists pre e, In e encs /\ s = pre ++ e.
Proof.
  revert s. induction fuel as [|fuel IH]; intros s H Hne;
    cbn [strip_all] in H; [contradiction|].
  destruct (strip_one encs s) as [r|] eqn:E; [|contradiction].
  destruct (strip_one_some _ _ _ E) as (e & Hin & ->).
  destruct r as [|c r].
  - exists [], e. rewrite app_nil_r. auto.
  - destruct (IH (c :: r) H) as (pre & e' & Hin' & Hr); [discriminate|].
    exists (e ++ pre), e'. rewrite Hr, app_assoc. auto.
Qed.

(** A trimmed answer does not end with white space: after the prefix
    there is nothing, or something that is not white space. *)
Lemma trimmed_rest (rawAnswer rest : str) :
  trim rawAnswer = ALTERNATIVE ++ rest -> trimStart rest = [] -> rest = [].
Proof.
  intros Ht Hs. destruct rest as [|c rest]; [reflexivity|]. exfalso.
  destruct (strip_all_nil _ _ _ Hs) as (pre & e & Hin & Hr);
    [discriminate|].
  pose proof (trimEnd_stripped (trimStart rawAnswer)) as Hend.
  fold (trim rawAnswer) in Hend.
  rewrite Ht, Hr, app_assoc, rev_app_distr in Hend.
  apply (strip_one_in _ (rev e) _ (in_map (@rev ascii) _ _ Hin)
           (startsWith_app _ _) Hend).
Qed.

(** What the regular expression matches on a trimmed answer with the
    prefix: nothing when nothing follows the prefix, and otherwise the
    first line of what follows the white space after it. *)
Lemma match_alternative_rest (rawAnswer rest : str) :
  trim rawAnswer = ALTERNATIVE ++ rest ->
  (trimStart rest = [] /\ match_alternative (trim rawAnswer) = None)
  \/ (exists line,
        line <> [] /\ first_line_of (trimStart rest) line /\
        match_alternative (trim rawAnswer) = Some line).
Proof.
  intros Ht. unfold match_alternative. rewrite Ht, startsWith_app.
  rewrite skipn_app, skipn_all, Nat.sub_diag. cbn [app skipn].
  destruct (trimStart rest) as [|c r] eqn:E.
  - left. split; [reflexivity|].
    rewrite (trimmed_rest rawAnswer rest Ht E). reflexivity.
  - right. destruct (first_line_exists (c :: r)) as [line Hl].
    exists line. pose proof (dot_run_first_line _ _ Hl) as Hd.
    assert (Hne : line <> []).
    { rewrite <- Hd. cbn [dot_run].
      pose proof (trimStart_stripped rest) as Hw. rewrite E in Hw.
      rewrite (line_terminator_is_white_space _ Hw). discriminate. }
    split; [exact Hne|]. split; [exact Hl|].
    unfold trimStart in E. rewrite ws_star_group_skips, E, Hd;
      [reflexivity | lia | rewrite E; discriminate].
Qed.

(** The first line of a string is determined by the string. *)
Lemma first_line_unique (s line line' : str) :
  first_line_of s line -> first_line_of s line' -> line = line'.
Proof.
  intros H H'. rewrite <- (dot_run_first_line _ _ H).
  apply dot_run_first_line, H'.
Qed.

Lemma falsy_nonempty (g : str) : g <> [] -> falsy g = false.
Proof. destruct g; [contradiction | reflexivity]. Qed.

Lemma trim_trimStart (s : str) : trim (trimStart s) = trim s.
Proof. unfold trim. rewrite trimStart_idempotent. reflexivity. Qed.

(** C4, amended.  For an answer that is not empty after trimming: a
    trimmed answer that starts with the out-of-scope token gives the
    fixed redirect; otherwise, for one that starts with the alternative
    prefix, the extracted name is the first line of what follows the
    prefix and the white space after it, trimmed: when that line is not
    empty and its trimmed form is the name of a catalog entry, the
    result is the template with that entry's name and price and that
    name as the suggested product; when it is empty, or no entry of the
    catalog has that name, and for every answer without the prefix at
    its start, the trimmed answer comes back verbatim as a normal
    response.  Every answer with the prefix has such a first line; for
    an answer of one line it is the substring after the prefix, trimmed,
    as the specification says.  No case is an error. *)
Theorem parseGeminiResponse_classifies (rawAnswer : str)
    (catalog : list ProductContext) :
  trim rawAnswer <> [] ->
  (startsWith (trim rawAnswer) OUT_OF_SCOPE = true ->
     parseGeminiResponse rawAnswer catalog = Ok out_of_scope_response) /\
  (startsWith (trim rawAnswer) OUT_OF_SCOPE = false ->
   forall rest line,
     trim rawAnswer = ALTERNATIVE ++ rest ->
     first_line_of (trimStart rest) line ->
     (line <> [] ->
      forall p, find (name_is (trim line)) catalog = Some p ->
        name p = trim line /\ In p catalog /\
        parseGeminiResponse rawAnswer catalog = Ok (alternative_response p))
     /\
     (line = [] \/ (forall p, In p catalog -> name p <> trim line) ->
      parseGeminiResponse rawAnswer catalog
      = Ok (normal_response (trim rawAnswer)))) /\
  (startsWith (trim rawAnswer) OUT_OF_SCOPE = false ->
   startsWith (trim rawAnswer) ALTERNATIVE = false ->
   parseGeminiResponse rawAnswer catalog
   = Ok (normal_response (trim rawAnswer))) /\
  (forall rest, trim rawAnswer = ALTERNATIVE ++ rest ->
     (exists line, first_line_of (trimStart rest) line) /\
     (single_line rest = true ->
      first_line_of (trimStart rest) (trimStart rest) /\
      trim (trimStart rest) = claimed_name (trim rawAnswer))) /\
  (exists r, parseGeminiResponse rawAnswer catalog = Ok r).
Proof.
  intros Hne. unfold parseGeminiResponse.
  rewrite (trim_nonempty_not_falsy _ Hne), (length_eqb_0 _ Hne).
  cbn [orb]. set (t := trim rawAnswer) in *.
  split; [|split; [|split; [|split]]].
  - intros ->. reflexivity.
  - intros -> rest line Ht Hl.
    replace (startsWith t ALTERNATIVE) with true
      by (rewrite Ht; symmetry; apply startsWith_app).
    destruct (match_alternative_rest rawAnswer rest Ht)
      as [[Hs Hm]|(line' & Hne' & Hl' & Hm)]; fold t in Hm; rewrite Hm.
    + assert (line = []).
      { rewrite Hs in Hl. destruct Hl as (tail & Hl & _).
        destruct line; [reflexivity | discriminate]. }
      subst line. split; [intros H; contradiction | reflexivity].
    + pose proof (first_line_unique _ _ _ Hl Hl'). subst line'.
      rewrite (falsy_nonempty _ Hne'). split.
      * intros _ p Hp. destruct (find_name_is _ _ _ Hp) as [Hname Hin].
        split; [assumption|]. split; [assumption|].
        rewrite Hp. unfold alternative_response. rewrite Hname.
        reflexivity.
      * intros [H|H]; [contradiction|].
        rewrite (find_name_is_none _ _ H). reflexivity.
  - intros -> ->. reflexivity.
  - intros rest Ht. split; [apply first_line_exists|].
    intros Hl. split.
    + apply single_line_first_line. unfold trimStart.
      destruct (strip_all_skipn white_space (length rest) rest) as [k ->].
      apply single_line_skipn. exact Hl.
    + rewrite trim_trimStart. unfold claimed_name. rewrite Ht.
      rewrite skipn_app, skipn_all, Nat.sub_diag. reflexivity.
  - destruct (startsWith t OUT_OF_SCOPE); [eexists; reflexivity|].
    destruct (startsWith t ALTERNATIVE); [|eexists; reflexivity].
    destruct (match_alternative t) as [g|]; [|eexists; reflexivity].
    destruct (falsy g); [eexists; reflexivity|].
    destruct (find _ catalog); eexists; reflexivity.
Qed.

Lemma parseGeminiResponse_classifies_witness :
  trim (lit "ALTERNATIVE:   Blue Mug  ") <> [] /\
  parseGeminiResponse (lit "ALTERNATIVE:   Blue Mug  ") mockProducts
  = Ok {| type := alternative;
          text := lit "I don't have that exact item, but we have Blue Mug"
                  ++ lit " for $12.00. Would that work for you?";
          suggestedProduct := Some (lit "Blue Mug") |}.
Proof.
  assert (H : trim (lit "ALTERNATIVE:   Blue Mug  ") <> [])
    by (vm_compute; discriminate).
  split; [exact H|].
  destruct (parseGeminiResponse_classifies
              (lit "ALTERNATIVE:   Blue Mug  ") mockProducts H)
    as (_ & Halt & _).
  assert (L : first_line_of (trimStart (lit "   Blue Mug")) (lit "Blue Mug"))
    by (apply single_line_first_line; reflexivity).
  destruct (Halt eq_refl (lit "   Blue Mug") (lit "Blue Mug") eq_refl L)
    as [Hfound _].
  refine (proj2 (proj2 (Hfound _ (product "Blue Mug" "$12.00") _)));
    [discriminate | vm_compute; reflexivity].
Defined.

(** The claim C4 as the specification words it fails on an answer that
    goes on after the line of the name: the substring after the prefix,
    trimmed, is then the name of no product, so that the claim asks for
    a normal response, while the code, whose group [(.+)] ends at the
    first line terminator, answers with the alternative. *)
Lemma rest_of_answer_is_not_the_name :
  trim two_line_answer = two_line_answer /\
  startsWith two_line_answer ALTERNATIVE = true /\
  claimed_name two_line_answer
  = lit "Red Mug" ++ LF ++ lit "It is in stock." /\
  find (name_is (claimed_name two_line_answer)) mockProducts = None /\
  parseGeminiResponse two_line_answer mockProducts
  = Ok (alternative_response (product "Red Mug" "$15.00")) /\
  parseGeminiResponse two_line_answer mockProducts
  <> Ok (normal_response two_line_answer).
Proof. vm_compute. repeat split. discriminate. Qed.

(** An answer that is empty after trimming is the one error. *)
Lemma parseGeminiResponse_empty (rawAnswer : str)
    (catalog : list ProductContext) :
  trim rawAnswer = [] ->
  parseGeminiResponse rawAnswer catalog
  = Throw (error "AI response cannot be empty").
Proof.
  intros H. unfold parseGeminiResponse. rewrite H. cbn [length Nat.eqb].
  rewrite orb_true_r. reflexivity.
Qed.

(** The suggested product is set exactly on an alternative response, and
    then names an entry of the catalog. *)
Lemma suggestedProduct_invariant (rawAnswer : str)
    (catalog : list ProductContext) (r : ParsedResponse) :
  parseGeminiResponse rawAnswer catalog = Ok r ->
  (type r = alternative <-> suggestedProduct r <> None) /\
  (forall n, suggestedProduct r = Some n ->
     exists p, In p catalog /\ name p = n
               /\ text r = getAlternativeSuggestionMessage p).
Proof.
  unfold parseGeminiResponse.
  destruct (falsy rawAnswer || (length (trim rawAnswer) =? 0));
    [discriminate|].
  destruct (startsWith (trim rawAnswer) OUT_OF_SCOPE).
  { intros H. injection H as <-. cbn. split; [split|]; congruence. }
  destruct (startsWith (trim rawAnswer) ALTERNATIVE).
  2: { intros H. injection H as <-. cbn. split; [split|]; congruence. }
  destruct (match_alternative (trim rawAnswer)) as [g|].
  2: { intros H. injection H as <-. cbn. split; [split|]; congruence. }
  destruct (falsy g).
  { intros H. injection H as <-. cbn. split; [split|]; congruence. }
  destruct (find (name_is (trim g)) catalog) as [p|] eqn:E.
  2: { intros H. injection H as <-. cbn. split; [split|]; congruence. }
  intros H. injection H as <-. cbn.
  apply find_name_is in E. destruct E as [E Hin].
  split; [split; congruence|].
  intros n Hn. injection Hn as <-. exists p. auto.
Qed.

(** The cases of the test suite. *)
Example classify_test_suite :
  parseGeminiResponse (lit "OUT_OF_SCOPE") mockProducts
    = Ok out_of_scope_response /\
  parseGeminiResponse (lit "  OUT_OF_SCOPE  ") mockProducts
    = Ok out_of_scope_response /\
  parseGeminiResponse (lit "ALTERNATIVE: Red Mug") mockProducts
    = Ok (alternative_response
            (product "Red Mug" "$15.00")) /\
  parseGeminiResponse (lit "ALTERNATIVE:") mockProducts
    = Ok (normal_response (lit "ALTERNATIVE:")) /\
  parseGeminiResponse (lit "ALTERNATIVE: Purple Mug") mockProducts
    = Ok (normal_response (lit "ALTERNATIVE: Purple Mug")) /\
  parseGeminiResponse (lit "Maybe try ALTERNATIVE: Red Mug") mockProducts
    = Ok (normal_response (lit "Maybe try ALTERNATIVE: Red Mug")) /\
  parseGeminiResponse (lit "Sorry, OUT_OF_SCOPE is mentioned here")
      mockProducts
    = Ok (normal_response (lit "Sorry, OUT_OF_SCOPE is mentioned here")) /\
  parseGeminiResponse (lit "   ") mockProducts
    = Throw (error "AI response cannot be empty").
Proof. vm_compute. repeat split. Qed.

End ClassifierFacts.

(** ** The webhook route *)

Section RouteFacts.

Import ChatbotUtils Webhook Samples Statements.

Local Open Scope io_scope.

Variable env : Env.

Lemma trace_bind {A B} (m : io A) (k : A -> io B) :
  trace (io_bind m k)
  = trace m ++ match outcome m with
               | Ok a => trace (k a)
               | Throw _ => []
               end.
Proof.
  destruct m as [t [a|e]]; cbn; [|rewrite app_nil_r; reflexivity].
  destruct (k a). reflexivity.
Qed.

Lemma outcome_bind {A B} (m : io A) (k : A -> io B) :
  outcome (io_bind m k)
  = match outcome m with
    | Ok a => outcome (k a)
    | Throw e => Throw e
    end.
Proof.
  destruct m as [t [a|e]]; cbn; [|reflexivity].
  destruct (k a). reflexivity.
Qed.

Lemma io_eq {A} (m : io A) : m = (trace m, outcome m).
Proof. destruct m. reflexivity. Qed.

(** [try ... catch] with a handler that swallows the error never
    throws and adds no effect. *)
Lemma try_catch_swallow (m : io unit) :
  try_catch m (fun _ => ret tt) = (trace m, Ok tt).
Proof.
  destruct m as [t [[]|e]]; cbn; [|rewrite app_nil_r]; reflexivity.
Qed.

(** *** One event *)

(** The guarded part of [processMessagingEvent] always completes. *)
Lemma chatbot_contained (pc : PageConnection) (senderId messageText : str) :
  outcome (try_catch (chatbot env pc senderId messageText)
                     (fun _ => ret tt)) = Ok tt.
Proof. rewrite try_catch_swallow. reflexivity. Qed.


(** The product context that the route builds of the catalog holds the
    two properties of a product of the model. *)
Lemma map_product_context (products : list ProductContext) :
  map (fun p => {| name := name p; price := price p |}) products
  = products.
Proof.
  induction products as [|[n p] products IH]; [reflexivity|].
  cbn [map name price]. rewrite IH. reflexivity.
Qed.

(** The trace of the [try] block of [processMessagingEvent], stage by
    stage. *)
Lemma chatbot_trace (pc : PageConnection) (senderId messageText : str) :
  trace (chatbot env pc senderId messageText)
  = FindMany (user_id pc)
    :: match findMany env (user_id pc) with
       | Throw _ => []
       | Ok products =>
           Generate products messageText
           :: match generateChatbotResponse env products messageText with
              | Throw _ => []
              | Ok aiResponse =>
                  Decrypt (page_access_token pc)
                  :: match Encryption.decrypt (ENCRYPTION_KEY env)
                             (page_access_token pc) with
                     | Throw _ => []
                     | Ok token => [Send token senderId aiResponse]
                     end
              end
       end.
Proof.
  unfold chatbot, perform.
  destruct (findMany env (user_id pc)) as [products|]; [|reflexivity].
  cbn [io_bind]. rewrite map_product_context.
  destruct (generateChatbotResponse env products messageText)
    as [aiResponse|]; [|reflexivity].
  cbn [io_bind].
  destruct (Encryption.decrypt (ENCRYPTION_KEY env) (page_access_token pc))
    as [token|]; [|reflexivity].
  cbn [io_bind].
  destruct (sendMessage env token senderId aiResponse); reflexivity.
Qed.


(** A text event whose page is known. *)
Lemma process_known_page (e : MessengerEvent) (pageId senderId text : str)
    (pc : PageConnection) :
  text_event e senderId text ->
  findUnique env pageId = Ok (Some pc) ->
  processMessagingEvent env e pageId
  = (FindUnique pageId
       :: LogPush {| userId := user_id pc; pageId := pageId;
                     senderId := senderId; messageText := text |}
       :: trace (chatbot env pc senderId text),
     Ok tt).
Proof.
  intros (Hs & Hm & Ht) Hf. unfold processMessagingEvent.
  rewrite Hm, Hs. cbn [Webhook.text falsy_opt].
  destruct text as [|c text]; [congruence|].
  cbn [falsy deref lift io_bind perform]. rewrite Hf.
  cbn [io_bind emit]. rewrite try_catch_swallow. reflexivity.
Qed.

(** A text event whose page is unknown, or whose lookup throws. *)
Lemma process_unknown_page (e : MessengerEvent)
    (pageId senderId text : str) :
  text_event e senderId text ->
  findUnique env pageId = Ok None ->
  processMessagingEvent env e pageId = ([FindUnique pageId], Ok tt).
Proof.
  intros (Hs & Hm & Ht) Hf. unfold processMessagingEvent.
  rewrite Hm, Hs. cbn [Webhook.text falsy_opt].
  destruct text as [|c text]; [congruence|].
  cbn [falsy deref lift io_bind perform]. rewrite Hf. reflexivity.
Qed.

Lemma process_lookup_throws (e : MessengerEvent)
    (pageId senderId text : str) (err : Error) :
  text_event e senderId text ->
  findUnique env pageId = Throw err ->
  processMessagingEvent env e pageId = ([FindUnique pageId], Throw err).
Proof.
  intros (Hs & Hm & Ht) Hf. unfold processMessagingEvent.
  rewrite Hm, Hs. cbn [Webhook.text falsy_opt].
  destruct text as [|c text]; [congruence|].
  cbn [falsy deref lift io_bind perform]. rewrite Hf. reflexivity.
Qed.


(** *** The loops *)

Lemma for_events_cons (e : MessengerEvent) (events : list MessengerEvent)
    (pageId : str) :
  for_events env (e :: events) pageId
  = (trace (processMessagingEvent env e pageId)
       ++ match outcome (processMessagingEvent env e pageId) with
          | Ok _ => trace (for_events env events pageId)
          | Throw _ => []
          end,
     match outcome (processMessagingEvent env e pageId) with
     | Ok _ => outcome (for_events env events pageId)
     | Throw err => Throw err
     end).
Proof.
  cbn [for_events]. rewrite (io_eq (io_bind _ _)).
  rewrite trace_bind, outcome_bind. reflexivity.
Qed.

Lemma for_events_app (pre post : list MessengerEvent) (pageId : str) :
  for_events env (pre ++ post) pageId
  = (trace (for_events env pre pageId)
       ++ match outcome (for_events env pre pageId) with
          | Ok _ => trace (for_events env post pageId)
          | Throw _ => []
          end,
     match outcome (for_events env pre pageId) with
     | Ok _ => outcome (for_events env post pageId)
     | Throw err => Throw err
     end).
Proof.
  induction pre as [|e pre IH].
  - cbn [app for_events ret trace outcome fst snd]. apply io_eq.
  - cbn [app]. rewrite !for_events_cons, IH. cbn [trace outcome fst snd].
    destruct (outcome (processMessagingEvent env e pageId)) as [[]|err].
    + rewrite app_assoc. reflexivity.
    + rewrite !app_nil_r. reflexivity.
Qed.

Lemma for_entries_cons (en : MessengerWebhookEntry)
    (entries : list MessengerWebhookEntry) (events : list MessengerEvent) :
  messaging en = Some events ->
  for_entries env (en :: entries)
  = (trace (for_events env events (id en))
       ++ match outcome (for_events env events (id en)) with
          | Ok _ => trace (for_entries env entries)
          | Throw _ => []
          end,
     match outcome (for_events env events (id en)) with
     | Ok _ => outcome (for_entries env entries)
     | Throw err => Throw err
     end).
Proof.
  intros H. cbn [for_entries]. rewrite H. cbn [deref lift io_bind].
  destruct (for_events env events (id en)) as [t [[]|err]];
    cbn [trace outcome fst snd].
  - destruct (for_entries env entries). reflexivity.
  - rewrite app_nil_r. reflexivity.
Qed.

Lemma for_entries_app (pre post : list MessengerWebhookEntry) :
  for_entries env (pre ++ post)
  = (trace (for_entries env pre)
       ++ match outcome (for_entries env pre) with
          | Ok _ => trace (for_entries env post)
          | Throw _ => []
          end,
     match outcome (for_entries env pre) with
     | Ok _ => outcome (for_entries env post)
     | Throw err => Throw err
     end).
Proof.
  induction pre as [|en pre IH].
  - cbn [app for_entries ret trace outcome fst snd]. apply io_eq.
  - cbn [app for_entries].
    destruct (messaging en) as [events|]; cbn [deref lift io_bind];
      [|reflexivity].
    destruct (for_events env events (id en)) as [t [[]|err]];
      [|cbn; rewrite app_nil_r; reflexivity].
    rewrite IH. cbn [trace outcome fst snd].
    destruct (for_entries env pre) as [t' [[]|err]];
      cbn [trace outcome fst snd app].
    + destruct (for_entries env post). cbn. rewrite app_assoc. reflexivity.
    + rewrite !app_nil_r. reflexivity.
Qed.

(** *** The handler *)

(** An accepted request: verification, parsing, then the entries. *)
Lemma POST_accepted (request : NextRequest)
    (entries : list MessengerWebhookEntry) :
  accepted env request entries ->
  POST env request
  = (Verify true :: Parse :: trace (for_entries env entries), Ok ack).
Proof.
  intros (Hsig & body & payload & Hb & Hp & Ho & He).
  unfold signature_ok in Hsig. rewrite Hb in Hsig.
  unfold POST, POST_try. rewrite Hb. cbn [lift io_bind].
  destruct (FACEBOOK_APP_SECRET env) as [secret|]; [|discriminate].
  apply andb_prop in Hsig. destruct Hsig as [Hf Hv].
  destruct (falsy secret); [discriminate|].
  rewrite Hv. cbn [emit io_bind negb perform]. rewrite Hp.
  cbn [io_bind]. rewrite Ho, str_eqb_refl, He. cbn [negb deref lift io_bind].
  destruct (for_entries env entries) as [t [[]|err]];
    cbn [io_bind ret try_catch app trace outcome fst snd];
    rewrite ?app_nil_r; reflexivity.
Qed.

(** A request that fails the signature check: nothing but the check. *)
Lemma POST_rejected (request : NextRequest) :
  signature_ok env request = false ->
  POST env request = ([], Ok ack)
  \/ POST env request = ([Verify false], Ok ack).
Proof.
  unfold signature_ok, POST, POST_try.
  destruct (request_text request) as [body|err]; [|left; reflexivity].
  cbn [lift io_bind].
  destruct (FACEBOOK_APP_SECRET env) as [secret|]; [|left; reflexivity].
  destruct (falsy secret); [left; reflexivity|].
  cbn [negb andb]. intros ->. right. reflexivity.
Qed.

End RouteFacts.

Section RouteClaims.

Import ChatbotUtils Webhook Samples Statements.

Variable env : Env.

Lemma POST_try_ack (request : NextRequest) (r : NextResponse) :
  outcome (POST_try env request) = Ok r -> r = ack.
Proof.
  unfold POST_try.
  destruct (request_text request) as [body|err]; [|discriminate].
  cbn [lift io_bind].
  destruct (FACEBOOK_APP_SECRET env) as [secret|];
    [|cbn; congruence].
  destruct (falsy secret); [cbn; congruence|].
  destruct (Facebook.verifyWebhookSignature _ body secret);
    cbn [emit io_bind negb perform]; [|cbn; congruence].
  destruct (JSON_parse env body) as [payload|err]; [|discriminate].
  cbn [io_bind].
  destruct (match object payload with
            | Some o => negb (str_eqb o (lit "page"))
            | None => true
            end); [cbn; congruence|].
  destruct (entry payload) as [entries|]; [|discriminate].
  cbn [deref lift io_bind].
  destruct (for_entries env entries) as [t [[]|err]];
    cbn; [congruence | discriminate].
Qed.

Lemma POST_outcome (request : NextRequest) :
  outcome (POST env request) = Ok ack.
Proof.
  unfold POST.
  destruct (POST_try env request) as [t [r|err]] eqn:E;
    cbn [try_catch ret outcome snd]; [|reflexivity].
  f_equal. apply (POST_try_ack request). rewrite E. reflexivity.
Qed.

(** C8.  Every POST request is answered with the 200 acknowledgment and
    no error leaves the handler, whatever the signature, the body, the
    object type and the outcome of the processing; when the signature
    check fails (no secret configured, header missing or wrong) the run
    has no effect other than that check: no parse of the payload, no
    lookup, no catalog fetch, no generation call, no delivery. *)
Theorem POST_always_acknowledges (request : NextRequest) :
  outcome (POST env request) = Ok ack /\
  status ack = 200%Z /\
  (signature_ok env request = false ->
   Forall (fun ev => ev = Verify false) (trace (POST env request))).
Proof.
  split; [apply POST_outcome|]. split; [reflexivity|].
  intros H. destruct (POST_rejected env request H) as [-> | ->];
    repeat constructor.
Qed.

(** A body that does not parse and a payload of another type are
    acknowledged right after parsing. *)
Lemma POST_unparseable (request : NextRequest) (body : str) (err : Error) :
  signature_ok env request = true ->
  request_text request = Ok body -> JSON_parse env body = Throw err ->
  POST env request = ([Verify true; Parse], Ok ack).
Proof.
  intros Hsig Hb Hp. unfold signature_ok in Hsig. rewrite Hb in Hsig.
  unfold POST, POST_try. rewrite Hb. cbn [lift io_bind].
  destruct (FACEBOOK_APP_SECRET env) as [secret|]; [|discriminate].
  apply andb_prop in Hsig. destruct Hsig as [Hf Hv].
  destruct (falsy secret); [discriminate|].
  rewrite Hv. cbn [emit io_bind negb perform]. rewrite Hp. reflexivity.
Qed.

Lemma POST_not_page (request : NextRequest) (body : str)
    (payload : MessengerWebhookPayload) :
  signature_ok env request = true ->
  request_text request = Ok body -> JSON_parse env body = Ok payload ->
  object payload <> Some (lit "page") ->
  POST env request = ([Verify true; Parse], Ok ack).
Proof.
  intros Hsig Hb Hp Ho. unfold signature_ok in Hsig. rewrite Hb in Hsig.
  unfold POST, POST_try. rewrite Hb. cbn [lift io_bind].
  destruct (FACEBOOK_APP_SECRET env) as [secret|]; [|discriminate].
  apply andb_prop in Hsig. destruct Hsig as [Hf Hv].
  destruct (falsy secret); [discriminate|].
  rewrite Hv. cbn [emit io_bind negb perform]. rewrite Hp. cbn [io_bind].
  destruct (object payload) as [o|]; [|reflexivity].
  rewrite str_eqb_neq by congruence. reflexivity.
Qed.

(** C10.  When the lookup of the page connection throws for a text
    event, the error leaves [processMessagingEvent]; the run of [POST]
    then ends with that lookup, so the events after it in the entry and
    the entries after it in the payload leave no effect, and the answer
    is still the 200 acknowledgment.  When the lookup returns a
    connection, the event completes whatever the catalog fetch, the
    generation, the decryption and the delivery do, and the loop goes on
    with the events that follow. *)
Theorem lookup_failure_skips_the_rest :
  (forall request pre_entries pre_events e post_events post_entries
          pageId senderId text err,
      accepted env request
        (pre_entries
           ++ {| id := pageId;
                 messaging := Some (pre_events ++ e :: post_events) |}
           :: post_entries) ->
      outcome (for_entries env pre_entries) = Ok tt ->
      outcome (for_events env pre_events pageId) = Ok tt ->
      text_event e senderId text ->
      findUnique env pageId = Throw err ->
      outcome (processMessagingEvent env e pageId) = Throw err /\
      POST env request
      = (Verify true :: Parse
           :: trace (for_entries env pre_entries)
           ++ trace (for_events env pre_events pageId)
           ++ [FindUnique pageId],
         Ok ack)) /\
  (forall e events pageId senderId text pc,
      text_event e senderId text ->
      findUnique env pageId = Ok (Some pc) ->
      outcome (processMessagingEvent env e pageId) = Ok tt /\
      for_events env (e :: events) pageId
      = (trace (processMessagingEvent env e pageId)
           ++ trace (for_events env events pageId),
         outcome (for_events env events pageId))).
Proof.
  split.
  - intros request pre_entries pre_events e post_events post_entries
      pageId senderId text err Hacc Hpre_en Hpre_ev Hte Hf.
    pose proof (process_lookup_throws env e pageId senderId text err Hte Hf)
      as He.
    split; [rewrite He; reflexivity|].
    rewrite (POST_accepted env request _ Hacc). f_equal. f_equal. f_equal.
    rewrite for_entries_app, Hpre_en. cbn [trace fst]. f_equal.
    rewrite (for_entries_cons env
               {| id := pageId;
                  messaging := Some (pre_events ++ e :: post_events) |}
               post_entries (pre_events ++ e :: post_events) eq_refl).
    cbn [id trace fst].
    rewrite for_events_app, Hpre_ev. cbn [trace outcome fst snd].
    rewrite for_events_cons, He. cbn [trace outcome fst snd].
    rewrite !app_nil_r. reflexivity.
  - intros e events pageId senderId text pc Hte Hf.
    pose proof (process_known_page env e pageId senderId text pc Hte Hf)
      as He.
    split; [rewrite He; reflexivity|].
    rewrite for_events_cons, He. reflexivity.
Qed.


End RouteClaims.

Section RouteExamples.

Import ChatbotUtils Webhook Samples Statements.

Lemma signed_request_accepted (payload : MessengerWebhookPayload)
    (entries : list MessengerWebhookEntry) :
  object payload = Some (lit "page") -> entry payload = Some entries ->
  accepted (test_env payload) (signed_request payload) entries.
Proof.
  intros Ho He. split.
  - unfold signature_ok, signed_request, test_env.
    cbn [request_text x_hub_signature_256 FACEBOOK_APP_SECRET].
    rewrite verify_correct_signature. reflexivity.
  - exists (stringify payload), payload.
    split; [reflexivity|]. split; [|split; assumption].
    unfold test_env. cbn [JSON_parse]. rewrite str_eqb_refl. reflexivity.
Qed.



Lemma POST_always_acknowledges_witness :
  signature_ok (test_env one_message) unsigned_request = false /\
  POST (test_env one_message) unsigned_request = ([Verify false], Ok ack) /\
  Forall (fun ev => ev = Verify false)
         (trace (POST (test_env one_message) unsigned_request)).
Proof.
  assert (H : signature_ok (test_env one_message) unsigned_request = false)
    by (vm_compute; reflexivity).
  split; [exact H|]. split; [vm_compute; reflexivity|].
  exact (proj2 (proj2 (POST_always_acknowledges (test_env one_message)
                         unsigned_request)) H).
Defined.

Lemma lookup_failure_skips_the_rest_witness :
  accepted (test_env two_messages) (signed_request two_messages)
    ([] ++ {| id := broken_page;
              messaging := Some ([] ++ broken_message :: []) |}
        :: [ {| id := test_page; messaging := Some [second_message] |} ]) /\
  text_event broken_message (lit "psid_1") (lit "first") /\
  findUnique (test_env two_messages) broken_page
  = Throw (error "Can't reach database server") /\
  POST (test_env two_messages) (signed_request two_messages)
  = ([Verify true; Parse; FindUnique broken_page], Ok ack).
Proof.
  assert (Ha : accepted (test_env two_messages) (signed_request two_messages)
    ([] ++ {| id := broken_page;
              messaging := Some ([] ++ broken_message :: []) |}
        :: [ {| id := test_page; messaging := Some [second_message] |} ]))
    by (apply signed_request_accepted; reflexivity).
  assert (Ht : text_event broken_message (lit "psid_1") (lit "first"))
    by (repeat split; discriminate).
  split; [exact Ha|]. split; [exact Ht|]. split; [reflexivity|].
  exact (proj2 (proj1 (lookup_failure_skips_the_rest (test_env two_messages))
                  (signed_request two_messages) [] [] broken_message []
                  [ {| id := test_page; messaging := Some [second_message] |} ]
                  broken_page (lit "psid_1") (lit "first")
                  (error "Can't reach database server")
                  Ha eq_refl eq_refl Ht eq_refl)).
Defined.

(** Without the failing lookup the second message is processed. *)
Example second_message_alone :
  map stage
    (trace (POST (test_env
                    (payload_of [ {| id := test_page;
                                     messaging := Some [second_message] |} ]))
                 (signed_request
                    (payload_of [ {| id := test_page;
                                     messaging := Some [second_message] |} ]))))
  = StVerify :: StParse :: event_stages.
Proof. vm_compute. reflexivity. Qed.

End RouteExamples.

(** ** More about [encryption.ts]: keys, the stored form, tampering *)

Section CipherMore.

Import Encryption Samples Statements.

(** What a returning [encrypt] has gone through. *)
Lemma encrypt_ok_inv (ENCRYPTION_KEY : option str) (iv : list ascii)
    (text c : str) :
  encrypt ENCRYPTION_KEY iv text = Ok c ->
  exists key,
    getEncryptionKey ENCRYPTION_KEY = Ok key /\ length key = key_size /\
    length iv = block_size /\
    c = toHex iv ++ lit ":" ++ cipher_run key iv text.
Proof.
  unfold encrypt. destruct (getEncryptionKey ENCRYPTION_KEY) as [key|e];
    cbn [Js.bind]; [|discriminate].
  unfold createCipheriv.
  destruct (length iv =? block_size) eqn:Hiv; cbn [negb Js.bind];
    [|discriminate].
  destruct (length key =? key_size) eqn:Hk; cbn [negb Js.bind];
    [|discriminate].
  intros [= <-]. exists key.
  apply Nat.eqb_eq in Hiv, Hk. auto.
Qed.

(** What a returning [getEncryptionKey] has read. *)
Lemma getEncryptionKey_ok_inv (ENCRYPTION_KEY : option str)
    (key : list ascii) :
  getEncryptionKey ENCRYPTION_KEY = Ok key ->
  exists k, ENCRYPTION_KEY = Some k /\ k <> [] /\ js_length k = 64
            /\ key = fromHex k.
Proof.
  unfold getEncryptionKey. destruct ENCRYPTION_KEY as [k|]; [|discriminate].
  destruct k as [|a k]; [discriminate|]. cbn [falsy].
  destruct (js_length (a :: k) =? 64) eqn:H; cbn [negb]; [|discriminate].
  intros [= <-]. exists (a :: k). apply Nat.eqb_eq in H.
  repeat split; [discriminate | assumption].
Qed.

(** [decrypt] on the stored form of a cipher text. *)
Lemma decrypt_stored_form (ENCRYPTION_KEY : option str)
    (key iv ct : list ascii) :
  getEncryptionKey ENCRYPTION_KEY = Ok key -> length key = key_size ->
  length iv = block_size ->
  decrypt ENCRYPTION_KEY (toHex iv ++ lit ":" ++ toHex ct)
  = decipher_run key iv (toHex ct).
Proof.
  intros Hget Hk Hiv. unfold decrypt. rewrite split_stored_form.
  rewrite fromHex_toHex, Hget. cbn [Js.bind].
  unfold createCipheriv. rewrite Hiv, Hk.
  change (Nat.eqb block_size block_size) with true.
  change (Nat.eqb key_size key_size) with true. reflexivity.
Qed.

(** Whatever [encrypt] returns, [decrypt] turns back into the text. *)
Lemma decrypt_encrypt_ok (ENCRYPTION_KEY : option str) (iv : list ascii)
    (text c : str) :
  encrypt ENCRYPTION_KEY iv text = Ok c ->
  decrypt ENCRYPTION_KEY c = Ok text.
Proof.
  intros H. destruct (encrypt_ok_inv _ _ _ _ H) as (key & Hget & Hk & Hiv & ->).
  unfold cipher_run at 1.
  rewrite (decrypt_stored_form _ key) by assumption.
  apply decipher_cipher; assumption.
Qed.

(** Decoding stops at the first byte that is not a hexadecimal digit,
    so it yields fewer bytes than half of what it is given. *)
Lemma hex_pairs_short (s : list ascii) :
  forallb is_hex_digit s = false -> 2 * length (hex_pairs s) < length s.
Proof.
  revert s. fix IH 1. intros [|h [|l r]]; cbn [forallb hex_pairs length].
  - discriminate.
  - intros _. lia.
  - unfold is_hex_digit at 1 2.
    destruct (hex_value h); cbn [andb]; [|intros _; cbn [length]; lia].
    destruct (hex_value l); cbn [andb]; [|intros _; cbn [length]; lia].
    intros H. specialize (IH r H). cbn [length]. lia.
Qed.

(** What a returning [decrypt] has gone through. *)
Lemma decrypt_ok_inv (ENCRYPTION_KEY : option str) (c : str) :
  is_ok (decrypt ENCRYPTION_KEY c) = true ->
  exists key,
    getEncryptionKey ENCRYPTION_KEY = Ok key /\ length key = key_size.
Proof.
  unfold decrypt.
  destruct (split (lit ":") c) as [|p0 [|p1 [|? ?]]]; try discriminate.
  destruct (getEncryptionKey ENCRYPTION_KEY) as [key|];
    cbn [Js.bind]; [|discriminate].
  unfold createCipheriv.
  destruct (length (fromHex p0) =? block_size); cbn [negb Js.bind];
    [|discriminate].
  destruct (length key =? key_size) eqn:Hk; cbn [negb Js.bind];
    [|discriminate].
  intros _. exists key. apply Nat.eqb_eq in Hk. auto.
Qed.

(** X1. Neither [encrypt] nor [decrypt] ever returns unless
    [ENCRYPTION_KEY] is set, has 64 characters and decodes, by the low
    byte of every character, to 32 bytes: with a missing, empty, short
    or long key both throw on every input. *)
Theorem no_result_without_key (ENCRYPTION_KEY : option str)
    (iv : list ascii) (text c : str) :
  is_ok (encrypt ENCRYPTION_KEY iv text) = true
  \/ is_ok (decrypt ENCRYPTION_KEY c) = true ->
  exists k, ENCRYPTION_KEY = Some k /\ js_length k = 64
            /\ length (fromHex k) = key_size.
Proof.
  intros H.
  assert (K : exists key, getEncryptionKey ENCRYPTION_KEY = Ok key
                          /\ length key = key_size).
  { destruct H as [H|H].
    - destruct (encrypt ENCRYPTION_KEY iv text) as [c'|] eqn:E;
        [|discriminate].
      destruct (encrypt_ok_inv _ _ _ _ E) as (key & Hget & Hk & _).
      exists key. auto.
    - exact (decrypt_ok_inv _ _ H). }
  destruct K as (key & Hget & Hk).
  destruct (getEncryptionKey_ok_inv _ _ Hget) as (k & -> & _ & Hl & ->).
  exists k. auto.
Qed.

Lemma no_result_without_key_witness :
  is_ok (encrypt test_key test_iv (lit "hello")) = true /\
  exists k, test_key = Some k /\ js_length k = 64
            /\ length (fromHex k) = key_size.
Proof.
  split; [vm_compute; reflexivity|].
  apply (no_result_without_key test_key test_iv (lit "hello") stored_hello).
  left. vm_compute. reflexivity.
Defined.

(** X2. A key of 64 characters of which one does not read as a
    hexadecimal digit (the decoder reads the low byte of every UTF-16
    code unit) is not refused by the length check of
    [getEncryptionKey]: it decodes to fewer than 32 bytes, so that
    [encrypt] and [decrypt] throw on every input, [encrypt] with the
    cipher's own ["Invalid key length"]. *)
Theorem non_hex_key_fails (k : str) (iv : list ascii) (text c : str) :
  js_length k = 64 -> forallb is_hex_digit (low_bytes k) = false ->
  getEncryptionKey (Some k) = Ok (fromHex k) /\
  length (fromHex k) < key_size /\
  throws (encrypt (Some k) iv text) /\ throws (decrypt (Some k) c) /\
  (length iv = block_size ->
   encrypt (Some k) iv text = Throw (error "Invalid key length")).
Proof.
  intros Hj Hx. pose proof (hex_pairs_short _ Hx) as Hs.
  rewrite length_low_bytes, Hj in Hs. fold (fromHex k) in Hs.
  assert (Hlt : length (fromHex k) < key_size) by (unfold key_size; lia).
  assert (Hget : getEncryptionKey (Some k) = Ok (fromHex k)).
  { unfold getEncryptionKey. destruct k; [discriminate|]. cbn [falsy].
    rewrite Hj. reflexivity. }
  split; [exact Hget|]. split; [exact Hlt|].
  split; [|split].
  - destruct (encrypt (Some k) iv text) as [c'|e] eqn:E; [|eexists; eauto].
    destruct (encrypt_ok_inv _ _ _ _ E) as (key & Hget' & Hk & _).
    rewrite Hget in Hget'. injection Hget' as <-. lia.
  - destruct (decrypt (Some k) c) as [c'|e] eqn:E; [|eexists; eauto].
    destruct (decrypt_ok_inv (Some k) c) as (key & Hget' & Hk);
      [rewrite E; reflexivity|].
    rewrite Hget in Hget'. injection Hget' as <-. lia.
  - intros Hiv.
    unfold encrypt. rewrite Hget. cbn [Js.bind]. unfold createCipheriv.
    rewrite Hiv. change (Nat.eqb block_size block_size) with true.
    cbn [negb].
    assert (Hne : length (fromHex k) <> key_size) by lia.
    apply Nat.eqb_neq in Hne. rewrite Hne. reflexivity.
Qed.

Lemma non_hex_key_fails_witness :
  js_length non_hex_key = 64 /\
  forallb is_hex_digit (low_bytes non_hex_key) = false /\
  length (fromHex non_hex_key) < key_size /\
  encrypt (Some non_hex_key) test_iv (lit "hello")
  = Throw (error "Invalid key length").
Proof.
  split; [reflexivity|]. split; [reflexivity|].
  destruct (non_hex_key_fails non_hex_key test_iv (lit "hello") stored_hello)
    as (_ & Hlt & _ & _ & He); [reflexivity..|].
  split; [exact Hlt | apply He; reflexivity].
Defined.

(** A character outside ASCII whose low byte is a digit counts as that
    digit: with U+0166 in the place of the last ["f"] of the key, and
    with U+0131 and U+0138 in the place of the last ["18"] of the stored
    form, the two functions work as before. *)
Example key_is_read_by_low_bytes :
  forallb is_hex_digit low_byte_key = false /\
  encrypt (Some low_byte_key) test_iv (lit "hello") = Ok stored_hello /\
  decrypt test_key low_byte_hello = Ok (lit "hello").
Proof. vm_compute. auto. Qed.



(** X4. Under one key two runs of [encrypt] return the same stored form
    only for the same initialization vector and the same text: a stored
    form stands for one text. *)
Theorem encrypt_injective (ENCRYPTION_KEY : option str)
    (iv1 iv2 : list ascii) (text1 text2 c : str) :
  encrypt ENCRYPTION_KEY iv1 text1 = Ok c ->
  encrypt ENCRYPTION_KEY iv2 text2 = Ok c ->
  iv1 = iv2 /\ text1 = text2.
Proof.
  intros H1 H2. split.
  - destruct (encrypt_ok_inv _ _ _ _ H1) as (k1 & _ & _ & Hiv1 & E1).
    destruct (encrypt_ok_inv _ _ _ _ H2) as (k2 & _ & _ & Hiv2 & E2).
    rewrite E1 in E2. apply app_eq_length_inv in E2.
    + apply toHex_inj, E2.
    + rewrite !length_toHex. congruence.
  - apply decrypt_encrypt_ok in H1, H2. congruence.
Qed.

Lemma encrypt_injective_witness :
  encrypt test_key test_iv (lit "hello") = Ok stored_hello /\
  test_iv = test_iv /\ lit "hello" = lit "hello".
Proof.
  split; [vm_compute; reflexivity|].
  apply (encrypt_injective test_key test_iv test_iv (lit "hello")
           (lit "hello") stored_hello); vm_compute; reflexivity.
Defined.

(** *** Tampering with the initialization vector *)

Lemma xor_ascii_shift (a b d : ascii) :
  xor_ascii (xor_ascii a b) (xor_ascii b d) = xor_ascii a d.
Proof.
  destruct a as [a0 a1 a2 a3 a4 a5 a6 a7], b as [b0 b1 b2 b3 b4 b5 b6 b7],
    d as [d0 d1 d2 d3 d4 d5 d6 d7].
  cbn [xor_ascii].
  assert (X : forall x y z, xorb (xorb x y) (xorb y z) = xorb x z)
    by (intros [] [] []; reflexivity).
  rewrite !X. reflexivity.
Qed.

Lemma xor_block_shift (a b d : list ascii) :
  length a = length b -> length b = length d ->
  xor_block (xor_block a b) (xor_block b d) = xor_block a d.
Proof.
  unfold xor_block. revert b d.
  induction a as [|x a IH]; intros [|y b] [|z d]; try discriminate;
    [reflexivity|].
  intros [= Hab] [= Hbd]. cbn [combine map fst snd].
  rewrite xor_ascii_shift. f_equal. apply IH; assumption.
Qed.

(** Deciphering under another initialization vector changes the first
    block alone. *)
Lemma cbc_decrypt_other_iv (key : list ascii) (n : nat)
    (iv iv' m : list ascii) :
  length key = key_size -> length iv = block_size ->
  length m = block_size * S n ->
  cbc_decrypt key (S n) iv' (cbc_encrypt key (S n) iv m)
  = xor_block (xor_block (firstn block_size m) iv) iv' ++ skipn block_size m.
Proof.
  intros Hk Hiv Hm. cbn [cbc_encrypt cbc_decrypt].
  assert (Hb : length (xor_block (firstn block_size m) iv) = block_size).
  { rewrite length_xor_block; rewrite length_firstn; unfold block_size in *;
      lia. }
  pose proof (encrypt_block_length key _ Hk Hb) as Hc.
  set (c := Aes.encrypt_block key (xor_block (firstn block_size m) iv)) in *.
  rewrite firstn_app, (@firstn_all2 _ block_size c) by (unfold block_size; lia).
  replace (block_size - length c) with 0 by (unfold block_size; lia).
  cbn [firstn]. rewrite app_nil_r.
  rewrite skipn_app, (@skipn_all2 _ block_size c) by (unfold block_size; lia).
  replace (block_size - length c) with 0 by (unfold block_size; lia).
  cbn [skipn app]. unfold c at 1.
  rewrite decrypt_block_encrypt_block by assumption.
  f_equal. apply cbc_decrypt_encrypt; try assumption.
  rewrite length_skipn. unfold block_size in *. lia.
Qed.

(** [decipher.update] and [decipher.final] on the hexadecimal form of a
    whole number of blocks. *)
Lemma decipher_run_blocks (key iv ct : list ascii) (n : nat) :
  length ct = block_size * S n ->
  decipher_run key iv (toHex ct)
  = match pkcs7_unpad (cbc_decrypt key (S n) iv ct) with
    | Some text => Ok text
    | None => Throw (error "bad decrypt")
    end.
Proof.
  intros Hct. unfold decipher_run.
  rewrite (plain_js_length _ (toHex_plain ct)), length_toHex.
  replace (Nat.odd (2 * length ct)) with false
    by (rewrite <- Nat.negb_even, Nat.even_even; reflexivity).
  rewrite fromHex_toHex, Hct.
  replace (block_size * S n =? 0) with false
    by (symmetry; apply Nat.eqb_neq; unfold block_size; lia).
  replace ((block_size * S n) mod block_size) with 0
    by (rewrite Nat.mul_comm, Nat.Div0.mod_mul; reflexivity).
  rewrite Nat.mul_comm, Nat.div_mul by discriminate.
  reflexivity.
Qed.

(** X5. [decrypt] does not authenticate what it is given: for a text of
    at least 16 bytes, flipping bits of the initialization vector in the
    stored form flips the same bits of the first 16 bytes of the
    decrypted text, and nothing is reported.  (The result is given as
    bytes; what the library shows for bytes that are not UTF-8 is not
    modelled.) *)
Theorem decrypt_follows_iv (ENCRYPTION_KEY : option str)
    (iv d : list ascii) (text c : str) :
  encrypt ENCRYPTION_KEY iv text = Ok c ->
  length d = block_size -> block_size <= length text ->
  decrypt ENCRYPTION_KEY (toHex (xor_block iv d) ++ skipn 32 c)
  = Ok (xor_block (firstn block_size text) d ++ skipn block_size text).
Proof.
  intros H Hd Ht.
  destruct (encrypt_ok_inv _ _ _ _ H) as (key & Hget & Hk & Hiv & ->).
  rewrite skipn_app, (@skipn_all2 _ 32 (toHex iv))
    by (rewrite length_toHex, Hiv; unfold block_size; lia).
  rewrite length_toHex, Hiv. cbn [block_size Nat.mul Nat.add Nat.sub skipn app].
  unfold cipher_run.
  pose proof (length_pkcs7_pad text) as Hpad.
  set (m := pkcs7_pad text) in *.
  assert (Hn : length m / block_size = S (length text / block_size)).
  { rewrite Hpad, Nat.mul_comm, Nat.div_mul by discriminate. lia. }
  rewrite Hn. set (n := length text / block_size) in *.
  replace (n + 1) with (S n) in Hpad by lia.
  assert (Hiv' : length (xor_block iv d) = block_size)
    by (rewrite length_xor_block; congruence).
  rewrite (decrypt_stored_form _ key) by assumption.
  rewrite (decipher_run_blocks _ _ _ n)
    by (apply length_cbc_encrypt; assumption).
  rewrite cbc_decrypt_other_iv by assumption.
  assert (Hf : length (firstn block_size text) = block_size)
    by (rewrite length_firstn; lia).
  assert (Hfm : firstn block_size m = firstn block_size text).
  { unfold m, pkcs7_pad. rewrite firstn_app.
    replace (block_size - length text) with 0 by lia.
    cbn [firstn]. apply app_nil_r. }
  rewrite Hfm, xor_block_shift by congruence.
  set (x := xor_block (firstn block_size text) d).
  assert (Hx : length x = block_size)
    by (unfold x; rewrite length_xor_block; congruence).
  assert (Hl : length (x ++ skipn block_size text) = length text).
  { rewrite length_app, length_skipn. lia. }
  replace (x ++ skipn block_size m)
    with (pkcs7_pad (x ++ skipn block_size text)).
  - rewrite pkcs7_unpad_pad. reflexivity.
  - unfold m, pkcs7_pad. rewrite Hl, <- app_assoc. f_equal.
    rewrite skipn_app.
    replace (block_size - length text) with 0 by lia. reflexivity.
Qed.

Lemma decrypt_follows_iv_witness :
  exists c,
    encrypt test_key test_iv sample_token = Ok c /\
    decrypt test_key (toHex (xor_block test_iv other_iv) ++ skipn 32 c)
    = Ok (xor_block (firstn block_size sample_token) other_iv
            ++ skipn block_size sample_token).
Proof.
  eexists. split; [vm_compute; reflexivity|].
  apply (decrypt_follows_iv test_key test_iv other_iv sample_token);
    vm_compute; [reflexivity | reflexivity | lia].
Defined.

End CipherMore.

(** ** More about [facebook.ts]: what the verifier accepts, what
    [sendMessage] reports *)

Section SignatureMore.

Import Facebook Samples Statements.

(** A separator occurrence that is being passed over: the scan goes on
    behind it. *)
Lemma split_go_skip (sep : str) (s : str) :
  forall k cur, split_go sep k cur s = split_go sep 0 cur (skipn k s).
Proof.
  induction s as [|c s IH]; intros [|k] cur; try reflexivity.
  cbn [split_go skipn]. apply IH.
Qed.

(** The first piece is the current one, extended by a prefix of what is
    scanned. *)
Lemma split_go_first (sep : str) (s : str) :
  forall cur p ps,
    split_go sep 0 cur s = p :: ps ->
    exists a rest, p = rev cur ++ a /\ s = a ++ rest.
Proof.
  induction s as [|c s IH]; intros cur p ps; cbn [split_go].
  - intros [= <- _]. exists [], []. rewrite app_nil_r. auto.
  - destruct (startsWith (c :: s) sep).
    + intros [= <- _]. exists [], (c :: s). rewrite app_nil_r. auto.
    + intros H. destruct (IH _ _ _ H) as (a & rest & -> & ->).
      exists (c :: a), rest. cbn [rev]. rewrite <- app_assoc. auto.
Qed.

(** The second piece stands right behind an occurrence of the
    separator. *)
Lemma split_go_second (d : ascii) (sep : str) (s : str) :
  forall cur p0 p1 ps,
    split_go (d :: sep) 0 cur s = p0 :: p1 :: ps ->
    exists pre rest, s = pre ++ (d :: sep) ++ p1 ++ rest.
Proof.
  induction s as [|c s IH]; intros cur p0 p1 ps; cbn [split_go].
  - discriminate.
  - destruct (startsWith (c :: s) (d :: sep)) eqn:E.
    + intros [= _ H]. rewrite split_go_skip in H.
      destruct (split_go_first _ _ _ _ _ H) as (a & rest & -> & Hs).
      apply startsWith_inv in E. destruct E as (r & E).
      injection E as -> ->. cbn [length Nat.sub] in Hs.
      rewrite Nat.sub_0_r, skipn_app, skipn_all, Nat.sub_diag in Hs.
      cbn [skipn app] in Hs. subst r.
      exists [], rest. reflexivity.
    + intros H. destruct (IH _ _ _ _ H) as (pre & rest & ->).
      exists (c :: pre), rest. reflexivity.
Qed.

(** X6. The verifier accepts a header only if it holds the text
    ["sha256="] followed by the hexadecimal HMAC-SHA256 of the body under
    the application secret: whatever else it lets through, it never
    accepts a header without the right digest. *)
Theorem verify_needs_the_digest (sig body secret : str) :
  verifyWebhookSignature (Some sig) body secret = true ->
  exists pre rest,
    sig = pre ++ lit "sha256=" ++ hmac_sha256_hex secret body ++ rest.
Proof.
  unfold verifyWebhookSignature.
  destruct (falsy sig); [discriminate|].
  destruct (split (lit "sha256=") sig) as [|p0 [|p1 ps]] eqn:Hs;
    cbn [nth_error]; try discriminate.
  destruct (falsy p1); [discriminate|].
  intros H. apply timingSafeEqual_true in H. subst p1.
  unfold split in Hs. cbn [lit list_ascii_of_string] in Hs.
  exact (split_go_second _ _ _ _ _ _ _ Hs).
Qed.

Lemma verify_needs_the_digest_witness :
  verifyWebhookSignature (Some test_signature) test_body test_secret = true /\
  exists pre rest,
    test_signature
    = pre ++ lit "sha256=" ++ hmac_sha256_hex test_secret test_body ++ rest.
Proof.
  split; [vm_compute; reflexivity|].
  apply (verify_needs_the_digest test_signature test_body test_secret).
  vm_compute. reflexivity.
Defined.

End SignatureMore.

Section SendMore.

Import Facebook Samples Statements.

Variable fetch : nat -> FetchResult.
Variables pageAccessToken recipientId messageText : str.

Local Notation "'RUN'" :=
  (sendMessage fetch pageAccessToken recipientId messageText)
  (only parsing).

(** X7. What [sendMessage] reports is the outcome of the last call it
    made: it makes one call, or two when the first fails with an error
    that is not a 4xx response, and returns or throws as that call did.
    A failure of the second call is thrown whatever its kind, and the
    error ["Failed to send message after all retries"] of the last line
    is never the one thrown by the loop running out. *)
Theorem send_reports_last_attempt :
  exists n,
    calls (fst RUN) = S n /\ n <= 1 /\
    snd RUN = attempt_once (fetch n) /\
    (n = 1 <-> exists e, transient (fetch 0) e).
Proof.
  unfold sendMessage, maxRetries, transient. cbn [Nat.add send_loop].
  destruct (attempt_once (fetch 0)) as [[]|e0] eqn:E0.
  - exists 0. cbn. split; [reflexivity|]. split; [lia|].
    split; [symmetry; exact E0|]. split; [discriminate|].
    intros (e & H & _). congruence.
  - destruct (is_client_error e0) eqn:C0.
    + exists 0. cbn. split; [reflexivity|]. split; [lia|].
      split; [symmetry; exact E0|]. split; [discriminate|].
      intros (e & H & H'). congruence.
    + exists 1.
      assert (T : 1 = 1 <-> exists e, @Throw unit e0 = Throw e
                                      /\ is_client_error e = false)
        by (split; [intros _; exists e0; auto | reflexivity]).
      destruct (attempt_once (fetch 1)) as [[]|e1] eqn:E1.
      * cbn. split; [reflexivity|]. split; [lia|].
        split; [first [reflexivity | symmetry; exact E1]|]. exact T.
      * destruct (is_client_error e1); cbn;
          (split; [reflexivity|]; split; [lia|];
           split; [first [reflexivity | symmetry; exact E1]|]; exact T).
Qed.

End SendMore.

(** ** More about [chatbot-utils.ts]: the replies that can come out *)

Section ClassifierMore.

Import ChatbotUtils Samples Statements.

Lemma guard_passed (rawAnswer : str) :
  falsy rawAnswer || (length (trim rawAnswer) =? 0) = false ->
  trim rawAnswer <> [].
Proof.
  intros H. apply orb_false_elim in H. destruct H as [_ H].
  intros E. rewrite E in H. discriminate.
Qed.

Lemma alternative_message_nonempty (p : ProductContext) :
  getAlternativeSuggestionMessage p <> [].
Proof. unfold getAlternativeSuggestionMessage. cbn. discriminate. Qed.

(** X8. Whenever [parseGeminiResponse] returns, the text for the
    customer is not empty, and the result has one of three shapes: the
    trimmed answer as it is, the fixed out-of-scope message, or the
    suggestion built from the name and price of a catalog entry, which
    is the first entry of the catalog with that name and is reported as
    the suggested product. *)
Theorem reply_is_never_empty (rawAnswer : str)
    (catalog : list ProductContext) (r : ParsedResponse) :
  parseGeminiResponse rawAnswer catalog = Ok r ->
  ChatbotUtils.text r <> [] /\
  (r = normal_response (trim rawAnswer)
   \/ r = out_of_scope_response
   \/ exists p, In p catalog /\ find (name_is (name p)) catalog = Some p
                /\ r = alternative_response p).
Proof.
  unfold parseGeminiResponse.
  destruct (falsy rawAnswer || (length (trim rawAnswer) =? 0)) eqn:G;
    [discriminate|].
  apply guard_passed in G.
  assert (N : forall r, Ok (normal_response (trim rawAnswer)) = Ok r ->
              ChatbotUtils.text r <> [] /\
              (r = normal_response (trim rawAnswer)
               \/ r = out_of_scope_response
               \/ exists p, In p catalog
                            /\ find (name_is (name p)) catalog = Some p
                            /\ r = alternative_response p)).
  { intros r' [= <-]. split; [exact G | left; reflexivity]. }
  change (Ok {| type := normal; ChatbotUtils.text := trim rawAnswer;
                suggestedProduct := None |})
    with (Ok (normal_response (trim rawAnswer))).
  destruct (startsWith (trim rawAnswer) OUT_OF_SCOPE).
  { intros [= <-]. split; [cbn; discriminate | right; left; reflexivity]. }
  destruct (startsWith (trim rawAnswer) ALTERNATIVE); [|apply N].
  destruct (match_alternative (trim rawAnswer)) as [g|]; [|apply N].
  destruct (falsy g); [apply N|].
  destruct (find (name_is (trim g)) catalog) as [p|] eqn:E; [|apply N].
  intros [= <-]. cbn [ChatbotUtils.text].
  split; [apply alternative_message_nonempty|].
  right; right. exists p.
  destruct (find_name_is _ _ _ E) as [Hn Hin].
  rewrite Hn. repeat split; try assumption.
  unfold alternative_response. rewrite Hn. reflexivity.
Qed.

Lemma reply_is_never_empty_witness :
  parseGeminiResponse (lit "ALTERNATIVE: Red Mug") mockProducts
  = Ok (alternative_response (product "Red Mug" "$15.00")) /\
  ChatbotUtils.text (alternative_response (product "Red Mug" "$15.00")) <> [].
Proof.
  split; [vm_compute; reflexivity|].
  apply (reply_is_never_empty (lit "ALTERNATIVE: Red Mug") mockProducts).
  vm_compute. reflexivity.
Defined.

(** X9. [parseGeminiResponse] throws exactly on an answer that is empty
    or white space only, whatever the catalog; every other answer is
    classified. *)
Theorem parse_fails_on_blank_only (rawAnswer : str)
    (catalog : list ProductContext) :
  (trim rawAnswer = [] <->
   parseGeminiResponse rawAnswer catalog
   = Throw (error "AI response cannot be empty")) /\
  (trim rawAnswer <> [] <->
   exists r, parseGeminiResponse rawAnswer catalog = Ok r).
Proof.
  assert (B : trim rawAnswer = [] ->
              parseGeminiResponse rawAnswer catalog
              = Throw (error "AI response cannot be empty"))
    by apply parseGeminiResponse_empty.
  assert (C : trim rawAnswer <> [] ->
              exists r, parseGeminiResponse rawAnswer catalog = Ok r).
  { intros H. unfold parseGeminiResponse.
    rewrite (trim_nonempty_not_falsy _ H), (length_eqb_0 _ H).
    cbn [orb].
    destruct (startsWith (trim rawAnswer) OUT_OF_SCOPE); [eauto|].
    destruct (startsWith (trim rawAnswer) ALTERNATIVE); [|eauto].
    destruct (match_alternative (trim rawAnswer)) as [g|]; [|eauto].
    destruct (falsy g); [eauto|].
    destruct (find (name_is (trim g)) catalog); eauto. }
  split; split; try assumption.
  - intros H. destruct (trim rawAnswer) eqn:E; [reflexivity|].
    destruct C as [r Hr]; [discriminate | congruence].
  - intros [r Hr] E. rewrite (B E) in Hr. discriminate.
Qed.

(** *** Trimming twice *)

(** [trimEnd] leaves a prefix. *)
Lemma trimEnd_prefix (s : str) : exists w, s = trimEnd s ++ w.
Proof.
  unfold trimEnd.
  destruct (strip_all_skipn (map (@rev ascii) white_space) (length s) (rev s))
    as [k ->].
  rewrite skipn_rev, rev_involutive.
  exists (skipn (length s - k) s). symmetry. apply firstn_skipn.
Qed.

Lemma startsWith_prefix (a w e : str) :
  startsWith a e = true -> startsWith (a ++ w) e = true.
Proof.
  revert a. induction e as [|c e IH]; intros [|d a]; cbn;
    try reflexivity; try discriminate.
  destruct (ascii_dec c d); [apply IH | discriminate].
Qed.

Lemma strip_one_prefix (encs : list str) (a w : str) :
  strip_one encs (a ++ w) = None -> strip_one encs a = None.
Proof.
  induction encs as [|e encs IH]; [reflexivity|]. cbn [strip_one].
  destruct (startsWith a e) eqn:E.
  - rewrite (startsWith_prefix _ w _ E). discriminate.
  - destruct (startsWith (a ++ w) e); [discriminate | exact IH].
Qed.

Lemma trim_idempotent (s : str) : trim (trim s) = trim s.
Proof.
  unfold trim. set (y := trimStart s).
  assert (Hz : trimStart (trimEnd y) = trimEnd y).
  { unfold trimStart at 1. apply strip_all_fixed.
    destruct (trimEnd_prefix y) as [w Hw].
    apply (strip_one_prefix _ _ w). rewrite <- Hw.
    apply trimStart_stripped. }
  rewrite Hz. unfold trimEnd at 1.
  rewrite strip_all_fixed by apply trimEnd_stripped.
  apply rev_involutive.
Qed.

(** X10. The suggested product is a trimmed name: a catalog entry whose
    name begins or ends with white space is never the suggested product,
    whatever the answer. *)
Theorem untrimmed_name_is_never_suggested (rawAnswer : str)
    (catalog : list ProductContext) (r : ParsedResponse) :
  parseGeminiResponse rawAnswer catalog = Ok r ->
  (forall n, suggestedProduct r = Some n -> trim n = n) /\
  (forall p, trim (name p) <> name p -> suggestedProduct r <> Some (name p)).
Proof.
  intros H.
  assert (T : forall n, suggestedProduct r = Some n -> trim n = n).
  { revert H. unfold parseGeminiResponse.
    destruct (falsy rawAnswer || (length (trim rawAnswer) =? 0));
      [discriminate|].
    destruct (startsWith (trim rawAnswer) OUT_OF_SCOPE);
      [intros [= <-] n [=]|].
    destruct (startsWith (trim rawAnswer) ALTERNATIVE);
      [|intros [= <-] n [=]].
    destruct (match_alternative (trim rawAnswer)) as [g|];
      [|intros [= <-] n [=]].
    destruct (falsy g); [intros [= <-] n [=]|].
    destruct (find (name_is (trim g)) catalog);
      [|intros [= <-] n [=]].
    intros [= <-] n [= <-]. apply trim_idempotent. }
  split; [exact T|].
  intros p Hp E. apply Hp, T, E.
Qed.

Lemma untrimmed_name_is_never_suggested_witness :
  parseGeminiResponse (lit "ALTERNATIVE: Red Mug") mockProducts
  = Ok (alternative_response (product "Red Mug" "$15.00")) /\
  trim (lit "Red Mug") = lit "Red Mug".
Proof.
  assert (H : parseGeminiResponse (lit "ALTERNATIVE: Red Mug") mockProducts
              = Ok (alternative_response (product "Red Mug" "$15.00")))
    by (vm_compute; reflexivity).
  split; [exact H|].
  exact (proj1 (untrimmed_name_is_never_suggested _ _ _ H)
           (lit "Red Mug") eq_refl).
Defined.

End ClassifierMore.

(** ** More about the webhook route: the verification request, and what
    a reply and a log entry stand for *)

Section VerificationFacts.

Import Webhook Samples Statements.

Lemma str_eqb_false (a b : str) : str_eqb a b = false -> a <> b.
Proof. intros H E. apply str_eqb_eq in E. congruence. Qed.

Local Ltac impossible :=
  intros;
  repeat match goal with
         | H : exists _, _ |- _ => destruct H
         | H : _ /\ _ |- _ => destruct H
         | H : str_eqb _ _ = false |- _ => apply str_eqb_false in H
         end;
  unfold lit in *; cbn in *; congruence.

Local Ltac refused :=
  cbn [falsy orb negb http_status body_text];
  split; [split; [discriminate | impossible]
         |split; [discriminate
                 |split; [split; [discriminate | impossible] | auto]]].

(** X11. The verification request is answered with 200 exactly when the
    mode is ["subscribe"], the token is the configured, non-empty
    [WEBHOOK_VERIFY_TOKEN] and a challenge is given, and the body is
    then the challenge as it came; 500 is the answer to a well-formed
    subscription when no token is configured; everything else is 403. *)
Theorem GET_echoes_challenge (WEBHOOK_VERIFY_TOKEN : option str)
    (mode token challenge : option str) :
  (http_status (GET WEBHOOK_VERIFY_TOKEN mode token challenge) = 200%Z <->
   exists t c,
     mode = Some (lit "subscribe") /\ token = Some t /\
     WEBHOOK_VERIFY_TOKEN = Some t /\ t <> [] /\
     challenge = Some c /\ c <> []) /\
  (http_status (GET WEBHOOK_VERIFY_TOKEN mode token challenge) = 200%Z ->
   challenge
   = Some (body_text (GET WEBHOOK_VERIFY_TOKEN mode token challenge))) /\
  (http_status (GET WEBHOOK_VERIFY_TOKEN mode token challenge) = 500%Z <->
   mode = Some (lit "subscribe") /\ falsy_opt token = false /\
   falsy_opt challenge = false /\ falsy_opt WEBHOOK_VERIFY_TOKEN = true) /\
  (http_status (GET WEBHOOK_VERIFY_TOKEN mode token challenge) = 200%Z
   \/ http_status (GET WEBHOOK_VERIFY_TOKEN mode token challenge) = 403%Z
   \/ http_status (GET WEBHOOK_VERIFY_TOKEN mode token challenge) = 500%Z).
Proof.
  unfold GET.
  destruct mode as [[|m0 m]|], token as [[|t0 t]|],
    challenge as [[|c0 c]|]; try solve [refused].
  cbn [falsy orb].
  destruct (str_eqb (m0 :: m) (lit "subscribe")) eqn:Em; cbn [negb];
    [|refused].
  apply str_eqb_eq in Em. rewrite Em.
  destruct WEBHOOK_VERIFY_TOKEN as [[|e0 e]|];
    cbn [falsy http_status body_text].
  - split; [split; [discriminate | impossible]|].
    split; [discriminate|].
    split; [|auto]. split; [intros _; repeat split | reflexivity].
  - destruct (str_eqb (t0 :: t) (e0 :: e)) eqn:Et; cbn [negb]; [|refused].
    apply str_eqb_eq in Et. rewrite <- Et. cbn [http_status body_text].
    split; [split|split; [reflexivity
                         |split; [split; [discriminate | impossible]
                                 | auto]]].
    + intros _. exists (t0 :: t), (c0 :: c).
      repeat split; discriminate.
    + reflexivity.
  - split; [split; [discriminate | impossible]|].
    split; [discriminate|].
    split; [|auto]. split; [intros _; repeat split | reflexivity].
Qed.

End VerificationFacts.

Section RouteMore.

Import ChatbotUtils Webhook Samples Statements.

Variable env : Env.

Local Open Scope io_scope.

(** What an event leaves in the trace, by the kind of the event. *)
Lemma process_trace (e : MessengerEvent) (pageId : str) :
  trace (processMessagingEvent env e pageId) = []
  \/ trace (processMessagingEvent env e pageId) = [FindUnique pageId]
  \/ exists senderId text pc,
       text_event e senderId text /\
       findUnique env pageId = Ok (Some pc) /\
       trace (processMessagingEvent env e pageId)
       = FindUnique pageId
           :: LogPush {| userId := user_id pc; pageId := pageId;
                         senderId := senderId; messageText := text |}
           :: trace (chatbot env pc senderId text).
Proof.
  destruct (message e) as [[[[|t0 t]|]]|] eqn:Em;
    try (left; unfold processMessagingEvent; rewrite Em; reflexivity).
  destruct (sender e) as [senderId|] eqn:Es;
    [|left; unfold processMessagingEvent; rewrite Em, Es; reflexivity].
  assert (T : text_event e senderId (t0 :: t))
    by (repeat split; [assumption | assumption | discriminate]).
  destruct (findUnique env pageId) as [[pc|]|err] eqn:Ef.
  - right; right. exists senderId, (t0 :: t), pc.
    rewrite (process_known_page env e pageId senderId (t0 :: t) pc T Ef).
    auto.
  - right; left.
    rewrite (process_unknown_page env e pageId senderId (t0 :: t) T Ef).
    reflexivity.
  - right; left.
    rewrite (process_lookup_throws env e pageId senderId (t0 :: t) err T Ef).
    reflexivity.
Qed.

(** Every effect of the loops is an effect of one of the events. *)
Lemma in_for_events (x : Effect) (events : list MessengerEvent)
    (pageId : str) :
  In x (trace (for_events env events pageId)) ->
  exists e, In e events /\ In x (trace (processMessagingEvent env e pageId)).
Proof.
  induction events as [|e events IH]; [intros []|].
  rewrite for_events_cons. cbn [trace fst]. intros H.
  apply in_app_or in H. destruct H as [H|H].
  - exists e. split; [left; reflexivity | exact H].
  - destruct (outcome (processMessagingEvent env e pageId)); [|destruct H].
    destruct (IH H) as (e' & Hin & Hx). exists e'. split; [right|]; assumption.
Qed.

Lemma in_for_entries (x : Effect) (entries : list MessengerWebhookEntry) :
  In x (trace (for_entries env entries)) ->
  exists en events,
    In en entries /\ messaging en = Some events /\
    In x (trace (for_events env events (id en))).
Proof.
  induction entries as [|en entries IH]; [intros []|].
  destruct (messaging en) as [events|] eqn:Em.
  - rewrite (for_entries_cons env en entries events Em). cbn [trace fst].
    intros H. apply in_app_or in H. destruct H as [H|H].
    + exists en, events. repeat split; [left; reflexivity | assumption..].
    + destruct (outcome (for_events env events (id en))); [|destruct H].
      destruct (IH H) as (en' & events' & Hin & Hm & Hx).
      exists en', events'. repeat split; [right|..]; assumption.
  - cbn [for_entries]. rewrite Em. intros [].
Qed.

(** A request that is not accepted leaves the signature check and the
    parsing at most. *)
Lemma POST_trace_cases (request : NextRequest) :
  (exists entries, accepted env request entries)
  \/ (forall x, In x (trace (POST env request)) ->
                x = Verify false \/ x = Verify true \/ x = Parse).
Proof.
  destruct (signature_ok env request) eqn:Hsig.
  2: { right. intros x.
       destruct (POST_rejected env request Hsig) as [-> | ->];
         cbn; intuition. }
  assert (Hshort : POST env request = ([Verify true; Parse], Ok ack) ->
                   forall x, In x (trace (POST env request)) ->
                             x = Verify false \/ x = Verify true \/ x = Parse)
    by (intros -> x; cbn; intuition).
  destruct (request_text request) as [body|err] eqn:Hb;
    [|unfold signature_ok in Hsig; rewrite Hb in Hsig; discriminate].
  destruct (JSON_parse env body) as [payload|err] eqn:Hp.
  2: { right. apply Hshort.
       exact (POST_unparseable env request body err Hsig Hb Hp). }
  destruct (list_eq_dec ascii_dec
              (match object payload with Some o => o | None => [] end)
              (lit "page")) as [Ho|Ho].
  2: { right. apply Hshort.
       apply (POST_not_page env request body payload Hsig Hb Hp).
       intros E. rewrite E in Ho. apply Ho. reflexivity. }
  destruct (object payload) as [o|] eqn:Eo; [|discriminate]. subst o.
  destruct (entry payload) as [entries|] eqn:He.
  - left. exists entries. split; [assumption|].
    exists body, payload. auto.
  - right. apply Hshort.
    unfold signature_ok in Hsig. rewrite Hb in Hsig.
    unfold POST, POST_try. rewrite Hb. cbn [lift io_bind].
    destruct (FACEBOOK_APP_SECRET env) as [secret|]; [|discriminate].
    apply andb_prop in Hsig. destruct Hsig as [Hf Hv].
    destruct (falsy secret); [discriminate|].
    rewrite Hv. cbn [emit io_bind negb perform]. rewrite Hp.
    cbn [io_bind]. rewrite Eo, str_eqb_refl, He. reflexivity.
Qed.

(** An effect of the handler that is neither the check nor the parsing
    belongs to an event of an accepted request. *)
Lemma in_POST (x : Effect) (request : NextRequest) :
  In x (trace (POST env request)) ->
  (forall b, x <> Verify b) -> x <> Parse ->
  exists entries en events e,
    accepted env request entries /\ In en entries /\
    messaging en = Some events /\ In e events /\
    In x (trace (processMessagingEvent env e (id en))).
Proof.
  intros H Hv Hp.
  destruct (POST_trace_cases request) as [[entries Ha]|Hs].
  - rewrite (POST_accepted env request entries Ha) in H. cbn [trace fst] in H.
    destruct H as [H|[H|H]];
      [symmetry in H; destruct (Hv _ H)
      |symmetry in H; destruct (Hp H)|].
    destruct (in_for_entries _ _ H) as (en & events & Hen & Hm & H').
    destruct (in_for_events _ _ _ H') as (e & He & H'').
    exists entries, en, events, e. auto.
  - destruct (Hs x H) as [E|[E|E]];
      [destruct (Hv _ E) | destruct (Hv _ E) | destruct (Hp E)].
Qed.

(** Where a call of [sendMessage] comes from, for one event. *)
Lemma send_in_event (e : MessengerEvent)
    (pageId token recipientId reply : str) :
  In (Send token recipientId reply)
     (trace (processMessagingEvent env e pageId)) ->
  exists text pc products,
    text_event e recipientId text /\
    findUnique env pageId = Ok (Some pc) /\
    findMany env (user_id pc) = Ok products /\
    generateChatbotResponse env products text = Ok reply /\
    Encryption.decrypt (ENCRYPTION_KEY env) (page_access_token pc)
    = Ok token.
Proof.
  intros Hx.
  destruct (process_trace e pageId)
    as [E|[E|(senderId & text & pc & Ht & Hf & E)]];
    rewrite E in Hx; cbn [In] in Hx;
    [destruct Hx | destruct Hx as [Hx|[]]; discriminate |].
  destruct Hx as [Hx|[Hx|Hx]]; [discriminate..|].
  rewrite chatbot_trace in Hx. cbn [In] in Hx.
  destruct Hx as [Hx|Hx]; [discriminate|].
  destruct (findMany env (user_id pc)) as [products|] eqn:Hfm; [|destruct Hx].
  destruct Hx as [Hx|Hx]; [discriminate|].
  destruct (generateChatbotResponse env products text) as [aiResponse|]
    eqn:Hg; [|destruct Hx].
  destruct Hx as [Hx|Hx]; [discriminate|].
  destruct (Encryption.decrypt (ENCRYPTION_KEY env) (page_access_token pc))
    as [tok|] eqn:Hd; [|destruct Hx].
  destruct Hx as [Hx|[]]. injection Hx as -> -> ->.
  exists text, pc, products. auto.
Qed.

(** X12. A reply stands for a message.  Every call of [sendMessage] that
    [POST] makes belongs to a text event of the request, whose signature
    has been verified: the recipient is the sender of that event, the
    token is the decrypted token of the connection stored for the page
    of the entry, and the text is what [generateChatbotResponse]
    returned for the text of the event and the catalog of the owner of
    that connection. *)
Theorem reply_answers_a_message (request : NextRequest)
    (token recipientId reply : str) :
  In (Send token recipientId reply) (trace (POST env request)) ->
  exists entries en events e text pc products,
    accepted env request entries /\ In en entries /\
    messaging en = Some events /\ In e events /\
    text_event e recipientId text /\
    findUnique env (id en) = Ok (Some pc) /\
    findMany env (user_id pc) = Ok products /\
    generateChatbotResponse env products text = Ok reply /\
    Encryption.decrypt (ENCRYPTION_KEY env) (page_access_token pc)
    = Ok token.
Proof.
  intros H.
  destruct (in_POST _ _ H) as (entries & en & events & e & Ha & Hen & Hm
                                 & He & Hx); [discriminate..|].
  destruct (send_in_event _ _ _ _ _ Hx)
    as (text & pc & products & Ht & Hf & Hfm & Hg & Hd).
  exists entries, en, events, e, text, pc, products. auto 10.
Qed.

(** X13. A log entry stands for a message.  Every entry that [POST]
    appends to the message log belongs to a text event of the request,
    whose signature has been verified: it holds the sender and the text
    of that event, the page of its entry and the user of the connection
    stored for that page; nothing is logged for a page without a
    connection. *)
Theorem log_entry_records_a_message (request : NextRequest)
    (m : LoggedMessage) :
  In (LogPush m) (trace (POST env request)) ->
  exists entries en events e pc,
    accepted env request entries /\ In en entries /\
    messaging en = Some events /\ In e events /\
    text_event e (senderId m) (messageText m) /\
    findUnique env (id en) = Ok (Some pc) /\
    userId m = user_id pc /\ pageId m = id en.
Proof.
  intros H.
  destruct (in_POST _ _ H) as (entries & en & events & e & Ha & Hen & Hm
                                 & He & Hx); [discriminate..|].
  destruct (process_trace e (id en))
    as [E|[E|(senderId & text & pc & Ht & Hf & E)]];
    rewrite E in Hx; cbn [In] in Hx;
    [destruct Hx | destruct Hx as [Hx|[]]; discriminate |].
  destruct Hx as [Hx|[Hx|Hx]]; [discriminate| |].
  - injection Hx as <-. exists entries, en, events, e, pc.
    cbn [Webhook.senderId Webhook.messageText Webhook.userId
         Webhook.pageId]. auto 10.
  - exfalso. rewrite chatbot_trace in Hx. cbn [In] in Hx.
    destruct Hx as [Hx|Hx]; [discriminate|].
    destruct (findMany env (user_id pc)); [|destruct Hx].
    destruct Hx as [Hx|Hx]; [discriminate|].
    destruct (generateChatbotResponse env _ text); [|destruct Hx].
    destruct Hx as [Hx|Hx]; [discriminate|].
    destruct (Encryption.decrypt _ _); [|destruct Hx].
    destruct Hx as [Hx|[]]. discriminate.
Qed.

(** *** Counting replies *)








End RouteMore.

Section RouteMoreExamples.

Import ChatbotUtils Webhook Samples Statements.

Lemma reply_answers_a_message_witness :
  In (Send (lit "hello") test_sender (lit "OUT_OF_SCOPE"))
     (trace (POST (test_env one_message) (signed_request one_message))) /\
  exists entries en events e text pc products,
    accepted (test_env one_message) (signed_request one_message) entries /\
    In en entries /\ messaging en = Some events /\ In e events /\
    text_event e test_sender text /\
    findUnique (test_env one_message) (id en) = Ok (Some pc) /\
    findMany (test_env one_message) (user_id pc) = Ok products /\
    generateChatbotResponse (test_env one_message) products text
    = Ok (lit "OUT_OF_SCOPE") /\
    Encryption.decrypt (ENCRYPTION_KEY (test_env one_message))
      (page_access_token pc)
    = Ok (lit "hello").
Proof.
  split; [vm_compute; tauto|].
  apply (reply_answers_a_message (test_env one_message)
           (signed_request one_message)).
  vm_compute. tauto.
Defined.

Lemma log_entry_records_a_message_witness :
  exists entries en events e pc,
    accepted (test_env one_message) (signed_request one_message) entries /\
    In en entries /\ messaging en = Some events /\ In e events /\
    text_event e test_sender (lit "What are your business hours?") /\
    findUnique (test_env one_message) (id en) = Ok (Some pc) /\
    test_user = user_id pc /\ test_page = id en.
Proof.
  apply (log_entry_records_a_message (test_env one_message)
           (signed_request one_message)
           {| userId := test_user; pageId := test_page;
              senderId := test_sender;
              messageText := lit "What are your business hours?" |}).
  vm_compute. tauto.
Defined.


End RouteMoreExamples.

(** ** [gemini.ts]: what [generateChatbotResponse] returns and sends *)

Section GeminiFacts.

Import ChatbotUtils Samples Statements.

Variable GEMINI_API_KEY : option str.
Variable fetch : Gemini.Request -> Gemini.FetchResult.

Local Notation "'RUN' products message" :=
  (Gemini.generateChatbotResponse GEMINI_API_KEY fetch products message)
  (at level 10, products at level 9, message at level 9, only parsing).

(** What [extract] returns is the non-empty text of the first part of
    the first candidate. *)
Lemma extract_ok (data : Gemini.GeminiResponse) (reply : str) :
  Gemini.extract data = Ok reply ->
  reply <> [] /\
  exists c cs ct p ps,
    Gemini.candidates data = Some (Some c :: cs) /\
    Gemini.content c = Some ct /\
    Gemini.parts ct = Some (Some p :: ps) /\
    Gemini.text p = Some reply.
Proof.
  unfold Gemini.extract, Gemini.first_text.
  destruct (Gemini.candidates data) as [[|[c|] cs]|] eqn:Ec;
    try discriminate.
  destruct (Gemini.content c) as [ct|] eqn:Ect; [|discriminate].
  destruct (Gemini.parts ct) as [[|[p|] ps]|] eqn:Ep; try discriminate.
  cbn [Js.bind]. destruct (Gemini.text p) as [[|t0 t]|] eqn:Et;
    try discriminate.
  cbn [falsy_opt falsy]. intros [= <-]. split; [discriminate|].
  exists c, cs, ct, p, ps. auto.
Qed.

(** What a returning run has gone through. *)
Lemma generate_ok_inv (products : list ProductContext)
    (customerMessage reply : str) :
  snd (RUN products customerMessage) = Ok reply ->
  exists apiKey response data,
    GEMINI_API_KEY = Some apiKey /\ apiKey <> [] /\
    trim customerMessage <> [] /\
    fetch {| Gemini.x_goog_api_key := apiKey;
             Gemini.prompt :=
               Gemini.constructPrompt products customerMessage |}
    = Gemini.Fulfilled response /\
    Gemini.ok response = true /\
    Gemini.response_json response = Ok data /\
    Gemini.extract data = Ok reply.
Proof.
  unfold Gemini.generateChatbotResponse.
  destruct GEMINI_API_KEY as [[|k0 k]|]; try discriminate.
  cbn [falsy].
  destruct (falsy customerMessage || (length (trim customerMessage) =? 0))
    eqn:G; [discriminate|].
  cbn [snd].
  destruct (fetch _) as [response| |e|] eqn:F; try discriminate.
  destruct (Gemini.ok response) eqn:O; cbn [negb].
  2: { destruct (Gemini.response_text response); discriminate. }
  destruct (Gemini.response_json response) as [data|] eqn:J;
    [|discriminate].
  cbn [Js.bind]. intros H.
  exists (k0 :: k), response, data.
  repeat split; try assumption; try discriminate.
  apply orb_false_elim in G. destruct G as [_ G].
  intros E. rewrite E in G. discriminate.
Qed.

(** X15. What [generateChatbotResponse] returns is never empty: it is
    the text of the first part of the first candidate of a response
    with a status in 200..299 to the one request, made under a
    configured key for a message that is not blank.  In every other case
    the function throws. *)
Theorem generated_reply_is_first_candidate
    (products : list ProductContext) (customerMessage reply : str) :
  snd (RUN products customerMessage) = Ok reply ->
  reply <> [] /\
  exists apiKey response data c cs ct p ps,
    GEMINI_API_KEY = Some apiKey /\ apiKey <> [] /\
    trim customerMessage <> [] /\
    fetch {| Gemini.x_goog_api_key := apiKey;
             Gemini.prompt :=
               Gemini.constructPrompt products customerMessage |}
    = Gemini.Fulfilled response /\
    Gemini.ok response = true /\
    Gemini.response_json response = Ok data /\
    Gemini.candidates data = Some (Some c :: cs) /\
    Gemini.content c = Some ct /\
    Gemini.parts ct = Some (Some p :: ps) /\
    Gemini.text p = Some reply.
Proof.
  intros H.
  destruct (generate_ok_inv _ _ _ H)
    as (apiKey & response & data & Hk & Hk' & Ht & Hf & Ho & Hj & Hx).
  destruct (extract_ok _ _ Hx)
    as (Hne & c & cs & ct & p & ps & H1 & H2 & H3 & H4).
  split; [exact Hne|].
  exists apiKey, response, data, c, cs, ct, p, ps. auto 12.
Qed.

(** The one request of a run that gets past the checks. *)
Lemma generate_request_sent (products : list ProductContext)
    (customerMessage apiKey : str) :
  GEMINI_API_KEY = Some apiKey -> apiKey <> [] ->
  trim customerMessage <> [] ->
  fst (RUN products customerMessage)
  = [ {| Gemini.x_goog_api_key := apiKey;
         Gemini.prompt :=
           Gemini.constructPrompt products customerMessage |} ].
Proof.
  intros -> Hk Ht. unfold Gemini.generateChatbotResponse.
  destruct apiKey; [contradiction|]. cbn [falsy].
  destruct (trim customerMessage) as [|t0 t] eqn:T; [contradiction|].
  assert (F : falsy customerMessage = false).
  { destruct customerMessage; [discriminate T | reflexivity]. }
  rewrite F. reflexivity.
Qed.

(** X16. [generateChatbotResponse] sends no request when the key is
    missing or empty or when the message is empty or white space only,
    and exactly one request otherwise, whatever the answer: it is
    never sent again. *)
Theorem generate_sends_one_request
    (products : list ProductContext) (customerMessage : str) :
  (fst (RUN products customerMessage) = [] <->
   falsy_opt GEMINI_API_KEY = true \/ trim customerMessage = []) /\
  (forall apiKey,
     GEMINI_API_KEY = Some apiKey -> apiKey <> [] ->
     trim customerMessage <> [] ->
     fst (RUN products customerMessage)
     = [ {| Gemini.x_goog_api_key := apiKey;
            Gemini.prompt :=
              Gemini.constructPrompt products customerMessage |} ]).
Proof.
  split; [|intros; apply generate_request_sent; assumption].
  split.
  - intros H.
    destruct GEMINI_API_KEY as [[|k0 k]|] eqn:K;
      [left; reflexivity| |left; reflexivity].
    destruct (trim customerMessage) as [|t0 t] eqn:T; [right; reflexivity|].
    rewrite <- K in H.
    rewrite (generate_request_sent products customerMessage (k0 :: k))
      in H; [discriminate | rewrite K; reflexivity | discriminate
            | rewrite T; discriminate].
  - unfold Gemini.generateChatbotResponse.
    destruct GEMINI_API_KEY as [[|k0 k]|]; cbn [falsy falsy_opt];
      try reflexivity.
    intros [H|H]; [discriminate|]. rewrite H. cbn [length Nat.eqb].
    rewrite orb_true_r. reflexivity.
Qed.

End GeminiFacts.

Section GeminiExamples.

Import ChatbotUtils Samples Statements.

Lemma generated_reply_is_first_candidate_witness :
  snd (Gemini.generateChatbotResponse gemini_key
         (gemini_answers "The Red Mug is $15.00.") mockProducts
         (lit "How much is the red mug?"))
  = Ok (lit "The Red Mug is $15.00.") /\
  lit "The Red Mug is $15.00." <> [].
Proof.
  split; [reflexivity|].
  apply (generated_reply_is_first_candidate gemini_key
           (gemini_answers "The Red Mug is $15.00.") mockProducts
           (lit "How much is the red mug?") (lit "The Red Mug is $15.00.")).
  reflexivity.
Defined.

End GeminiExamples.

(** ** The OAuth callback: what is stored, and when *)

Section CallbackFacts.

Import FacebookCallback Samples Statements.

Variable env : Env.

Local Open Scope callback_scope.

Lemma callback_trace_bind {A B} (m : io A) (k : A -> io B) :
  trace (io_bind m k)
  = trace m ++ match outcome m with
               | Ok a => trace (k a)
               | Throw _ => []
               end.
Proof.
  destruct m as [t [a|e]]; cbn [io_bind trace outcome fst snd].
  - destruct (k a). reflexivity.
  - rewrite app_nil_r. reflexivity.
Qed.

(** A redirection leaves no effect. *)
Lemma dashboard_trace (query : string) : trace (dashboard env query) = [].
Proof.
  unfold dashboard, redirect. destruct (new_URL env _); reflexivity.
Qed.

Lemma try_catch_trace (m : io Response) (query : string) :
  trace (try_catch m (fun _ => dashboard env query)) = trace m.
Proof.
  destruct m as [t [a|e]]; cbn [try_catch trace fst]; [reflexivity|].
  pose proof (dashboard_trace query) as H.
  destruct (dashboard env query). cbn [trace fst] in *. subst.
  apply app_nil_r.
Qed.

(** The effects of the handler, step by step. *)
Lemma GET_trace (request : Request) :
  trace (GET env request)
  = Auth
    :: match auth env with
       | Throw _ => []
       | Ok session =>
           match truthy session with
           | None => []
           | Some userId =>
               if match error_param request with
                  | Some e => str_eqb e (lit "access_denied")
                  | None => false
                  end
               then []
               else
                 match truthy (state request),
                       truthy (facebook_oauth_state request) with
                 | Some state, Some savedState =>
                     if negb (str_eqb state savedState) then []
                     else
                       DeleteCookie
                       :: match truthy (code request) with
                          | None => []
                          | Some code =>
                              let redirectUri :=
                                template (NEXTAUTH_URL env)
                                  ++ lit "/api/facebook/callback" in
                              ExchangeCode code redirectUri
                              :: match exchangeCodeForToken env code
                                         redirectUri with
                                 | Throw _ => []
                                 | Ok userAccessToken =>
                                     GetPages userAccessToken
                                     :: match getUserPages env
                                                userAccessToken with
                                        | Ok (selectedPage :: _) =>
                                            match Encryption.encrypt
                                                    (ENCRYPTION_KEY env)
                                                    (randomBytes env)
                                                    (access_token
                                                       selectedPage) with
                                            | Ok encryptedToken =>
                                                [Upsert
                                                   {| user_id := userId;
                                                      facebook_page_id :=
                                                        id selectedPage;
                                                      page_access_token :=
                                                        encryptedToken;
                                                      page_name :=
                                                        name selectedPage |}]
                                            | Throw _ => []
                                            end
                                        | _ => []
                                        end
                                 end
                          end
                 | _, _ => []
                 end
           end
       end.
Proof.
  unfold GET. rewrite try_catch_trace. unfold GET_try.
  rewrite callback_trace_bind. cbn [perform trace outcome fst snd app].
  f_equal.
  destruct (auth env) as [session|]; [|reflexivity].
  destruct (truthy session) as [userId|]; [|apply dashboard_trace].
  destruct (match error_param request with
            | Some e => str_eqb e (lit "access_denied")
            | None => false
            end); [apply dashboard_trace|].
  destruct (truthy (state request)) as [state|]; [|apply dashboard_trace].
  destruct (truthy (facebook_oauth_state request)) as [savedState|];
    [|apply dashboard_trace].
  destruct (negb (str_eqb state savedState)); [apply dashboard_trace|].
  rewrite callback_trace_bind. cbn [perform trace outcome fst snd app].
  f_equal.
  destruct (truthy (code request)) as [code|]; [|apply dashboard_trace].
  cbv zeta. rewrite callback_trace_bind.
  cbn [perform trace outcome fst snd app]. f_equal.
  destruct (exchangeCodeForToken env code _) as [userAccessToken|];
    [|reflexivity].
  rewrite callback_trace_bind. cbn [perform trace outcome fst snd app].
  f_equal.
  destruct (getUserPages env userAccessToken) as [[|selectedPage pages]|];
    [apply dashboard_trace| |reflexivity].
  rewrite callback_trace_bind. cbn [lift trace outcome fst snd app].
  destruct (Encryption.encrypt _ _ _) as [encryptedToken|]; [|reflexivity].
  rewrite callback_trace_bind. cbn [perform trace outcome fst snd app].
  f_equal. destruct (upsert env _); [apply dashboard_trace | reflexivity].
Qed.

Lemma truthy_some (v : option str) (s : str) :
  truthy v = Some s -> v = Some s /\ s <> [].
Proof.
  destruct v as [[|c r]|]; cbn; intros [= <-]. split; [reflexivity|].
  discriminate.
Qed.

(** What has been checked when the state cookie is cleared. *)
Lemma callback_past_the_checks (request : Request) (rest : list Effect) :
  trace (GET env request) = Auth :: DeleteCookie :: rest ->
  exists userId st,
    auth env = Ok (Some userId) /\ userId <> [] /\
    error_param request <> Some (lit "access_denied") /\
    state request = Some st /\ facebook_oauth_state request = Some st /\
    st <> [].
Proof.
  rewrite GET_trace.
  destruct (auth env) as [session|]; [|discriminate].
  destruct (truthy session) as [userId|] eqn:Eu; [|discriminate].
  destruct (error_param request) as [e|] eqn:Ee.
  - destruct (str_eqb e (lit "access_denied")) eqn:Ed; [discriminate|].
    destruct (truthy (state request)) as [st|] eqn:Es; [|discriminate].
    destruct (truthy (facebook_oauth_state request)) as [sv|] eqn:Ev;
      [|discriminate].
    destruct (str_eqb st sv) eqn:Eq; cbn [negb]; [|discriminate].
    intros _. apply str_eqb_eq in Eq. subst sv.
    apply truthy_some in Eu, Es, Ev.
    destruct Eu as [-> Hu], Es as [Es Hs], Ev as [Ev _].
    exists userId, st. repeat split; try assumption.
    intros [= ->]. rewrite str_eqb_refl in Ed. discriminate.
  - destruct (truthy (state request)) as [st|] eqn:Es; [|discriminate].
    destruct (truthy (facebook_oauth_state request)) as [sv|] eqn:Ev;
      [|discriminate].
    destruct (str_eqb st sv) eqn:Eq; cbn [negb]; [|discriminate].
    intros _. apply str_eqb_eq in Eq. subst sv.
    apply truthy_some in Eu, Es, Ev.
    destruct Eu as [-> Hu], Es as [Es Hs], Ev as [Ev _].
    exists userId, st. repeat split; try assumption. discriminate.
Qed.

(** The handler does nothing after the session check unless the state
    is verified. *)
Lemma callback_trace_shape (request : Request) :
  trace (GET env request) = [Auth]
  \/ exists rest, trace (GET env request) = Auth :: DeleteCookie :: rest.
Proof.
  rewrite GET_trace.
  destruct (auth env) as [session|]; [|left; reflexivity].
  destruct (truthy session); [|left; reflexivity].
  destruct (match error_param request with
            | Some e => str_eqb e (lit "access_denied")
            | None => false
            end); [left; reflexivity|].
  destruct (truthy (state request)); [|left; reflexivity].
  destruct (truthy (facebook_oauth_state request)); [|left; reflexivity].
  destruct (negb (str_eqb _ _)); [left; reflexivity|].
  right. eexists. reflexivity.
Qed.

(** X17. The callback does nothing beyond the session check (it leaves
    the state cookie, exchanges no code, fetches no pages, writes no
    connection) unless there is a session with a user, the user has not
    denied access, and the [state] parameter is not empty and equals the
    [facebook_oauth_state] cookie; beyond the clearing of that cookie it
    does nothing without a [code]. *)
Theorem callback_checks_state (request : Request) (x : Effect) :
  In x (trace (GET env request)) -> x <> Auth ->
  (exists userId st,
     auth env = Ok (Some userId) /\ userId <> [] /\
     error_param request <> Some (lit "access_denied") /\
     state request = Some st /\ facebook_oauth_state request = Some st /\
     st <> []) /\
  (x <> DeleteCookie ->
   exists c, code request = Some c /\ c <> []).
Proof.
  intros Hin Hx.
  destruct (callback_trace_shape request) as [E|[rest E]].
  { rewrite E in Hin. destruct Hin as [Hin|[]]. congruence. }
  split; [exact (callback_past_the_checks request rest E)|].
  intros Hd. rewrite E in Hin.
  destruct Hin as [Hin|[Hin|Hin]]; [congruence..|].
  rewrite GET_trace in E.
  destruct (auth env) as [session|]; [|discriminate].
  destruct (truthy session); [|discriminate].
  destruct (match error_param request with
            | Some e => str_eqb e (lit "access_denied")
            | None => false
            end); [discriminate|].
  destruct (truthy (state request)); [|discriminate].
  destruct (truthy (facebook_oauth_state request)); [|discriminate].
  destruct (negb (str_eqb _ _)); [discriminate|].
  injection E as E.
  destruct (truthy (code request)) as [c|] eqn:Ec;
    [|subst rest; destruct Hin].
  apply truthy_some in Ec. exists c. exact Ec.
Qed.

(** What a stored connection holds. *)
Lemma upsert_origin (request : Request)
    (record : Connection) :
  In (Upsert record) (trace (GET env request)) ->
  exists c userAccessToken page pages,
    auth env = Ok (Some (user_id record)) /\
    code request = Some c /\
    exchangeCodeForToken env c
      (template (NEXTAUTH_URL env) ++ lit "/api/facebook/callback")
    = Ok userAccessToken /\
    getUserPages env userAccessToken = Ok (page :: pages) /\
    facebook_page_id record = id page /\
    page_name record = name page /\
    Encryption.encrypt (ENCRYPTION_KEY env) (randomBytes env)
      (access_token page)
    = Ok (page_access_token record).
Proof.
  rewrite GET_trace. intros [H|H]; [discriminate|].
  destruct (auth env) as [session|]; [|destruct H].
  destruct (truthy session) as [userId|] eqn:Eu; [|destruct H].
  destruct (match error_param request with
            | Some e => str_eqb e (lit "access_denied")
            | None => false
            end); [destruct H|].
  destruct (truthy (state request)); [|destruct H].
  destruct (truthy (facebook_oauth_state request)); [|destruct H].
  destruct (negb (str_eqb _ _)); [destruct H|].
  destruct H as [H|H]; [discriminate|].
  destruct (truthy (code request)) as [c|] eqn:Ec; [|destruct H].
  cbv zeta in H. destruct H as [H|H]; [discriminate|].
  destruct (exchangeCodeForToken env c _) as [userAccessToken|] eqn:Ex;
    [|destruct H].
  destruct H as [H|H]; [discriminate|].
  destruct (getUserPages env userAccessToken) as [[|page pages]|] eqn:Ep;
    try destruct H.
  destruct (Encryption.encrypt _ _ _) as [encryptedToken|] eqn:Ee;
    [|destruct H].
  destruct H as [H|[]]. injection H as <-.
  cbn [user_id facebook_page_id page_access_token page_name].
  apply truthy_some in Eu, Ec. destruct Eu as [-> _], Ec as [Ec _].
  exists c, userAccessToken, page, pages.
  repeat split; assumption.
Qed.

(** X18. What the callback stores.  A connection is written only for
    the user of the session, with the identifier and the name of the
    first page that [getUserPages] returned for the exchanged token, and
    the stored token is the output of [encrypt] on the access token of
    that page: [decrypt] turns it back into that token, under the same
    key. *)
Theorem callback_stores_encrypted_token (request : Request)
    (record : Connection) :
  In (Upsert record) (trace (GET env request)) ->
  exists c userAccessToken page pages,
    auth env = Ok (Some (user_id record)) /\
    code request = Some c /\
    exchangeCodeForToken env c
      (template (NEXTAUTH_URL env) ++ lit "/api/facebook/callback")
    = Ok userAccessToken /\
    getUserPages env userAccessToken = Ok (page :: pages) /\
    facebook_page_id record = id page /\
    page_name record = name page /\
    Encryption.encrypt (ENCRYPTION_KEY env) (randomBytes env)
      (access_token page)
    = Ok (page_access_token record) /\
    Encryption.decrypt (ENCRYPTION_KEY env) (page_access_token record)
    = Ok (access_token page).
Proof.
  intros H.
  destruct (upsert_origin request record H)
    as (c & u & page & pages & Ha & Hc & Hx & Hp & Hid & Hn & He).
  exists c, u, page, pages.
  do 7 (split; [assumption|]).
  exact (decrypt_encrypt_ok _ _ _ _ He).
Qed.

End CallbackFacts.

Section CallbackExamples.

Import FacebookCallback Samples Statements.

Lemma callback_checks_state_witness :
  In (Upsert stored_connection) (trace (GET callback_env callback_request))
  /\ (exists userId st,
        auth callback_env = Ok (Some userId) /\ userId <> [] /\
        error_param callback_request <> Some (lit "access_denied") /\
        state callback_request = Some st /\
        facebook_oauth_state callback_request = Some st /\
        st <> []) /\
     (Upsert stored_connection <> DeleteCookie ->
      exists c, code callback_request = Some c /\ c <> []).
Proof.
  assert (H : In (Upsert stored_connection)
                 (trace (GET callback_env callback_request)))
    by (vm_compute; tauto).
  split; [exact H|].
  apply (callback_checks_state callback_env callback_request
           (Upsert stored_connection) H).
  discriminate.
Defined.

Lemma callback_stores_encrypted_token_witness :
  In (Upsert stored_connection) (trace (GET callback_env callback_request))
  /\ Encryption.decrypt test_key (page_access_token stored_connection)
     = Ok (lit "hello").
Proof.
  assert (H : In (Upsert stored_connection)
                 (trace (GET callback_env callback_request)))
    by (vm_compute; tauto).
  split; [exact H|].
  destruct (callback_stores_encrypted_token callback_env callback_request
              stored_connection H)
    as (c & u & page & pages & _ & _ & _ & Hp & _ & _ & _ & Hd).
  injection Hp as <- _. exact Hd.
Defined.

End CallbackExamples.

(** ** The pieces together *)

Section TokenPath.

Import Samples Statements.

(** X19. From the callback to the webhook.  When the webhook finds, for
    the page of an event, the connection that the OAuth callback stored,
    and both run under the same [ENCRYPTION_KEY], the token with which
    the reply is sent is the access token of the page as the Graph API
    gave it to the callback. *)
Theorem stored_token_is_sent_token
    (callback : FacebookCallback.Env) (webhook : Webhook.Env)
    (request : FacebookCallback.Request)
    (record : FacebookCallback.Connection)
    (e : Webhook.MessengerEvent) (pageId token recipientId reply : str) :
  In (FacebookCallback.Upsert record)
     (FacebookCallback.trace (FacebookCallback.GET callback request)) ->
  Webhook.ENCRYPTION_KEY webhook = FacebookCallback.ENCRYPTION_KEY callback ->
  Webhook.findUnique webhook pageId
  = Ok (Some {| Webhook.user_id := FacebookCallback.user_id record;
                Webhook.page_access_token :=
                  FacebookCallback.page_access_token record |}) ->
  In (Webhook.Send token recipientId reply)
     (Webhook.trace (Webhook.processMessagingEvent webhook e pageId)) ->
  exists userAccessToken page pages,
    FacebookCallback.getUserPages callback userAccessToken
    = Ok (page :: pages) /\
    FacebookCallback.facebook_page_id record = FacebookCallback.id page /\
    token = FacebookCallback.access_token page.
Proof.
  intros Hup Hkey Hfind Hsend.
  destruct (upsert_origin callback request record Hup)
    as (c & u & page & pages & _ & _ & _ & Hp & Hid & _ & He).
  pose proof (decrypt_encrypt_ok _ _ _ _ He) as Hd.
  exists u, page, pages. repeat split; try assumption.
  destruct (process_trace webhook e pageId)
    as [E|[E|(senderId & text & pc & Ht & Hf & E)]];
    rewrite E in Hsend; cbn [In] in Hsend;
    [destruct Hsend | destruct Hsend as [H|[]]; discriminate |].
  rewrite Hfind in Hf. injection Hf as <-.
  destruct Hsend as [H|[H|H]]; [discriminate..|].
  rewrite chatbot_trace in H. cbn [In Webhook.user_id] in H.
  destruct H as [H|H]; [discriminate|].
  destruct (Webhook.findMany webhook _); [|destruct H].
  destruct H as [H|H]; [discriminate|].
  destruct (Webhook.generateChatbotResponse webhook _ text); [|destruct H].
  destruct H as [H|H]; [discriminate|].
  cbn [Webhook.page_access_token] in H. rewrite Hkey, Hd in H.
  destruct H as [H|[]]. injection H as <- _ _. reflexivity.
Qed.

Lemma stored_token_is_sent_token_witness :
  exists userAccessToken page pages,
    FacebookCallback.getUserPages callback_env userAccessToken
    = Ok (page :: pages) /\
    FacebookCallback.facebook_page_id stored_connection
    = FacebookCallback.id page /\
    lit "hello" = FacebookCallback.access_token page.
Proof.
  apply (stored_token_is_sent_token callback_env (test_env one_message)
           callback_request stored_connection first_message test_page
           (lit "hello") test_sender (lit "OUT_OF_SCOPE"));
    vm_compute; tauto.
Defined.

End TokenPath.

Section WiredFacts.

Import ChatbotUtils Webhook Samples Statements.

Variables FACEBOOK_APP_SECRET ENCRYPTION_KEY GEMINI_API_KEY : option str.
Variable JSON_parse : str -> result MessengerWebhookPayload.
Variable findUnique : str -> result (option PageConnection).
Variable findMany : str -> result (list ProductContext).
Variable gemini : Gemini.Request -> Gemini.FetchResult.
Variable graph : nat -> Facebook.FetchResult.

Local Notation "'ENV'" :=
  (Wired.env FACEBOOK_APP_SECRET ENCRYPTION_KEY GEMINI_API_KEY JSON_parse
     findUnique findMany gemini graph) (only parsing).

(** X20. With the generator of [gemini.ts] in place, every reply that
    the route sends is a non-empty text, and it answers a message that
    is not blank: the message for which the request to the API was
    made. *)
Theorem wired_reply_is_not_empty (request : NextRequest)
    (token recipientId reply : str) :
  In (Send token recipientId reply) (trace (POST ENV request)) ->
  reply <> [] /\
  exists entries en events e text pc products,
    accepted ENV request entries /\ In en entries /\
    messaging en = Some events /\ In e events /\
    text_event e recipientId text /\ trim text <> [] /\
    findUnique (id en) = Ok (Some pc) /\
    findMany (user_id pc) = Ok products /\
    fst (Gemini.generateChatbotResponse GEMINI_API_KEY gemini products text)
    = [ {| Gemini.x_goog_api_key :=
             match GEMINI_API_KEY with Some k => k | None => [] end;
           Gemini.prompt := Gemini.constructPrompt products text |} ].
Proof.
  intros H.
  destruct (in_POST _ _ _ H) as (entries & en & events & e & Ha & Hen & Hm
                                   & He & Hx); [discriminate..|].
  destruct (send_in_event _ _ _ _ _ _ Hx)
    as (text & pc & products & Ht & Hf & Hfm & Hg & _).
  cbn [Wired.env Webhook.generateChatbotResponse Webhook.findUnique
         Webhook.findMany] in Hf, Hfm, Hg.
  destruct (generate_ok_inv GEMINI_API_KEY gemini products text reply Hg)
    as (apiKey & response & data & Hk & Hk' & Htrim & _ & _ & _ & Hx').
  split; [exact (proj1 (extract_ok _ _ Hx'))|].
  exists entries, en, events, e, text, pc, products.
  do 8 (split; [assumption|]).
  rewrite Hk.
  exact (generate_request_sent (Some apiKey) gemini products text apiKey
           eq_refl Hk' Htrim).
Qed.

(** X21. A message of white space only.  The route looks up the page,
    logs the message and fetches the catalog; [generateChatbotResponse]
    then refuses the message before any request to the API, so that
    nothing is decrypted and nothing is sent, and the event ends without
    an error. *)
Theorem blank_message_is_dropped (e : MessengerEvent)
    (pageId senderId text : str) (pc : PageConnection)
    (products : list ProductContext) :
  text_event e senderId text -> trim text = [] ->
  findUnique pageId = Ok (Some pc) ->
  findMany (user_id pc) = Ok products ->
  processMessagingEvent ENV e pageId
  = ([ FindUnique pageId;
       LogPush {| userId := user_id pc; pageId := pageId;
                  senderId := senderId; messageText := text |};
       FindMany (user_id pc);
       Generate products text ], Ok tt) /\
  fst (Gemini.generateChatbotResponse GEMINI_API_KEY gemini products text)
  = [].
Proof.
  intros Ht Hb Hf Hfm.
  assert (G : Gemini.generateChatbotResponse GEMINI_API_KEY gemini
                products text
              = ([], Throw (error
                             "GEMINI_API_KEY environment variable is required"))
              \/ Gemini.generateChatbotResponse GEMINI_API_KEY gemini
                   products text
                 = ([], Throw (error "Customer message cannot be empty"))).
  { unfold Gemini.generateChatbotResponse.
    destruct GEMINI_API_KEY as [[|k0 k]|];
      [left; reflexivity| |left; reflexivity].
    right. cbn [falsy]. rewrite Hb. cbn [length Nat.eqb].
    rewrite orb_true_r. reflexivity. }
  split; [|destruct G as [-> | ->]; reflexivity].
  rewrite (process_known_page ENV e pageId senderId text pc Ht Hf).
  f_equal. f_equal. f_equal.
  rewrite chatbot_trace.
  cbn [Wired.env Webhook.findMany Webhook.generateChatbotResponse].
  rewrite Hfm. destruct G as [-> | ->]; reflexivity.
Qed.

End WiredFacts.

Section WiredExamples.

Import ChatbotUtils Webhook Samples Statements.

Lemma wired_reply_is_not_empty_witness :
  In (Send (lit "hello") test_sender (lit "The Red Mug is $15.00."))
     (trace (POST (wired_env "The Red Mug is $15.00.")
               (signed_request one_message))) /\
  lit "The Red Mug is $15.00." <> [].
Proof.
  assert (H : In (Send (lit "hello") test_sender
                    (lit "The Red Mug is $15.00."))
                 (trace (POST (wired_env "The Red Mug is $15.00.")
                           (signed_request one_message))))
    by (vm_compute; tauto).
  split; [exact H|].
  exact (proj1 (wired_reply_is_not_empty _ _ _ _ _ _ _ _ _ _ _ _ H)).
Defined.

Lemma blank_message_is_dropped_witness :
  text_event blank_message test_sender (lit "   ") /\
  trim (lit "   ") = [] /\
  processMessagingEvent (wired_env "unused") blank_message test_page
  = ([ FindUnique test_page;
       LogPush {| userId := test_user; pageId := test_page;
                  senderId := test_sender; messageText := lit "   " |};
       FindMany test_user;
       Generate mockProducts (lit "   ") ], Ok tt).
Proof.
  assert (T : text_event blank_message test_sender (lit "   "))
    by (repeat split; discriminate).
  split; [exact T|]. split; [reflexivity|].
  exact (proj1 (blank_message_is_dropped
                  (Some test_secret) test_key gemini_key
                  (JSON_parse (test_env one_message))
                  (findUnique (test_env one_message))
                  (findMany (test_env one_message))
                  (gemini_answers "unused") (always 200 "{}")
                  blank_message test_page test_sender (lit "   ")
                  test_connection mockProducts
                  T eq_refl eq_refl eq_refl)).
Defined.

End WiredExamples.
